(** * Sums of two squares: a shallow embedding of [sums_of_two_squares.py]

    Python integers are modelled by [Z]; [%] and [//] with a positive
    divisor are [Z.modulo] and [Z.div] (both floor based).  Lists are
    Rocq lists, the dictionaries [fac] and [prime_reps] are association
    lists in insertion order, and the lazily consumed generator
    [candidates] is the list of the primes it has not yet produced.
    Exceptions are explicit results. *)

From Stdlib Require Import ZArith Zdivisibility Zcong List Lia Bool Permutation.
From Stdlib Require Import Finite Sorted.
From Stdlib Require String Ascii DecimalString DecimalPos DecimalN QArith.
Import ListNotations.
Import String.StringSyntax Ascii.AsciiSyntax.
Delimit Scope char_scope with char.
Delimit Scope string_scope with string.
Local Open Scope Z_scope.

(** ** Results and exceptions *)

Inductive exn : Type :=
| ValueError          (* raised by the guard on negative input *)
| TypeError           (* pow(None, k): the search returned None *)
| ZeroDivisionError   (* a % 0 *)
| KeyError            (* missing dictionary key *)
| Diverges.           (* the model's fuel ran out: the loop does not stop *)

Inductive result (A : Type) : Type :=
| Ok (a : A)
| Raise (e : exn).
Arguments Ok {A} a.
Arguments Raise {A} e.

(** Outcome of the body of a loop inside a function: go on with a new
    state, leave the function with a value, or raise. *)
Inductive flow (S R : Type) : Type :=
| Continue (s : S)
| Return (r : R)
| Throw (e : exn).
Arguments Continue {S R} s.
Arguments Return {S R} r.
Arguments Throw {S R} e.

(** ** The sympy oracles: [divisors], [factorint], [primerange], [sqrt] *)

Module Sympy.

(** [range(lo, lo + k)] *)
Fixpoint Zseq (lo : Z) (k : nat) : list Z :=
  match k with
  | O => []
  | S k' => lo :: Zseq (lo + 1) k'
  end.

(** [divisors(n)]: the positive divisors in increasing order; empty for 0. *)
Definition divisors (n : Z) : list Z :=
  filter (fun d => n mod d =? 0) (Zseq 1 (Z.abs_nat n)).

(** Trial division: no [d] with [lo <= d < lo + k] divides [n]. *)
Fixpoint no_divisor_from (k : nat) (lo n : Z) : bool :=
  match k with
  | O => true
  | S k' => if n <? lo * lo then true
            else if n mod lo =? 0 then false
            else no_divisor_from k' (lo + 1) n
  end.

Definition isprime (n : Z) : bool :=
  (1 <? n) && no_divisor_from (Z.to_nat (Z.sqrt n)) 2 n.

(** Strip the factor [d] from [n]: the exponent of [d] and the cofactor. *)
Fixpoint multiplicity (fuel : nat) (n d : Z) : Z * Z :=
  match fuel with
  | O => (0, n)
  | S f =>
      if n mod d =? 0
      then let (e, m) := multiplicity f (n / d) d in (e + 1, m)
      else (0, n)
  end.

Fixpoint trial (fuel : nat) (n d : Z) : list (Z * Z) :=
  match fuel with
  | O => if 1 <? n then [(n, 1)] else []
  | S f =>
      if n <? d * d then (if 1 <? n then [(n, 1)] else [])
      else
        let (e, m) := multiplicity (Z.to_nat (Z.log2 n)) n d in
        if 0 <? e then (d, e) :: trial f m (d + 1)
        else trial f n (d + 1)
  end.

(** [factorint(n)] for [n >= 2]: the primes of [n] in increasing order,
    each with its exponent. *)
Definition factorint (n : Z) : list (Z * Z) :=
  trial (Z.to_nat (Z.sqrt n)) n 2.

(** Upper bounds handed to [primerange]: the number [0] or the real
    number [sqrt(x) + 1]. *)
Inductive bound : Type :=
| BZero
| BSqrtPlus1 (x : Z).

(** [max] of two such bounds, for [x >= 0]. *)
Definition bound_max (a b : bound) : bound :=
  match a, b with
  | BZero, _ => b
  | _, BZero => a
  | BSqrtPlus1 x, BSqrtPlus1 y => BSqrtPlus1 (Z.max x y)
  end.

(** [q < b], exactly: [q < sqrt(x) + 1] iff [q - 1 < 0] or [(q-1)^2 < x]. *)
Definition lt_bound (q : Z) (b : bound) : bool :=
  match b with
  | BZero => q <? 0
  | BSqrtPlus1 x => (q <? 1) || ((q - 1) * (q - 1) <? x)
  end.

(** An integer that is not below the bound. *)
Definition bound_ceil (b : bound) : Z :=
  match b with
  | BZero => 0
  | BSqrtPlus1 x => Z.sqrt x + 2
  end.

(** [primerange(a, b)]: the primes [q] with [a <= q < b], in increasing
    order. *)
Definition primerange (a : Z) (b : bound) : list Z :=
  filter (fun q => isprime q && lt_bound q b)
         (Zseq a (Z.to_nat (bound_ceil b - a))).

(** [a >= sqrt(p)] for [a >= 0], decided exactly. *)
Definition ge_sqrt (a p : Z) : bool := p <=? a * a.

End Sympy.

Import Sympy.

(** ** [r_2] *)

(** [d4[i] += 1] *)
Fixpoint list_incr (l : list Z) (i : nat) : list Z :=
  match l, i with
  | [], _ => []
  | x :: l', O => (x + 1) :: l'
  | x :: l', S i' => x :: list_incr l' i'
  end.

Definition r_2 (n : Z) : Z :=
  let d4 := fold_left (fun d4 d => list_incr d4 (Z.to_nat (d mod 4)))
                      (divisors n) [0; 0; 0; 0] in
  if negb (n =? 0) then 4 * (nth 1 d4 0 - nth 3 d4 0) else 1.

(** ** [find_quadratic_nonresidue] *)

(** The loop [for q in candidates]: the value returned, if any, and what
    is left of the generator. *)
Fixpoint search_candidates (p : Z) (candidates : list Z) : option Z * list Z :=
  match candidates with
  | [] => (None, [])
  | q :: rest =>
      if ((p mod q) ^ ((q - 1) / 2)) mod q =? q - 1 then (Some q, rest)
      else search_candidates p rest
  end.

(** [candidates = None] is Python's [None]; the second component is the
    state of the caller's generator after the call. *)
Definition find_quadratic_nonresidue (p : Z) (candidates : option (list Z))
  : option Z * option (list Z) :=
  if p mod 8 =? 5 then (Some 2, candidates)
  else if p mod 3 =? 2 then (Some 3, candidates)
  else if p mod 8 =? 1 then
    match candidates with
    | None =>
        (fst (search_candidates p (primerange 5 (BSqrtPlus1 p))), None)
    | Some cs =>
        let (r, rest) := search_candidates p cs in (r, Some rest)
    end
  else (None, candidates).

(** ** [rep_prod] *)

Definition sorted2 (x y : Z) : Z * Z := if x <=? y then (x, y) else (y, x).

Definition pair_eqb (u v : Z * Z) : bool :=
  (fst u =? fst v) && (snd u =? snd v).

Definition rep_prod (a b c d : Z) : list (Z * Z) :=
  let s0 := sorted2 (Z.abs (a * c + b * d)) (Z.abs (a * d - b * c)) in
  let s1 := sorted2 (Z.abs (a * c - b * d)) (Z.abs (a * d + b * c)) in
  if negb (pair_eqb s0 s1) then [s0; s1] else [s0].

(** ** [rep_prime_power] *)

(** One round of the outer loop.  The assignment [rep_p = new_rep] sits
    inside the inner loop, whose iterator keeps the list it started on;
    the round yields the concatenation of the products (and leaves an
    empty [rep_p] empty). *)
Definition rep_prime_power_round (r0 : Z * Z) (rep_p : list (Z * Z))
  : list (Z * Z) :=
  flat_map (fun r => rep_prod (fst r) (snd r) (fst r0) (snd r0)) rep_p.

Definition rep_prime_power (representation_of_p : Z * Z) (n : Z)
  : list (Z * Z) :=
  let r0 := representation_of_p in
  Nat.iter (Z.to_nat (n - 1)) (rep_prime_power_round r0) [r0].

(** ** [sum_of_two_squares] *)

Definition dict := list (Z * (Z * Z)).

Fixpoint dict_get (d : dict) (k : Z) : option (Z * Z) :=
  match d with
  | [] => None
  | (k', v) :: d' => if k' =? k then Some v else dict_get d' k
  end.

Fixpoint dict_set (d : dict) (k : Z) (v : Z * Z) : dict :=
  match d with
  | [] => [(k, v)]
  | (k', v') :: d' =>
      if k' =? k then (k, v) :: d' else (k', v') :: dict_set d' k v
  end.

(** The loop [while a >= sqrt(p): a, b = b, a % b]. *)
Fixpoint descent_loop (fuel : nat) (p a b : Z) : result (Z * Z) :=
  if ge_sqrt a p then
    match fuel with
    | O => Raise Diverges
    | S f => if b =? 0 then Raise ZeroDivisionError
             else descent_loop f p b (a mod b)
    end
  else Ok (a, b).

(** The remainders decrease, so [|b| + 1] rounds are enough
    ([descent_loop_never_diverges] below). *)
Definition descent (p a b : Z) : result (Z * Z) :=
  descent_loop (S (Z.abs_nat b)) p a b.

(** Body of the first loop, for the prime [p] with exponent [e = fac[p]];
    the state is the generator [candidates] and the table [prime_reps]. *)
Definition prime_reps_step (shared : bool) (p e : Z) (st : list Z * dict)
  : flow (list Z * dict) (Z * list (Z * Z)) :=
  let (candidates, prime_reps) := st in
  if p mod 4 =? 3 then
    if negb (Z.land e 1 =? 0) then Return (0, [])
    else Continue (candidates, dict_set prime_reps p (0, p ^ (e / 2)))
  else if p mod 4 =? 1 then
    let (g, cs) :=
      if shared then find_quadratic_nonresidue p (Some candidates)
      else (fst (find_quadratic_nonresidue p None), Some candidates) in
    match g, cs with
    | Some g, Some rest =>
        let x := (g ^ ((p - 1) / 4)) mod p in
        match descent p p x with
        | Ok ab => Continue (rest, dict_set prime_reps p ab)
        | Raise err => Throw err
        end
    | _, _ => Throw TypeError
    end
  else Continue st.

Fixpoint prime_reps_loop (shared : bool) (fac : list (Z * Z))
  (st : list Z * dict) : flow (list Z * dict) (Z * list (Z * Z)) :=
  match fac with
  | [] => Continue st
  | (p, e) :: fac' =>
      match prime_reps_step shared p e st with
      | Continue st' => prime_reps_loop shared fac' st'
      | other => other
      end
  end.

(** Body of the second loop. *)
Definition reps_step (prime_reps : dict) (p e : Z) (reps : list (Z * Z))
  : result (list (Z * Z)) :=
  if p mod 4 =? 3 then
    match dict_get prime_reps p with
    | Some r0 =>
        Ok (flat_map (fun r => rep_prod (fst r) (snd r) (fst r0) (snd r0)) reps)
    | None => Raise KeyError
    end
  else if (p =? 2) || (p mod 4 =? 1) then
    match dict_get prime_reps p with
    | Some r0 =>
        let reps_p := rep_prime_power r0 e in
        Ok (flat_map (fun r1 =>
              flat_map (fun r2 => rep_prod (fst r1) (snd r1) (fst r2) (snd r2))
                       reps_p) reps)
    | None => Raise KeyError
    end
  else Ok reps.

Fixpoint reps_loop (prime_reps : dict) (fac : list (Z * Z))
  (reps : list (Z * Z)) : result (list (Z * Z)) :=
  match fac with
  | [] => Ok reps
  | (p, e) :: fac' =>
      match reps_step prime_reps p e reps with
      | Ok reps' => reps_loop prime_reps fac' reps'
      | Raise err => Raise err
      end
  end.

(** [sorted(list(set(reps)))]: lexicographic order on pairs. *)
Definition pair_ltb (u v : Z * Z) : bool :=
  (fst u <? fst v) || ((fst u =? fst v) && (snd u <? snd v)).

Fixpoint insert_set (u : Z * Z) (l : list (Z * Z)) : list (Z * Z) :=
  match l with
  | [] => [u]
  | v :: l' =>
      if pair_ltb u v then u :: l
      else if pair_eqb u v then l
      else v :: insert_set u l'
  end.

Definition sorted_set (l : list (Z * Z)) : list (Z * Z) :=
  fold_right insert_set [] l.

(** [prod(...)] *)
Definition prod (l : list Z) : Z := fold_left Z.mul l 1.

(** [max([...])] of the bounds; the list is not empty when [n >= 2]. *)
Definition max_bound (l : list bound) : bound := fold_right bound_max BZero l.

(** [primerange(5, max([sqrt(x) + 1 if x % 8 == 1 else 0 for x in fac]))] *)
Definition shared_candidates (fac : list (Z * Z)) : list Z :=
  primerange 5
    (max_bound (map (fun pe => if fst pe mod 8 =? 1
                               then BSqrtPlus1 (fst pe) else BZero) fac)).

(** [4 * prod(fac[p] + 1 if p % 4 == 1 else 1 for p in fac)] *)
Definition count_formula (fac : list (Z * Z)) : Z :=
  4 * prod (map (fun pe => if fst pe mod 4 =? 1 then snd pe + 1 else 1) fac).

(** The function, with [shared = true] as in the source.  With
    [shared = false] every search draws from a fresh [primerange] of its
    own ([find_quadratic_nonresidue(p, None)]). *)
Definition sum_of_two_squares_with (shared : bool) (n : Z)
  : result (Z * list (Z * Z)) :=
  if n <? 0 then Raise ValueError
  else if n =? 0 then Ok (1, [(0, 0)])
  else if n =? 1 then Ok (4, [(0, 1)])
  else
    let fac := factorint n in
    let r_2 := count_formula fac in
    let candidates := shared_candidates fac in
    match prime_reps_loop shared fac (candidates, [(2, (1, 1))]) with
    | Return r => Ok r
    | Throw err => Raise err
    | Continue (_, prime_reps) =>
        match reps_loop prime_reps fac [(0, 1)] with
        | Ok reps => Ok (r_2, sorted_set reps)
        | Raise err => Raise err
        end
    end.

Definition sum_of_two_squares (n : Z) : result (Z * list (Z * Z)) :=
  sum_of_two_squares_with true n.

Definition sum_of_two_squares_fresh (n : Z) : result (Z * list (Z * Z)) :=
  sum_of_two_squares_with false n.


(** ** Notions used by the specifications *)

Definition Zprod (l : list Z) : Z := fold_right Z.mul 1 l.

Definition Zsum (f : Z -> Z) (l : list Z) : Z :=
  fold_right (fun d acc => f d + acc) 0 l.

(** The character modulo 4: 1 on [1 mod 4], -1 on [3 mod 4], 0 on the
    even numbers. *)
Definition chi4 (d : Z) : Z :=
  if d mod 4 =? 1 then 1 else if d mod 4 =? 3 then -1 else 0.

Definition multiple_of (p d : Z) : bool := d mod p =? 0.

(** The number of elements of [l] congruent to [r] modulo 4, and the
    numbers [d1(n)], [d3(n)] of divisors of [n] congruent to 1 and 3. *)
Definition count_mod4 (r : Z) (l : list Z) : Z :=
  Z.of_nat (length (filter (fun d => d mod 4 =? r) l)).

Definition d1 (n : Z) : Z := count_mod4 1 (divisors n).
Definition d3 (n : Z) : Z := count_mod4 3 (divisors n).

(** [d1(n) - d3(n)], as a sum over the divisors. *)
Definition divisor_sum (n : Z) : Z := Zsum chi4 (divisors n).

(** The integer points [(x, y)] of the circle [x^2 + y^2 = n]: they lie in
    the square of side [2 * isqrt(n) + 1] around the origin. *)
Definition on_circle (n : Z) (xy : Z * Z) : bool :=
  fst xy * fst xy + snd xy * snd xy =? n.

Definition circle_points (n : Z) : list (Z * Z) :=
  let side := Zseq (- Z.sqrt n) (Z.to_nat (2 * Z.sqrt n + 1)) in
  filter (on_circle n) (list_prod side side).

(** Multiplication of [u + v i] by [a + c i], and the test that
    [(a + c i)(x + y i)] is a multiple of [p]. *)
Definition gauss_mul (a c : Z) (w : Z * Z) : Z * Z :=
  (a * fst w - c * snd w, a * snd w + c * fst w).

Definition gauss_divides (p a c : Z) (z : Z * Z) : bool :=
  multiple_of p (a * fst z - c * snd z)
  && multiple_of p (a * snd z + c * fst z).

(** The classical counting function: the number of ordered pairs of
    integers [(x, y)] with [x^2 + y^2 = n]. *)
Definition two_squares_count (n : Z) : Z := Z.of_nat (length (circle_points n)).

(** [c] is a square modulo [p]. *)
Definition is_qr (p c : Z) : Prop := exists y, (y * y) mod p = c mod p.

(** The units [1 .. p-1]. *)
Definition units (p : Z) : list Z := Zseq 1 (Z.to_nat (p - 1)).

(** [x] and [y] multiply to [c] modulo [p]; [x] is paired with itself. *)
Definition partner (p c x y : Z) : Prop := (x * y) mod p = c mod p.
Definition selfb (p c x : Z) : bool := (x * x) mod p =? c mod p.

(** The numbers [1 .. (p-1)/2], and for Gauss's lemma: the residue of
    [a * j] is large when it exceeds [(p-1)/2]; [gauss_fold] brings it
    back to [1 .. (p-1)/2] by a change of sign; [gauss_mu] counts the
    large residues. *)
Definition half_units (p : Z) : list Z := Zseq 1 (Z.to_nat ((p - 1) / 2)).

Definition gauss_large (p a j : Z) : bool := (p - 1) / 2 <? (a * j) mod p.

Definition gauss_fold (p a j : Z) : Z :=
  if gauss_large p a j then p - (a * j) mod p else (a * j) mod p.

Definition gauss_mu (p a : Z) : Z :=
  Z.of_nat (length (filter (gauss_large p a) (half_units p))).

(** The number of elements of a list that pass a test, and the sum of the
    floors [q * j / p] over [j = 1 .. (p-1)/2]. *)
Definition Zcount (f : Z -> bool) (l : list Z) : Z :=
  Z.of_nat (length (filter f l)).

Definition floor_sum (p q : Z) : Z :=
  Zsum (fun j => q * j / p) (half_units p).

(** The test of [find_quadratic_nonresidue] on the candidate [q]. *)
Definition euler_test (p q : Z) : bool :=
  ((p mod q) ^ ((q - 1) / 2)) mod q =? q - 1.

(** [g] is the least positive non-residue modulo [p]. *)
Definition least_qnr (p g : Z) : Prop :=
  0 < g /\ ~ is_qr p g /\ forall h, 0 < h < g -> is_qr p h.

(** The number that a factorization stands for, and the contract of
    [factorint]: primes in increasing order from [d] on, with positive
    exponents. *)
Definition factors_prod (fac : list (Z * Z)) : Z :=
  fold_right (fun pe acc => fst pe ^ snd pe * acc) 1 fac.

Fixpoint factors_from (d : Z) (fac : list (Z * Z)) : Prop :=
  match fac with
  | [] => True
  | pe :: rest =>
      d <= fst pe /\ Z.prime (fst pe) /\ 0 < snd pe /\
      factors_from (fst pe + 1) rest
  end.

(** [1 + c + ... + c^k] *)
Fixpoint geom (c : Z) (k : nat) : Z :=
  match k with
  | O => 1
  | S k' => 1 + c * geom c k'
  end.

(** The divisor sum of a factorization, one geometric sum per prime. *)
Definition geom_prod (fac : list (Z * Z)) : Z :=
  fold_right (fun pe acc => geom (chi4 (fst pe)) (Z.to_nat (snd pe)) * acc)
             1 fac.

(** The test of the first loop of [sum_of_two_squares]: some prime
    [p % 4 == 3] has an exponent with [fac[p] & 1 != 0]. *)
Definition infeasible (fac : list (Z * Z)) : bool :=
  existsb (fun pe => (fst pe mod 4 =? 3) && negb (Z.land (snd pe) 1 =? 0)) fac.

(** Pairs as Gaussian integers: the norm, the canonical pair
    [sorted(|x|, |y|)] that [rep_prod] builds, the canonical
    representations of [n], and lists that hold every representation of [n]
    up to signs and order. *)
Definition norm (w : Z * Z) : Z := fst w * fst w + snd w * snd w.

Definition canon (w : Z * Z) : Z * Z :=
  sorted2 (Z.abs (fst w)) (Z.abs (snd w)).

Definition is_rep (n : Z) (r : Z * Z) : Prop :=
  0 <= fst r <= snd r /\ norm r = n.

Definition complete_reps (n : Z) (l : list (Z * Z)) : Prop :=
  forall r, In r l <-> is_rep n r.

Definition covers (n : Z) (l : list (Z * Z)) : Prop :=
  (forall r, In r l -> norm r = n) /\
  (forall v, norm v = n -> exists r, In r l /\ canon r = canon v).

(** Every point of norm [M * P] is a product of points of norms [M] and
    [P]. *)
Definition splits (M P : Z) : Prop :=
  forall z, norm z = M * P ->
  exists u v, z = gauss_mul (fst u) (snd u) v /\ norm u = M /\ norm v = P.

(** What the second loop of [sum_of_two_squares] needs of the table
    [prime_reps] at the entry [(p, e)] of the factorization. *)
Definition dict_ok (prime_reps : dict) (pe : Z * Z) : Prop :=
  (fst pe mod 4 = 3 ->
     dict_get prime_reps (fst pe) = Some (0, fst pe ^ (snd pe / 2))) /\
  (fst pe mod 4 = 1 ->
     exists a b, dict_get prime_reps (fst pe) = Some (a, b) /\
                 a * a + b * b = fst pe /\ 0 < b < a) /\
  (fst pe = 2 -> dict_get prime_reps (fst pe) = Some (1, 1)).

(** What [primerange(5, ...)] yields. *)
Definition prime_ge_5 (q : Z) : Prop := Z.prime q /\ 5 <= q.

(** The primes [p = 1 mod 4] for which [find_quadratic_nonresidue] draws
    from [candidates]. *)
Definition needs_search (p : Z) : bool :=
  (p mod 4 =? 1) && negb (p mod 8 =? 5) && negb (p mod 3 =? 2).

Definition searches (fac : list (Z * Z)) : nat :=
  length (filter needs_search (map fst fac)).


(** The strict lexicographic order of the returned list. *)
Definition pair_lt (u v : Z * Z) : Prop := pair_ltb u v = true.

(** The divisors the loop of [descent_loop] takes a remainder by. *)
Fixpoint descent_divisors (fuel : nat) (p a b : Z) : list Z :=
  if ge_sqrt a p then
    match fuel with
    | O => []
    | S f => b :: (if b =? 0 then [] else descent_divisors f p b (a mod b))
    end
  else [].

(** The invariant of the descent from [(p, x)]: [(a, b)] are two
    consecutive remainders and [(s, t)] the matching cofactors. *)
Definition descent_inv (p x a b s t : Z) : Prop :=
  0 <= b < a /\ 0 <= s <= t /\ 0 < t /\ t * a + s * b = p /\
  Z.gcd a b = 1 /\
  exists e, (e = 1 \/ e = -1) /\ (p | a - e * s * x) /\ (p | b + e * t * x).

(** The table [prime_reps] that [sum_of_two_squares(n)] holds after its
    first loop, and the pair it stores for [p]. *)
Definition prime_reps_of (n : Z) : option dict :=
  let fac := factorint n in
  match prime_reps_loop true fac (shared_candidates fac, [(2, (1, 1))]) with
  | Continue (_, prime_reps) => Some prime_reps
  | _ => None
  end.

Definition stored_rep (n p : Z) : option (Z * Z) :=
  match prime_reps_of n with
  | Some prime_reps => dict_get prime_reps p
  | None => None
  end.

(** A decision procedure for [is_qr], by trying the residues. *)
Definition is_qrb (p c : Z) : bool :=
  existsb (fun y => (y * y) mod p =? c mod p) (Zseq 0 (Z.to_nat p)).

(** ** [print_representations] *)

Local Infix "++" := String.append : string_scope.

(** [format(n, ",")], the [{n:,}] of the f-strings: the decimal digits of
    [|n|] in groups of three from the right, after the sign. *)
Fixpoint group3 (rev_digits : list Ascii.ascii) : list Ascii.ascii :=
  match rev_digits with
  | a :: b :: c :: ((_ :: _) as rest) =>
      a :: b :: c :: ","%char :: group3 rest
  | _ => rev_digits
  end.

Definition digits (m : Z) : list Ascii.ascii :=
  String.list_ascii_of_string
    (DecimalString.NilZero.string_of_uint (N.to_uint (Z.to_N m))).

Definition fmt_comma (n : Z) : String.string :=
  let body :=
    String.string_of_list_ascii (rev (group3 (rev (digits (Z.abs n))))) in
  if n <? 0 then String.String "-"%char body else body.

(** [int(s.replace(",", ""))], to read a formatted number back. *)
Definition not_comma (c : Ascii.ascii) : bool := negb (Ascii.eqb c ","%char).

Definition strip_commas (s : String.string) : String.string :=
  String.string_of_list_ascii
    (filter not_comma (String.list_ascii_of_string s)).

Definition parse_comma (s : String.string) : option Z :=
  option_map Z.of_int (DecimalString.NilZero.int_of_string (strip_commas s)).

(** A row of the table: [m_1], [m_2], the two formatted sums, and
    [8 / pow(2, (r[0] == r[1]) + (r[0] == 0) + (r[1] == 0))], a true
    division, kept as a rational ([True] counts as 1). *)
Record row : Type := {
  m_1 : Z;
  m_2 : Z;
  sums_of_two_squares : String.string;
  multiplied_out : String.string;
  count : QArith_base.Q
}.

Definition bool_to_Z (b : bool) : Z := if b then 1 else 0.

Definition coincidences (r : Z * Z) : Z :=
  bool_to_Z (fst r =? snd r) + bool_to_Z (fst r =? 0) + bool_to_Z (snd r =? 0).

Definition row_of (r : Z * Z) : row :=
  {| m_1 := fst r;
     m_2 := snd r;
     sums_of_two_squares :=
       (fmt_comma (fst r) ++ "^2 + " ++ fmt_comma (snd r) ++ "^2")%string;
     multiplied_out :=
       (fmt_comma (fst r ^ 2) ++ " + " ++ fmt_comma (snd r ^ 2))%string;
     count :=
       QArith_base.Qdiv (QArith_base.inject_Z 8)
                        (QArith_base.inject_Z (2 ^ coincidences r)) |}.

(** The arguments of the call of [tabulate]. *)
Record table : Type := {
  rows : list row;
  headers : list String.string;
  showindex : list Z;
  tablefmt : String.string;
  intfmt : String.string
}.

Definition table_of (res1 : list (Z * Z)) : table :=
  {| rows := map row_of res1;
     headers := ["m_1"; "m_2"; "Sums of two squares"; "Multiplied out";
                 "Count"]%string;
     showindex := Zseq 1 (length res1);
     tablefmt := "simple"%string;
     intfmt := ","%string |}.

(** What a call does: it prints a text, or it raises an exception of
    [sum_of_two_squares], or it raises [NameError] for the name
    [tabulate]. *)
Inductive printed : Type :=
| Printed (text : String.string)
| Raises (e : exn)
| RaisesNameError.

Definition newline : String.string :=
  String.String (Ascii.ascii_of_nat 10) String.EmptyString.

(** [print(a, b, ..., sep="\n")] *)
Definition print_lines (l : list String.string) : String.string :=
  fold_right (fun s acc => (s ++ newline ++ acc)%string) String.EmptyString l.

Definition input_line (n : Z) : String.string :=
  ("Input: n = " ++ fmt_comma n ++ ".")%string.

(** [tabulate] is bound by the import in the [__main__] block only:
    [Some] of the library function when the file runs as a script, [None]
    when the module is imported. *)
Definition print_representations (tabulate : option (table -> String.string))
  (n : Z) : printed :=
  match sum_of_two_squares n with
  | Raise err => Raises err
  | Ok res =>
      if fst res =? 0 then
        Printed (print_lines
                   [input_line n;
                    "No representations exist, r_2(n) = 0."%string])
      else
        match tabulate with
        | None => RaisesNameError
        | Some tabulate =>
            Printed (print_lines
                       [input_line n;
                        ("r_2(n) = " ++ fmt_comma (fst res)
                         ++ ". The representations are:")%string;
                        tabulate (table_of (snd res))])
        end
  end.

(** The sum of the column [Count]. *)
Definition count_total (t : list row) : QArith_base.Q :=
  fold_right (fun r acc => QArith_base.Qplus (count r) acc)
             (QArith_base.inject_Z 0) t.

(** The points with the canonical pair [r], and sums over pairs. *)
Definition same_class (r z : Z * Z) : bool := pair_eqb (canon z) r.

Definition weight (r : Z * Z) : Z := 8 / 2 ^ coincidences r.

Definition pair_sum (f : Z * Z -> Z) (l : list (Z * Z)) : Z :=
  fold_right (fun r acc => f r + acc) 0 l.

(** ** Running the model on the inputs the specification lists *)

Example run_0 : sum_of_two_squares 0 = Ok (1, [(0, 0)]).
Proof. reflexivity. Qed.

Example run_1 : sum_of_two_squares 1 = Ok (4, [(0, 1)]).
Proof. reflexivity. Qed.

Example run_25 : sum_of_two_squares 25 = Ok (12, [(0, 5); (3, 4)]).
Proof. vm_compute. reflexivity. Qed.

Example run_3 : sum_of_two_squares 3 = Ok (0, []).
Proof. vm_compute. reflexivity. Qed.

Example run_9 : sum_of_two_squares 9 = Ok (4, [(0, 3)]).
Proof. vm_compute. reflexivity. Qed.

Example run_50 : sum_of_two_squares 50 = Ok (12, [(1, 7); (5, 5)]).
Proof. vm_compute. reflexivity. Qed.

Example run_negative : sum_of_two_squares (-7) = Raise ValueError.
Proof. reflexivity. Qed.

Example run_r_2_25 : r_2 25 = 12.
Proof. vm_compute. reflexivity. Qed.

(** ** The composition step [rep_prod] *)

Section RepProd.

Variables a b c d : Z.

Lemma sorted2_min_max (x y : Z) : sorted2 x y = (Z.min x y, Z.max x y).
Proof.
  unfold sorted2. destruct (Z.leb_spec x y); f_equal; lia.
Qed.

Lemma pair_eqb_eq (u v : Z * Z) : pair_eqb u v = true <-> u = v.
Proof.
  destruct u as [u1 u2], v as [v1 v2]. unfold pair_eqb. simpl.
  rewrite andb_true_iff, !Z.eqb_eq. split.
  - intros [-> ->]. reflexivity.
  - intros H. inversion H. auto.
Qed.

Lemma sorted2_norm (u v : Z) :
  let s := sorted2 (Z.abs u) (Z.abs v) in
  fst s <= snd s /\ 0 <= fst s /\ fst s * fst s + snd s * snd s = u * u + v * v.
Proof.
  simpl. rewrite sorted2_min_max. simpl.
  pose proof (Z.abs_square u). pose proof (Z.abs_square v).
  pose proof (Z.abs_nonneg u). pose proof (Z.abs_nonneg v).
  destruct (Z.le_ge_cases (Z.abs u) (Z.abs v)).
  - rewrite Z.min_l, Z.max_r by assumption. lia.
  - rewrite Z.min_r, Z.max_l by assumption. lia.
Qed.

(** C5: every pair of [rep_prod a b c d] is ordered and represents the
    product [(a^2+b^2)(c^2+d^2)]; the result is the two sorted pairs
    [sorted(|ac+bd|, |ad-bc|)] and [sorted(|ac-bd|, |ad+bc|)] when they
    differ and the first alone when they coincide. *)
Theorem rep_prod_correct :
  let s0 := (Z.min (Z.abs (a * c + b * d)) (Z.abs (a * d - b * c)),
             Z.max (Z.abs (a * c + b * d)) (Z.abs (a * d - b * c))) in
  let s1 := (Z.min (Z.abs (a * c - b * d)) (Z.abs (a * d + b * c)),
             Z.max (Z.abs (a * c - b * d)) (Z.abs (a * d + b * c))) in
  (forall x y, In (x, y) (rep_prod a b c d) ->
     x <= y /\ x * x + y * y = (a * a + b * b) * (c * c + d * d)) /\
  (s0 <> s1 -> rep_prod a b c d = [s0; s1]) /\
  (s0 = s1 -> rep_prod a b c d = [s0]).
Proof.
  intros s0 s1.
  assert (E0 : sorted2 (Z.abs (a * c + b * d)) (Z.abs (a * d - b * c)) = s0)
    by apply sorted2_min_max.
  assert (E1 : sorted2 (Z.abs (a * c - b * d)) (Z.abs (a * d + b * c)) = s1)
    by apply sorted2_min_max.
  assert (N0 := sorted2_norm (a * c + b * d) (a * d - b * c)).
  assert (N1 := sorted2_norm (a * c - b * d) (a * d + b * c)).
  simpl in N0, N1. rewrite E0 in N0. rewrite E1 in N1.
  unfold rep_prod. rewrite E0, E1.
  destruct (pair_eqb s0 s1) eqn:E; simpl.
  - apply pair_eqb_eq in E. split; [|split].
    + intros x y [H | []]. rewrite H in N0. simpl in N0. split; [lia|].
      destruct N0 as (_ & _ & ->). ring.
    + intros H. contradiction.
    + reflexivity.
  - assert (s0 <> s1) by (intros H; apply pair_eqb_eq in H; congruence).
    split; [|split].
    + intros x y [H0 | [H0 | []]].
      * rewrite H0 in N0. simpl in N0. split; [lia|].
        destruct N0 as (_ & _ & ->). ring.
      * rewrite H0 in N1. simpl in N1. split; [lia|].
        destruct N1 as (_ & _ & ->). ring.
    + reflexivity.
    + intros H0. contradiction.
Qed.

End RepProd.

(** ** Elementary number theory: products modulo a prime *)

Lemma Zprod_app (l1 l2 : list Z) :
  Zprod (l1 ++ l2) = Zprod l1 * Zprod l2.
Proof.
  induction l1 as [|x l1 IH]; simpl.
  - destruct (Zprod l2); reflexivity.
  - rewrite IH. ring.
Qed.

Lemma In_Zseq (k : nat) : forall lo x,
  In x (Zseq lo k) <-> lo <= x < lo + Z.of_nat k.
Proof.
  induction k as [|k IH]; intros lo x; simpl.
  - lia.
  - rewrite IH. lia.
Qed.

Lemma NoDup_Zseq (k : nat) : forall lo, NoDup (Zseq lo k).
Proof.
  induction k as [|k IH]; intros lo; simpl; constructor.
  - rewrite In_Zseq. lia.
  - apply IH.
Qed.

Lemma length_Zseq (k : nat) : forall lo, length (Zseq lo k) = k.
Proof.
  induction k as [|k IH]; intros lo; simpl; [reflexivity|].
  now rewrite IH.
Qed.

Lemma Zseq_app (k1 k2 : nat) : forall lo,
  Zseq lo (k1 + k2) = Zseq lo k1 ++ Zseq (lo + Z.of_nat k1) k2.
Proof.
  induction k1 as [|k1 IH]; intros lo.
  - simpl. f_equal. lia.
  - cbn [Nat.add Zseq app]. rewrite IH. do 3 f_equal. lia.
Qed.

(** Congruence as divisibility of the difference. *)
Lemma mod_eq_divide (p a b : Z) :
  p <> 0 -> (a mod p = b mod p <-> (p | a - b)).
Proof.
  intros Hp. split; intros H.
  - apply Z.mod_divide; [assumption|].
    rewrite Zminus_mod, H, Z.sub_diag. apply Zmod_0_l.
  - destruct H as [k Hk].
    replace a with (b + k * p) by lia. apply Z_mod_plus_full.
Qed.

Lemma div2_eq (a k : Z) : a = 2 * k -> a / 2 = k.
Proof. intros ->. rewrite Z.mul_comm. apply Z.div_mul. lia. Qed.

Section Prime.

Variable p : Z.
Hypothesis p_prime : Z.prime p.

Let p_ge_2 : 2 <= p := Z.prime_ge_2 p p_prime.

Lemma prime_divide_mul (a b : Z) : (p | a * b) -> (p | a) \/ (p | b).
Proof. apply Z.divide_prime_mul. exact p_prime. Qed.

Lemma not_divide_unit (x : Z) : 0 < x < p -> ~ (p | x).
Proof.
  intros Hx H. apply Z.divide_pos_le in H; lia.
Qed.

(** Division modulo [p]: solving [x * y = c]. *)
Lemma mod_solve (x c : Z) :
  ~ (p | x) -> exists y, 0 <= y < p /\ (x * y) mod p = c mod p.
Proof.
  intros Hx.
  assert (Hinv : (Z.invmod x p * x) mod p = 1).
  { apply Z.invmod_prime; [assumption|].
    intros H. apply Hx. apply Z.mod_divide; [lia|assumption]. }
  exists ((Z.invmod x p * c) mod p). split; [apply Z.mod_pos_bound; lia|].
  rewrite Z.mul_mod_idemp_r, Z.mul_assoc, (Z.mul_comm x) by lia.
  rewrite <- Z.mul_mod_idemp_l, Hinv by lia. f_equal. ring.
Qed.

Lemma mod_cancel (x y y' : Z) :
  ~ (p | x) -> (x * y) mod p = (x * y') mod p -> y mod p = y' mod p.
Proof.
  intros Hx H. apply mod_eq_divide in H; [|lia].
  apply mod_eq_divide; [lia|].
  replace (x * y - x * y') with (x * (y - y')) in H by ring.
  destruct (prime_divide_mul _ _ H); [contradiction|assumption].
Qed.

Lemma mod_small_eq (y y' : Z) :
  0 <= y < p -> 0 <= y' < p -> y mod p = y' mod p -> y = y'.
Proof.
  intros H1 H2. rewrite !Z.mod_small by assumption. auto.
Qed.

(** *** Pairing the elements of a list whose products are [c] *)

Section Pairing.

Variable c : Z.

Local Abbreviation partner := (partner p c).
Local Abbreviation selfb := (selfb p c).

Lemma partner_sym (x y : Z) : partner x y -> partner y x.
Proof. unfold partner. now rewrite Z.mul_comm. Qed.

Lemma pairing_prod (n : nat) : forall l,
  (length l <= n)%nat -> NoDup l ->
  (forall x, In x l -> exists y, In y l /\ partner x y) ->
  (forall x y y', In x l -> In y l -> In y' l ->
     partner x y -> partner x y' -> y = y') ->
  exists k, 0 <= k /\
    Z.of_nat (length l) = 2 * k + Z.of_nat (length (filter selfb l)) /\
    (Zprod l) mod p = (c ^ k * Zprod (filter selfb l)) mod p.
Proof.
  induction n as [|n IH]; intros l Hlen Hnd Hex Huniq.
  { destruct l; [|simpl in Hlen; lia].
    exists 0. simpl. repeat split; lia. }
  destruct l as [|x t].
  { exists 0. simpl. repeat split; lia. }
  simpl in Hlen. inversion Hnd as [|? ? Hxt Hndt]; subst.
  destruct (selfb x) eqn:Hself.
  - (* x is its own partner *)
    assert (Hxx : partner x x) by (apply Z.eqb_eq; exact Hself).
    destruct (IH t) as (k & Hk & Hlenk & Hprod); [lia|assumption| |  |].
    + intros z Hz. destruct (Hex z (or_intror Hz)) as (z' & [Hz' | Hz'] & Hp).
      * subst z'. exfalso. apply Hxt.
        rewrite (Huniq x x z); auto using in_eq, in_cons, partner_sym.
      * exists z'. auto.
    + intros a b b' Ha Hb Hb'. apply Huniq; auto using in_cons.
    + exists k. cbn [filter]. rewrite Hself. cbn [length].
      split; [assumption|]. split; [lia|].
      cbn [Zprod fold_right]. fold (Zprod t).
      fold (Zprod (filter selfb t)).
      rewrite <- Z.mul_mod_idemp_r, Hprod, Z.mul_mod_idemp_r by lia.
      f_equal. ring.
  - (* x has a partner y in the tail *)
    destruct (Hex x (in_eq _ _)) as (y & [Hy | Hy] & Hxy).
    { subst y. unfold selfb in Hself. apply Z.eqb_neq in Hself. contradiction. }
    destruct (in_split _ _ Hy) as (t1 & t2 & ->).
    assert (Hselfy : selfb y = false).
    { destruct (selfb y) eqn:E; [|reflexivity]. exfalso.
      apply Z.eqb_eq in E. apply Hxt.
      rewrite (Huniq y x y); auto using in_eq, in_cons, partner_sym. }
    pose proof (NoDup_remove_1 _ _ _ Hndt) as Hnd'.
    pose proof (NoDup_remove_2 _ _ _ Hndt) as Hy'.
    rewrite length_app in Hlen. simpl in Hlen.
    destruct (IH (t1 ++ t2)) as (k & Hk & Hlenk & Hprod);
      [rewrite length_app; lia|assumption| | |].
    + intros z Hz.
      assert (Hzt : In z (t1 ++ y :: t2)).
      { apply in_app_or in Hz. apply in_or_app. simpl. tauto. }
      destruct (Hex z (or_intror Hzt)) as (z' & Hz' & Hp).
      exists z'. split; [|assumption].
      destruct Hz' as [Hz' | Hz'].
      * subst z'. exfalso. apply Hy'.
        rewrite (Huniq x y z); auto using in_eq, in_cons, partner_sym.
      * apply in_app_or in Hz'. apply in_or_app.
        destruct Hz' as [Hz' | [Hz' | Hz']]; auto.
        subst z'. exfalso. apply Hxt.
        rewrite (Huniq y x z); auto using in_eq, in_cons, partner_sym.
    + intros a b b' Ha Hb Hb'.
      apply Huniq; right; apply in_or_app;
        match goal with H : In _ (t1 ++ t2) |- _ =>
          apply in_app_or in H; simpl; tauto end.
    + exists (k + 1). split; [lia|].
      cbn [filter]. rewrite Hself.
      rewrite filter_app. cbn [filter]. rewrite Hselfy, <- filter_app.
      split.
      * cbn [length]. rewrite length_app in *. cbn [length]. lia.
      * cbn [Zprod fold_right]. fold (Zprod (t1 ++ y :: t2)).
        rewrite Zprod_app. cbn [Zprod fold_right]. fold (Zprod t2).
        replace (x * (Zprod t1 * (y * Zprod t2)))
          with ((x * y) * Zprod (t1 ++ t2))
          by (rewrite Zprod_app; ring).
        rewrite Z.pow_add_r, Z.pow_1_r by lia.
        rewrite Zmult_mod, Hxy, Hprod, <- Zmult_mod.
        f_equal. ring.
Qed.

End Pairing.

Local Abbreviation partner := (partner p).
Local Abbreviation selfb := (selfb p).
Local Abbreviation units := (units p).
Local Abbreviation is_qr := (is_qr p).

Lemma In_units (x : Z) : In x units <-> 0 < x < p.
Proof. unfold units. rewrite In_Zseq. lia. Qed.

Lemma units_partner (c : Z) :
  ~ (p | c) -> forall x, In x units -> exists y, In y units /\ partner c x y.
Proof.
  intros Hc x Hx. apply In_units in Hx.
  destruct (mod_solve x c (not_divide_unit x Hx)) as (y & Hy & Hxy).
  exists y. split; [|exact Hxy].
  apply In_units. destruct (Z.eq_dec y 0) as [->|]; [|lia].
  exfalso. apply Hc. rewrite Z.mul_0_r, Zmod_0_l in Hxy.
  apply Z.mod_divide; [lia|congruence].
Qed.

Lemma units_partner_unique (c x y y' : Z) :
  In x units -> In y units -> In y' units ->
  partner c x y -> partner c x y' -> y = y'.
Proof.
  rewrite !In_units. unfold partner. intros Hx Hy Hy' H1 H2.
  apply mod_small_eq; try lia.
  apply (mod_cancel x); [apply not_divide_unit; assumption|congruence].
Qed.

Lemma units_pairing (c : Z) :
  ~ (p | c) ->
  exists k, 0 <= k /\
    p - 1 = 2 * k + Z.of_nat (length (filter (selfb c) units)) /\
    (Zprod units) mod p = (c ^ k * Zprod (filter (selfb c) units)) mod p.
Proof.
  intros Hc.
  destruct (pairing_prod c (length units) units) as (k & Hk & Hlen & Hprod).
  - lia.
  - apply NoDup_Zseq.
  - apply units_partner. exact Hc.
  - apply units_partner_unique.
  - exists k. split; [assumption|]. split; [|assumption].
    rewrite <- Hlen. unfold units. rewrite length_Zseq. lia.
Qed.

(** *** Square roots modulo an odd prime *)

Hypothesis p_odd : p mod 2 = 1.

Lemma filter_none (f : Z -> bool) (l : list Z) :
  (forall x, In x l -> f x = false) -> filter f l = [].
Proof.
  induction l as [|x l IH]; intros H; [reflexivity|].
  cbn [filter]. rewrite (H x (in_eq _ _)). apply IH.
  intros z Hz. apply H. now right.
Qed.

Lemma Zprod_perm (l l' : list Z) :
  Permutation l l' -> Zprod l = Zprod l'.
Proof.
  induction 1 as [|x l l' _ IH|x y l|l l' l'' _ IH1 _ IH2].
  - reflexivity.
  - change (x * Zprod l = x * Zprod l'). now rewrite IH.
  - change (y * (x * Zprod l) = x * (y * Zprod l)). ring.
  - congruence.
Qed.

Lemma filter_two (f : Z -> bool) (a b : Z) (l : list Z) :
  NoDup l -> In a l -> In b l -> a <> b ->
  (forall x, In x l -> f x = true -> x = a \/ x = b) ->
  f a = true -> f b = true ->
  length (filter f l) = 2%nat /\ Zprod (filter f l) = a * b.
Proof.
  intros Hnd Ha Hb Hab Hf Hfa Hfb.
  assert (HP : Permutation (filter f l) [a; b]).
  { apply NoDup_Permutation.
    - apply NoDup_filter. exact Hnd.
    - constructor; [simpl; intros [E | []]; congruence|].
      constructor; [simpl; tauto|constructor].
    - intros x. rewrite filter_In. simpl. split.
      + intros [Hx Hfx]. destruct (Hf x Hx Hfx); auto.
      + intros [<- | [<- | []]]; auto. }
  split.
  - apply Permutation_length in HP. exact HP.
  - rewrite (Zprod_perm _ _ HP). cbn. ring.
Qed.

(** The two square roots of [y0 * y0]. *)
Lemma sqrt_mod_two (y0 x : Z) :
  (x * x) mod p = (y0 * y0) mod p ->
  x mod p = y0 mod p \/ x mod p = (- y0) mod p.
Proof.
  intros H. apply mod_eq_divide in H; [|lia].
  replace (x * x - y0 * y0) with ((x - y0) * (x + y0)) in H by ring.
  destruct (prime_divide_mul _ _ H) as [H1 | H1].
  - left. apply mod_eq_divide; [lia|assumption].
  - right. apply mod_eq_divide; [lia|].
    now replace (x - - y0) with (x + y0) by ring.
Qed.

Lemma self_partners (c y0 : Z) :
  0 < y0 < p -> (y0 * y0) mod p = c mod p ->
  length (filter (selfb c) units) = 2%nat /\
  (Zprod (filter (selfb c) units)) mod p = (- c) mod p.
Proof.
  intros Hy0 Hc.
  assert (Hneq : y0 <> p - y0).
  { intros E. assert (p = 2 * y0) by lia. subst p.
    rewrite Z.mul_comm, Z_mod_mult in p_odd. discriminate. }
  destruct (filter_two (selfb c) y0 (p - y0) units) as [Hlen Hprod].
  - apply NoDup_Zseq.
  - apply In_units. lia.
  - apply In_units. lia.
  - exact Hneq.
  - intros x Hx Hfx. apply In_units in Hx. apply Z.eqb_eq in Hfx.
    rewrite <- Hc in Hfx. destruct (sqrt_mod_two y0 x Hfx) as [E | E].
    + left. apply mod_small_eq; [lia|lia|assumption].
    + right. apply mod_small_eq; [lia|lia|].
      rewrite E. apply mod_eq_divide; [lia|]. exists (-1). ring.
  - apply Z.eqb_eq. exact Hc.
  - apply Z.eqb_eq. rewrite <- Hc. apply mod_eq_divide; [lia|].
    exists (p - 2 * y0). ring.
  - split; [exact Hlen|]. rewrite Hprod.
    apply mod_eq_divide; [lia|]. apply mod_eq_divide in Hc; [|lia].
    destruct Hc as [k Hk]. exists (y0 - k). nia.
Qed.

(** Wilson's theorem. *)
Lemma mod_minus_one : (- 1) mod p = p - 1.
Proof.
  replace (- 1) with (p - 1 + (- 1) * p) by ring.
  rewrite Z_mod_plus_full. apply Z.mod_small. lia.
Qed.

Lemma wilson : (Zprod units) mod p = (- 1) mod p.
Proof.
  destruct (units_pairing 1) as (k & Hk & Hlen & Hprod).
  { intros H. apply Z.divide_pos_le in H; lia. }
  destruct (self_partners 1 1) as [_ Hself]; [lia|reflexivity|].
  rewrite Hprod, Z.pow_1_l, Z.mul_1_l by assumption. exact Hself.
Qed.


(** Euler's criterion, for a non-residue. *)
Lemma euler_criterion_qnr (c : Z) :
  ~ is_qr c -> (c ^ ((p - 1) / 2)) mod p = p - 1.
Proof.
  intros Hc.
  assert (Hpc : ~ (p | c)).
  { intros H. apply Hc. exists 0. apply Z.mod0_divide in H.
    rewrite H. reflexivity. }
  destruct (units_pairing c Hpc) as (k & Hk & Hlen & Hprod).
  rewrite filter_none in Hlen, Hprod.
  2,3: intros x _; unfold selfb; apply Z.eqb_neq; intros E; apply Hc;
       exists x; exact E.
  cbn [length Zprod fold_right] in Hlen, Hprod. rewrite Z.mul_1_r, wilson in Hprod.
  replace ((p - 1) / 2) with k.
  2:{ symmetry. apply div2_eq. lia. }
  rewrite <- Hprod. apply mod_minus_one.
Qed.

(** Euler's criterion, for a residue prime to [p]. *)
Lemma euler_criterion_qr (c : Z) :
  is_qr c -> ~ (p | c) -> (c ^ ((p - 1) / 2)) mod p = 1.
Proof.
  intros [y Hy] Hpc.
  assert (Hy0 : 0 < y mod p < p).
  { pose proof (Z.mod_pos_bound y p ltac:(lia)).
    destruct (Z.eq_dec (y mod p) 0) as [E|]; [|lia].
    exfalso. apply Hpc. apply Z.mod_divide; [lia|].
    rewrite <- Hy, Zmult_mod, E. reflexivity. }
  destruct (self_partners c (y mod p) Hy0) as [Hlen2 Hself].
  { rewrite <- Zmult_mod. exact Hy. }
  destruct (units_pairing c Hpc) as (k & Hk & Hlen & Hprod).
  rewrite Hlen2 in Hlen. rewrite wilson in Hprod.
  replace ((p - 1) / 2) with (k + 1).
  2:{ symmetry. apply div2_eq. lia. }
  rewrite <- Z.mul_mod_idemp_r, Hself, Z.mul_mod_idemp_r in Hprod by lia.
  rewrite Z.pow_add_r, Z.pow_1_r by lia.
  apply mod_eq_divide in Hprod; [|lia].
  transitivity (1 mod p); [|apply Z.mod_small; lia].
  apply mod_eq_divide; [lia|].
  destruct Hprod as [j Hj]. exists j. lia.
Qed.

(** Fermat's little theorem, obtained from the two cases. *)
Lemma euler_square_root_of_one (c : Z) :
  ~ (p | c) ->
  (c ^ ((p - 1) / 2)) mod p = 1 \/ (c ^ ((p - 1) / 2)) mod p = p - 1.
Proof.
  intros Hpc.
  destruct (Z.eq_dec ((c ^ ((p - 1) / 2)) mod p) (p - 1)) as [E | E];
    [now right|left].
  apply euler_criterion_qr; [|assumption].
  (* a residue, for otherwise the power would be p - 1 *)
  destruct (units_pairing c Hpc) as (k & Hk & Hlen & Hprod).
  destruct (filter (selfb c) units) as [|y l] eqn:Hf.
  - exfalso. apply E. cbn [length Zprod fold_right] in Hlen, Hprod.
    rewrite Z.mul_1_r, wilson in Hprod.
    replace ((p - 1) / 2) with k.
    2:{ symmetry. apply div2_eq. lia. }
    rewrite <- Hprod. apply mod_minus_one.
  - exists y. assert (Hin : In y (filter (selfb c) units))
      by (rewrite Hf; apply in_eq).
    apply filter_In in Hin. destruct Hin as [_ Hin].
    apply Z.eqb_eq. exact Hin.
Qed.

End Prime.

(** ** The Euclidean descent *)

(** The loop always stops: the second component decreases. *)
Lemma descent_loop_never_diverges (fuel : nat) : forall p a b,
  (Z.abs_nat b < fuel)%nat -> descent_loop fuel p a b <> Raise Diverges.
Proof.
  induction fuel as [|fuel IH]; intros p a b Hfuel; [lia|].
  cbn [descent_loop]. destruct (ge_sqrt a p); [|discriminate].
  destruct (Z.eqb_spec b 0) as [Hb | Hb]; [discriminate|].
  apply IH.
  assert (Z.abs (a mod b) < Z.abs b).
  { destruct (Z_lt_le_dec 0 b) as [Hpos | Hneg].
    - pose proof (Z.mod_pos_bound a b Hpos). lia.
    - pose proof (Z.mod_neg_bound a b ltac:(lia)). lia. }
  lia.
Qed.

Lemma descent_never_diverges (p a b : Z) : descent p a b <> Raise Diverges.
Proof. apply descent_loop_never_diverges. lia. Qed.

Lemma descent_loop_exit (fuel : nat) (p a b : Z) :
  a * a < p -> descent_loop fuel p a b = Ok (a, b).
Proof.
  intros H. destruct fuel; cbn [descent_loop]; unfold ge_sqrt;
    destruct (Z.leb_spec p (a * a)); try lia; reflexivity.
Qed.

Lemma descent_divisors_exit (fuel : nat) (p a b : Z) :
  a * a < p -> descent_divisors fuel p a b = [].
Proof.
  intros H. destruct fuel; cbn [descent_divisors]; unfold ge_sqrt;
    destruct (Z.leb_spec p (a * a)); try lia; reflexivity.
Qed.

Section Descent.

Variables p x : Z.
Hypothesis p_prime : Z.prime p.
Hypothesis p_mod4 : p mod 4 = 1.
Hypothesis x_range : 0 < x < p.
Hypothesis x_square : (p | x * x + 1).

Local Abbreviation Inv := (descent_inv p x).

Let p_ge_2 : 2 <= p := Z.prime_ge_2 p p_prime.

Lemma descent_inv_init : Inv p x 0 1.
Proof.
  unfold descent_inv. repeat split; try lia.
  - apply Z.coprime_prime_small; [assumption|lia].
  - exists (-1). split; [now right|]. split.
    + exists 1. ring.
    + exists 0. ring.
Qed.

Lemma descent_inv_pos (a b s t : Z) : Inv a b s t -> p <= a * a -> 0 < b.
Proof.
  intros (Hb & Hs & Ht & Hp & Hg & _) Ha.
  destruct (Z.eq_dec b 0) as [-> | Hne]; [|lia].
  rewrite Z.gcd_0_r in Hg. assert (a = 1) by lia. subst a. lia.
Qed.

Lemma descent_inv_step (a b s t : Z) :
  Inv a b s t -> 0 < b -> Inv b (a mod b) t (a / b * t + s).
Proof.
  intros (Hb & Hs & Ht & Hp & Hg & e & He & Ha1 & Hb1) Hpos.
  pose proof (Z.mod_pos_bound a b Hpos) as Hmod.
  pose proof (Z.div_mod a b ltac:(lia)) as Hdiv.
  assert (Hq : 1 <= a / b).
  { apply Z.div_le_lower_bound; lia. }
  unfold descent_inv. split; [lia|]. split; [nia|]. split; [nia|].
  split; [nia|]. split.
  - rewrite Z.gcd_mod_r, Z.gcd_comm. exact Hg.
  - exists (- e). split; [lia|]. split.
    + replace (b - - e * t * x) with (b + e * t * x) by ring. exact Hb1.
    + replace (a mod b + - e * (a / b * t + s) * x)
        with ((a - e * s * x) - (a / b) * (b + e * t * x)) by nia.
      apply Z.divide_sub_r; [assumption|].
      apply Z.divide_mul_r. assumption.
Qed.

(** Leaving the loop: the first remainder below the square root and the
    next one are the two squares. *)
Lemma descent_inv_exit (A B S T : Z) :
  Inv A B S T -> p <= A * A -> B * B < p ->
  B * B + (A mod B) * (A mod B) = p /\ 0 < A mod B < B.
Proof.
  intros HI HA HB.
  pose proof (descent_inv_pos _ _ _ _ HI HA) as Bpos.
  pose proof (descent_inv_step _ _ _ _ HI Bpos) as HI'.
  destruct HI as (Hb & Hs & Ht & Hp & Hg & e & He & Ha1 & Hb1).
  destruct HI' as (Hb' & _ & _ & Hp' & _).
  set (r := A mod B) in *. set (q := A / B) in *.
  (* T is below the square root *)
  assert (HTA : T <= A) by nia.
  assert (HT2 : T * T < p).
  { assert (T * T <= p) by nia.
    assert (T * T <> p).
    { intros E. apply (Z.not_prime_square T). now rewrite E. }
    lia. }
  (* p divides B^2 + T^2, which lies between 0 and 2p *)
  assert (Hsum : B * B + T * T = p).
  { assert (Hd : (p | B * B + T * T)).
    { destruct Hb1 as [k1 Hk1]. destruct x_square as [k2 Hk2].
      exists (k1 * k1 * p - 2 * k1 * e * T * x + T * T * k2).
      destruct He as [-> | ->]; nia. }
    destruct Hd as [k Hk]. assert (k = 1) by nia. subst k. lia. }
  (* B and T are coprime *)
  assert (Hcop : Z.gcd B T = 1).
  { pose proof (Z.gcd_divide_l B T) as H1.
    pose proof (Z.gcd_divide_r B T) as H2.
    pose proof (Z.gcd_nonneg B T) as H0.
    assert (Hdp : (Z.gcd B T | p)).
    { rewrite <- Hsum. apply Z.divide_add_r; apply Z.divide_mul_l; assumption. }
    destruct (Z.divide_prime_r _ _ p_prime Hdp) as [E | [E | [E | E]]];
      try lia.
    rewrite E in H1. apply Z.divide_pos_le in H1; nia. }
  (* the two divisibilities *)
  assert (HBd : (B | T - r)).
  { apply (Z.gauss B T); [|exact Hcop].
    exists (q * T + S - B). nia. }
  assert (HTd : (T | B - S)).
  { apply (Z.gauss T B); [|rewrite Z.gcd_comm; exact Hcop].
    exists (A - T). nia. }
  assert (Hr : r = T).
  { destruct (Z.lt_trichotomy T B) as [Hlt | [Heq | Hgt]].
    - destruct HBd as [m Hm]. assert (m = 0) by nia. lia.
    - exfalso. subst T. rewrite Z.gcd_diag in Hcop.
      assert (B = 1) by lia. subst B.
      assert (Hp2 : p = 2) by lia. pose proof p_mod4 as H4.
      rewrite Hp2 in H4. discriminate H4.
    - exfalso. destruct HTd as [m Hm]. assert (m = 0) by nia.
      assert (B = S) by lia. subst S.
      assert (A = T) by nia. subst A. lia. }
  rewrite Hr. split; [exact Hsum|].
  destruct (Z.lt_trichotomy T B) as [Hlt | [Heq | Hgt]]; lia.
Qed.

(** The loop from a state that satisfies the invariant. *)
Lemma descent_loop_inv (fuel : nat) : forall a b s t,
  Inv a b s t -> p <= a * a -> (Z.abs_nat b < fuel)%nat ->
  exists a1 b1,
    descent_loop fuel p a b = Ok (a1, b1) /\
    a1 * a1 + b1 * b1 = p /\ 0 < b1 < a1 /\
    Forall (fun d => 0 < d) (descent_divisors fuel p a b).
Proof.
  induction fuel as [|fuel IH]; intros a b s t HI Ha Hfuel; [lia|].
  pose proof (descent_inv_pos _ _ _ _ HI Ha) as Hb.
  pose proof (descent_inv_step _ _ _ _ HI Hb) as HI'.
  pose proof (Z.mod_pos_bound a b Hb) as Hmod.
  cbn [descent_loop descent_divisors].
  replace (ge_sqrt a p) with true
    by (symmetry; apply Z.leb_le; exact Ha).
  destruct (Z.eqb_spec b 0); [lia|].
  destruct (Z_le_gt_dec p (b * b)) as [Hge | Hlt].
  - destruct (IH _ _ _ _ HI' Hge) as (a1 & b1 & H1 & H2 & H3 & H4); [lia|].
    exists a1, b1. repeat split; try assumption; try lia.
    constructor; assumption.
  - exists b, (a mod b).
    rewrite descent_loop_exit, descent_divisors_exit by lia.
    destruct (descent_inv_exit _ _ _ _ HI Ha ltac:(lia)) as [H1 H2].
    repeat split; try lia. repeat constructor. exact Hb.
Qed.

Lemma descent_from_root :
  exists a b,
    descent p p x = Ok (a, b) /\ a * a + b * b = p /\ 0 < b < a /\
    Forall (fun d => 0 < d) (descent_divisors (S (Z.abs_nat x)) p p x).
Proof.
  apply (descent_loop_inv _ _ _ _ _ descent_inv_init); [nia|lia].
Qed.

End Descent.

(** The seed [x = g^((p-1)/4) mod p] of a non-residue [g]. *)
Lemma seed_square_root (p g : Z) :
  Z.prime p -> p mod 4 = 1 -> ~ is_qr p g ->
  let x := (g ^ ((p - 1) / 4)) mod p in
  0 < x < p /\ (x * x) mod p = p - 1 /\ Z.gcd p x = 1.
Proof.
  intros Hp H4 Hg x.
  pose proof (Z.prime_ge_2 p Hp) as Hp2.
  assert (Hodd : p mod 2 = 1) by (Z.div_mod_to_equations; lia).
  assert (Hk : 0 <= (p - 1) / 4) by (Z.div_mod_to_equations; lia).
  assert (Hsq : (x * x) mod p = p - 1).
  { unfold x. rewrite <- Zmult_mod, <- Z.pow_add_r by assumption.
    replace ((p - 1) / 4 + (p - 1) / 4) with ((p - 1) / 2)
      by (Z.div_mod_to_equations; lia).
    apply euler_criterion_qnr; assumption. }
  assert (Hx : 0 <= x < p) by (apply Z.mod_pos_bound; lia).
  assert (Hx0 : x <> 0).
  { intros E. rewrite E in Hsq. cbn in Hsq. lia. }
  split; [lia|]. split; [exact Hsq|].
  apply Z.coprime_prime_small; [assumption|lia].
Qed.

Lemma seed_divides (p x : Z) :
  2 <= p -> (x * x) mod p = p - 1 -> (p | x * x + 1).
Proof.
  intros Hp H. apply Z.mod_divide; [lia|].
  rewrite <- Z.add_mod_idemp_l, H by lia.
  replace (p - 1 + 1) with (1 * p) by ring. apply Z_mod_mult.
Qed.

(** From a non-residue to the two squares. *)
Lemma descent_of_nonresidue (p g : Z) :
  Z.prime p -> p mod 4 = 1 -> ~ is_qr p g ->
  let x := (g ^ ((p - 1) / 4)) mod p in
  exists a b,
    descent p p x = Ok (a, b) /\ a * a + b * b = p /\ 0 < b < a /\
    Forall (fun d => 0 < d) (descent_divisors (S (Z.abs_nat x)) p p x).
Proof.
  intros Hp H4 Hg x.
  destruct (seed_square_root p g Hp H4 Hg) as (Hx & Hsq & _).
  apply descent_from_root; try assumption.
  apply seed_divides; [apply Z.prime_ge_2; assumption|exact Hsq].
Qed.

(** ** Deciding residues *)

Lemma is_qrb_spec (p c : Z) : 0 < p -> (is_qrb p c = true <-> is_qr p c).
Proof.
  intros Hp. unfold is_qrb, is_qr. rewrite existsb_exists. split.
  - intros (y & _ & Hy). exists y. apply Z.eqb_eq. exact Hy.
  - intros (y & Hy). exists (y mod p). split.
    + apply In_Zseq. pose proof (Z.mod_pos_bound y p Hp). lia.
    + apply Z.eqb_eq. rewrite <- Zmult_mod. exact Hy.
Qed.

Lemma not_is_qr_by_search (p c : Z) : 0 < p -> is_qrb p c = false -> ~ is_qr p c.
Proof.
  intros Hp Hb Hq. apply (is_qrb_spec p c Hp) in Hq. congruence.
Qed.

(** ** The oracles meet their contracts *)

Lemma no_divisor_from_spec (k : nat) : forall lo n,
  0 < lo ->
  (no_divisor_from k lo n = true <->
   forall d, lo <= d < lo + Z.of_nat k -> d * d <= n -> ~ (d | n)).
Proof.
  induction k as [|k IH]; intros lo n Hlo; cbn [no_divisor_from].
  - split; [intros _ d Hd; lia|reflexivity].
  - destruct (Z.ltb_spec n (lo * lo)) as [Hlt | Hge].
    + split; [|reflexivity]. intros _ d Hd Hdd. nia.
    + destruct (Z.eqb_spec (n mod lo) 0) as [Hz | Hnz].
      * split; [discriminate|]. intros H. exfalso.
        apply (H lo); [lia|lia|]. apply Z.mod_divide; [lia|assumption].
      * rewrite IH by lia. split; intros H d Hd Hdd.
        -- destruct (Z.eq_dec d lo) as [-> | Hne].
           ++ intros Hdiv. apply Hnz. apply Z.mod0_divide. exact Hdiv.
           ++ apply H; [lia|assumption].
        -- apply H; [lia|assumption].
Qed.

Lemma isprime_spec (n : Z) : isprime n = true <-> Z.prime n.
Proof.
  unfold isprime. rewrite andb_true_iff, Z.ltb_lt.
  split.
  - intros [H1 H]. rewrite no_divisor_from_spec in H by lia.
    split; [assumption|]. intros d Hd [m Hm].
    assert (Hm0 : 0 < m) by nia.
    assert (Hm1 : m <> 1) by (intros ->; lia).
    assert (Hm2 : m * 2 <= m * d) by (apply Z.mul_le_mono_nonneg_l; lia).
    assert (Hmpos : 1 < m < n) by lia.
    destruct (Z_le_gt_dec (d * d) n) as [Hdd | Hdd].
    + apply (H d); [|assumption|exists m; exact Hm].
      apply Z.sqrt_le_square in Hdd; lia.
    + assert (Hmm : m * m <= n) by nia.
      apply (H m); [|assumption|exists d; lia].
      apply Z.sqrt_le_square in Hmm; lia.
  - intros [H1 H]. split; [assumption|].
    apply no_divisor_from_spec; [lia|].
    intros d Hd Hdd. apply H. nia.
Qed.

Lemma In_primerange (a q : Z) (b : bound) :
  In q (primerange a b) <-> a <= q /\ Z.prime q /\ lt_bound q b = true.
Proof.
  unfold primerange. rewrite filter_In, In_Zseq, andb_true_iff, isprime_spec.
  split; [tauto|]. intros (Ha & Hq & Hb).
  split; [|split; assumption]. split; [assumption|].
  pose proof (Z.prime_ge_2 q Hq).
  destruct b as [|x]; cbn [lt_bound bound_ceil] in *.
  - apply Z.ltb_lt in Hb. lia.
  - apply orb_true_iff in Hb. destruct Hb as [Hb | Hb]; apply Z.ltb_lt in Hb;
      [lia|].
    assert (Hx : 0 <= x) by nia.
    pose proof (Z.sqrt_spec x Hx) as Hs. cbv zeta in Hs.
    assert (q - 1 <= Z.sqrt x) by nia.
    lia.
Qed.

(** ** The table [prime_reps] *)

Lemma dict_get_set_same (d : dict) (k : Z) (v : Z * Z) :
  dict_get (dict_set d k v) k = Some v.
Proof.
  induction d as [|[k' v'] d IH]; cbn [dict_set dict_get].
  - now rewrite Z.eqb_refl.
  - destruct (Z.eqb_spec k' k) as [E | E]; cbn [dict_get].
    + now rewrite Z.eqb_refl.
    + destruct (Z.eqb_spec k' k); [contradiction|exact IH].
Qed.

Lemma dict_get_set_other (d : dict) (k k' : Z) (v : Z * Z) :
  k' <> k -> dict_get (dict_set d k v) k' = dict_get d k'.
Proof.
  intros Hne. induction d as [|[k0 v0] d IH]; cbn [dict_set dict_get].
  - destruct (Z.eqb_spec k k'); [congruence|reflexivity].
  - destruct (Z.eqb_spec k0 k) as [E | E]; cbn [dict_get].
    + subst k0. destruct (Z.eqb_spec k k'); [congruence|reflexivity].
    + destruct (Z.eqb_spec k0 k'); [reflexivity|exact IH].
Qed.

(** ** Sums over the divisors *)

Lemma Zsum_app (f : Z -> Z) (l1 l2 : list Z) :
  Zsum f (l1 ++ l2) = Zsum f l1 + Zsum f l2.
Proof.
  induction l1 as [|x l1 IH]; cbn [Zsum fold_right app].
  - reflexivity.
  - fold (Zsum f (l1 ++ l2)). fold (Zsum f l1). rewrite IH. ring.
Qed.

Lemma Zsum_cons (f : Z -> Z) (x : Z) (l : list Z) :
  Zsum f (x :: l) = f x + Zsum f l.
Proof. reflexivity. Qed.

Lemma Zsum_perm (f : Z -> Z) (l l' : list Z) :
  Permutation l l' -> Zsum f l = Zsum f l'.
Proof.
  induction 1 as [|x l l' _ IH|x y l|l l' l'' _ IH1 _ IH2].
  - reflexivity.
  - rewrite !Zsum_cons. now rewrite IH.
  - rewrite !Zsum_cons. ring.
  - congruence.
Qed.

Lemma Zsum_map_scale (f : Z -> Z) (c k : Z) (l : list Z) :
  (forall x, f (k * x) = c * f x) ->
  Zsum f (map (Z.mul k) l) = c * Zsum f l.
Proof.
  intros H. induction l as [|x l IH]; cbn [map].
  - cbn. ring.
  - rewrite !Zsum_cons, IH, H. ring.
Qed.

Lemma Zsum_filter_split (f : Z -> Z) (P : Z -> bool) (l : list Z) :
  Zsum f l = Zsum f (filter P l) + Zsum f (filter (fun x => negb (P x)) l).
Proof.
  induction l as [|x l IH]; [reflexivity|].
  cbn [filter]. destruct (P x); cbn [negb]; rewrite !Zsum_cons, IH; ring.
Qed.

Lemma mod4_cases (a : Z) :
  a mod 4 = 0 \/ a mod 4 = 1 \/ a mod 4 = 2 \/ a mod 4 = 3.
Proof. pose proof (Z.mod_pos_bound a 4). lia. Qed.

Lemma chi4_mul (a b : Z) : chi4 (a * b) = chi4 a * chi4 b.
Proof.
  unfold chi4. rewrite (Zmult_mod a b).
  destruct (mod4_cases a) as [E | [E | [E | E]]];
    destruct (mod4_cases b) as [F | [F | [F | F]]];
    rewrite E, F; reflexivity.
Qed.

(** *** The contract of [divisors] *)

Lemma In_divisors (n d : Z) :
  0 < n -> (In d (divisors n) <-> 0 < d /\ (d | n)).
Proof.
  intros Hn. unfold divisors. rewrite filter_In, In_Zseq, Z.eqb_eq. split.
  - intros [Hd Hm]. split; [lia|]. apply Z.mod_divide; [lia|assumption].
  - intros [Hd Hdiv]. split.
    + apply Z.divide_pos_le in Hdiv; lia.
    + apply Z.mod0_divide. exact Hdiv.
Qed.

Lemma NoDup_divisors (n : Z) : NoDup (divisors n).
Proof. apply NoDup_filter, NoDup_Zseq. Qed.

Lemma divisors_0 : divisors 0 = [].
Proof. reflexivity. Qed.

Section DivisorsOfMultiple.

Variables p m : Z.
Hypothesis p_prime : Z.prime p.
Hypothesis m_pos : 0 < m.

Let p_ge_2 : 2 <= p := Z.prime_ge_2 p p_prime.

Local Abbreviation multiple_of_p := (multiple_of p).

Lemma multiple_of_p_spec (d : Z) : multiple_of_p d = true <-> (p | d).
Proof.
  unfold multiple_of. rewrite Z.eqb_eq. split.
  - apply Z.mod_divide. lia.
  - apply Z.mod0_divide.
Qed.

Lemma mul_p_injective (x y : Z) : p * x = p * y -> x = y.
Proof. intros H. apply Z.mul_reg_l in H; [assumption|lia]. Qed.

Lemma divisors_mul_prime :
  Permutation (divisors (p * m))
    (filter (fun d => negb (multiple_of_p d)) (divisors m)
     ++ map (Z.mul p) (divisors m)).
Proof.
  apply NoDup_Permutation.
  - apply NoDup_divisors.
  - apply NoDup_app.
    + apply NoDup_filter, NoDup_divisors.
    + apply Injective_map_NoDup; [|apply NoDup_divisors].
      intros x y. apply mul_p_injective.
    + intros d Hd Hd'. apply filter_In in Hd. destruct Hd as [_ Hd].
      apply in_map_iff in Hd'. destruct Hd' as (d' & <- & _).
      apply negb_true_iff in Hd.
      assert (multiple_of_p (p * d') = true)
        by (apply multiple_of_p_spec; exists d'; ring).
      congruence.
  - intros d. rewrite in_app_iff, filter_In, in_map_iff.
    rewrite In_divisors by nia.
    split.
    + intros [Hd Hdiv].
      destruct (multiple_of_p d) eqn:E.
      * right. apply multiple_of_p_spec in E. destruct E as [d' ->].
        exists d'. split; [ring|]. apply In_divisors; [assumption|].
        split; [nia|]. destruct Hdiv as [k Hk]. exists k.
        apply (mul_p_injective). rewrite Hk. ring.
      * left. split; [|reflexivity]. apply In_divisors; [assumption|].
        split; [assumption|].
        apply (Z.gauss d p); [exact Hdiv|].
        rewrite Z.gcd_comm. apply Z.coprime_prime_l; [assumption|].
        intros H. apply multiple_of_p_spec in H. congruence.
    + intros [[Hd _] | (d' & <- & Hd')].
      * apply In_divisors in Hd; [|assumption]. destruct Hd as [Hd Hdiv].
        split; [assumption|]. apply Z.divide_mul_r. exact Hdiv.
      * apply In_divisors in Hd'; [|assumption]. destruct Hd' as [Hd Hdiv].
        split; [nia|]. apply Z.mul_divide_mono_l. exact Hdiv.
Qed.

Lemma divisors_multiples :
  (p | m) ->
  Permutation (filter multiple_of_p (divisors m))
              (map (Z.mul p) (divisors (m / p))).
Proof.
  intros [k Hk].
  assert (Hdiv : m / p = k) by (rewrite Hk; apply Z.div_mul; lia).
  assert (Hkpos : 0 < k) by nia.
  rewrite Hdiv.
  apply NoDup_Permutation.
  - apply NoDup_filter, NoDup_divisors.
  - apply Injective_map_NoDup; [|apply NoDup_divisors].
    intros x y. apply mul_p_injective.
  - intros d. rewrite filter_In, in_map_iff, In_divisors by assumption.
    rewrite multiple_of_p_spec. split.
    + intros [[Hd Hdm] [d' ->]]. exists d'. split; [ring|].
      apply In_divisors; [assumption|]. split; [nia|].
      destruct Hdm as [j Hj]. exists j. apply mul_p_injective. nia.
    + intros (d' & <- & Hd'). apply In_divisors in Hd'; [|assumption].
      destruct Hd' as [Hd' Hdk]. repeat split.
      * nia.
      * rewrite Hk, (Z.mul_comm k p). apply Z.mul_divide_mono_l. exact Hdk.
      * exists d'. ring.
Qed.

Lemma divisors_no_multiples :
  ~ (p | m) -> filter multiple_of_p (divisors m) = [].
Proof.
  intros Hpm. apply filter_none. intros d Hd.
  apply In_divisors in Hd; [|assumption]. destruct Hd as [_ Hd].
  destruct (multiple_of_p d) eqn:E; [|reflexivity].
  exfalso. apply Hpm. apply multiple_of_p_spec in E.
  eapply Z.divide_trans; eassumption.
Qed.

(** The recurrence of the divisor sum along a prime. *)
Lemma divisor_sum_rec :
  divisor_sum (p * m)
  = (1 + chi4 p) * divisor_sum m
    - chi4 p * (if m mod p =? 0 then divisor_sum (m / p) else 0).
Proof.
  unfold divisor_sum.
  rewrite (Zsum_perm chi4 _ _ divisors_mul_prime), Zsum_app.
  rewrite (Zsum_map_scale chi4 (chi4 p) p) by (intros; apply chi4_mul).
  rewrite (Zsum_filter_split chi4 multiple_of_p (divisors m)).
  destruct (Z.eqb_spec (m mod p) 0) as [E | E].
  - apply Z.mod_divide in E; [|lia].
    rewrite (Zsum_perm chi4 _ _ (divisors_multiples E)).
    rewrite (Zsum_map_scale chi4 (chi4 p) p) by (intros; apply chi4_mul).
    ring.
  - rewrite divisors_no_multiples; [cbn [Zsum fold_right]; ring|].
    intros H. apply E. apply Z.mod0_divide. exact H.
Qed.

End DivisorsOfMultiple.

Lemma Zsum_map_id (f : Z -> Z) (l : list Z) :
  Zsum (fun x => x) (map f l) = Zsum f l.
Proof.
  induction l as [|x l IH]; [reflexivity|].
  cbn [map]. rewrite !Zsum_cons, IH. reflexivity.
Qed.

Lemma Zsum_scale (a : Z) (l : list Z) :
  Zsum (Z.mul a) l = a * Zsum (fun x => x) l.
Proof.
  induction l as [|x l IH]; [cbn; ring|].
  rewrite !Zsum_cons, IH. ring.
Qed.

Lemma Zsum_ext (f g : Z -> Z) (l : list Z) :
  (forall x, In x l -> f x = g x) -> Zsum f l = Zsum g l.
Proof.
  induction l as [|x l IH]; intros Hl; [reflexivity|].
  rewrite !Zsum_cons, (Hl x (in_eq _ _)), IH; [reflexivity|].
  intros y Hy. apply Hl. now right.
Qed.

Lemma Zsum_add (f g : Z -> Z) (l : list Z) :
  Zsum (fun x => f x + g x) l = Zsum f l + Zsum g l.
Proof.
  induction l as [|x l IH]; [reflexivity|].
  rewrite !Zsum_cons, IH. ring.
Qed.

(** ** The integer points of a circle *)

Lemma NoDup_list_prod (A B : Type) (l : list A) (l' : list B) :
  NoDup l -> NoDup l' -> NoDup (list_prod l l').
Proof.
  intros Hl Hl'. induction Hl as [|x l Hx Hl IH]; cbn [list_prod].
  - constructor.
  - apply NoDup_app.
    + apply Injective_map_NoDup; [|assumption].
      intros u v E. now inversion E.
    + exact IH.
    + intros [u v] Hin Hin'. apply in_map_iff in Hin.
      destruct Hin as (w & E & _). inversion E; subst.
      apply in_prod_iff in Hin'. tauto.
Qed.

Lemma sq_le_sqrt (x n : Z) : x * x <= n -> - Z.sqrt n <= x <= Z.sqrt n.
Proof.
  intros H.
  assert (Hn : 0 <= n) by nia.
  assert (Ha : Z.abs x * Z.abs x <= n) by (rewrite Z.abs_square; exact H).
  apply Z.sqrt_le_square in Ha; lia.
Qed.

Lemma In_circle_points (n x y : Z) :
  In (x, y) (circle_points n) <-> x * x + y * y = n.
Proof.
  unfold circle_points, on_circle.
  rewrite filter_In, in_prod_iff, !In_Zseq, Z.eqb_eq. cbn [fst snd].
  split; [tauto|]. intros H. split; [|exact H].
  assert (Hn : 0 <= n) by nia.
  pose proof (Z.sqrt_nonneg n).
  assert (Hx : x * x <= n) by nia. assert (Hy : y * y <= n) by nia.
  apply sq_le_sqrt in Hx, Hy. lia.
Qed.

Lemma NoDup_circle_points (n : Z) : NoDup (circle_points n).
Proof.
  apply NoDup_filter, NoDup_list_prod; apply NoDup_Zseq.
Qed.

(** Two duplicate-free lists in bijection have the same length. *)
Lemma length_bijection (A : Type) (f : A -> A) (l l' : list A) :
  NoDup l -> NoDup l' ->
  (forall u v, In u l -> In v l -> f u = f v -> u = v) ->
  (forall z, In z l' <-> exists w, In w l /\ f w = z) ->
  length l' = length l.
Proof.
  intros Hl Hl' Hinj Hsurj.
  rewrite <- (length_map f l). apply Permutation_length.
  apply NoDup_Permutation.
  - exact Hl'.
  - apply Injective_map_NoDup_in; assumption.
  - intros z. rewrite in_map_iff, Hsurj. split; intros (w & H1 & H2); eauto.
Qed.

(** Inclusion and exclusion for two filters that cover the list. *)
Lemma length_filter_cover (A : Type) (P1 P2 : A -> bool) (l : list A) :
  (forall x, In x l -> P1 x || P2 x = true) ->
  (length l + length (filter (fun x => P1 x && P2 x) l)
   = length (filter P1 l) + length (filter P2 l))%nat.
Proof.
  induction l as [|x l IH]; intros H; [reflexivity|].
  assert (Hx := H x (in_eq _ _)).
  assert (IH' := IH (fun z Hz => H z (in_cons _ _ _ Hz))).
  cbn [filter]. destruct (P1 x), (P2 x); cbn [andb length] in *;
    try discriminate; lia.
Qed.

Lemma circle_points_empty (n : Z) :
  (forall x y, x * x + y * y <> n) -> circle_points n = [].
Proof.
  intros H. destruct (circle_points n) as [|[x y] l] eqn:E; [reflexivity|].
  exfalso. apply (H x y). apply In_circle_points. rewrite E. apply in_eq.
Qed.

Lemma two_squares_count_bijection (f : Z * Z -> Z * Z) (m n : Z) :
  (forall u v, f u = f v -> u = v) ->
  (forall x y, x * x + y * y = n <->
     exists u v, u * u + v * v = m /\ f (u, v) = (x, y)) ->
  two_squares_count n = two_squares_count m.
Proof.
  intros Hinj Hsurj. unfold two_squares_count. f_equal.
  apply (length_bijection _ f); try apply NoDup_circle_points.
  - intros u v _ _. apply Hinj.
  - intros [x y]. rewrite In_circle_points, Hsurj. split.
    + intros (u & v & H1 & H2). exists (u, v).
      split; [apply In_circle_points|]; assumption.
    + intros ([u v] & H1 & H2). exists u, v.
      split; [apply In_circle_points|]; assumption.
Qed.

(** *** The prime 2 *)

Lemma two_squares_count_double (m : Z) :
  two_squares_count (2 * m) = two_squares_count m.
Proof.
  apply (two_squares_count_bijection
           (fun w => (fst w - snd w, fst w + snd w))).
  - intros [u v] [u' v']. cbn [fst snd]. intros E. inversion E.
    f_equal; lia.
  - intros x y. cbn [fst snd]. split.
    + intros H.
      assert (Hpar : exists s, x + y = 2 * s).
      { destruct (Z.Even_or_Odd x) as [[a ->] | [a ->]];
          destruct (Z.Even_or_Odd y) as [[b ->] | [b ->]].
        - exists (a + b). ring.
        - exfalso. lia.
        - exfalso. lia.
        - exists (a + b + 1). ring. }
      destruct Hpar as [s Hs].
      exists s, (s - x). split; [nia|]. f_equal; lia.
    + intros (u & v & H & E). inversion E. nia.
Qed.

(** ** Circles of radius [p * m], for a prime [p] *)

Lemma pow_m1_even (k : Z) : 0 <= k -> (-1) ^ (2 * k) = 1.
Proof.
  intros Hk. rewrite Z.pow_mul_r by lia. change ((-1) ^ 2) with 1.
  apply Z.pow_1_l. exact Hk.
Qed.

Lemma pow_m1_odd (k : Z) : 0 <= k -> (-1) ^ (2 * k + 1) = -1.
Proof.
  intros Hk. rewrite Z.pow_add_r, pow_m1_even by lia. reflexivity.
Qed.

Lemma multiple_of_spec (p d : Z) :
  p <> 0 -> (multiple_of p d = true <-> (p | d)).
Proof.
  intros Hp. unfold multiple_of. rewrite Z.eqb_eq. split.
  - apply Z.mod_divide. exact Hp.
  - apply Z.mod0_divide.
Qed.

Lemma divide_square (p x : Z) : Z.prime p -> (p | x * x) -> (p | x).
Proof.
  intros Hp H. destruct (prime_divide_mul p Hp _ _ H); assumption.
Qed.

(** Points both of whose coordinates are multiples of [p]. *)
Lemma count_divisible_points (p m : Z) (Q : Z * Z -> bool) :
  2 <= p -> 0 < m ->
  (forall x y, x * x + y * y = p * m ->
     (Q (x, y) = true <-> (p | x) /\ (p | y))) ->
  Z.of_nat (length (filter Q (circle_points (p * m))))
  = if m mod p =? 0 then two_squares_count (m / p) else 0.
Proof.
  intros Hp Hm HQ.
  destruct (Z.eqb_spec (m mod p) 0) as [E | E].
  - apply Z.mod_divide in E; [|lia]. destruct E as [k Hk].
    assert (Hdiv : m / p = k) by (rewrite Hk; apply Z.div_mul; lia).
    rewrite Hdiv. unfold two_squares_count. f_equal.
    apply (length_bijection _ (fun w => (p * fst w, p * snd w))).
    + apply NoDup_circle_points.
    + apply NoDup_filter, NoDup_circle_points.
    + intros [u v] [u' v'] _ _. cbn [fst snd]. intros H. inversion H.
      f_equal; nia.
    + intros [x y]. rewrite filter_In, In_circle_points. split.
      * intros [Hxy Hq]. apply (HQ x y Hxy) in Hq.
        destruct Hq as [[u Hu] [v Hv]]. exists (u, v). cbn [fst snd].
        split; [|f_equal; lia]. apply In_circle_points. subst x y m. nia.
      * intros ([u v] & Hin & Heq). apply In_circle_points in Hin.
        cbn [fst snd] in Heq. inversion Heq.
        assert (Hxy : p * u * (p * u) + p * v * (p * v) = p * m)
          by (subst m; nia).
        split; [exact Hxy|]. apply (HQ _ _ Hxy).
        split; [exists u|exists v]; ring.
  - apply (f_equal Z.of_nat (x := length _) (y := 0%nat)).
    destruct (filter Q (circle_points (p * m))) as [|[x y] l] eqn:F;
      [reflexivity|].
    exfalso.
    assert (Hin : In (x, y) (filter Q (circle_points (p * m))))
      by (rewrite F; apply in_eq).
    apply filter_In in Hin. destruct Hin as [Hxy Hq].
    apply In_circle_points in Hxy. apply (HQ x y Hxy) in Hq.
    destruct Hq as [[u Hu] [v Hv]]. apply E. apply Z.mod0_divide.
    exists (u * u + v * v). subst x y. nia.
Qed.

(** *** A prime [p = 3 mod 4] *)

Section Prime3.

Variable p : Z.
Hypothesis p_prime : Z.prime p.
Hypothesis p_mod4 : p mod 4 = 3.

Let p_ge_2 : 2 <= p := Z.prime_ge_2 p p_prime.

Lemma prime3_no_root_of_minus_one : ~ is_qr p (-1).
Proof.
  intros Hq.
  assert (Hodd : p mod 2 = 1) by (Z.div_mod_to_equations; lia).
  assert (Hnd : ~ (p | -1)).
  { intros H. apply Z.divide_opp_r in H. apply Z.divide_1_r in H. lia. }
  pose proof (euler_criterion_qr p p_prime Hodd (-1) Hq Hnd) as He.
  replace ((p - 1) / 2) with (2 * ((p - 3) / 4) + 1) in He
    by (Z.div_mod_to_equations; lia).
  rewrite pow_m1_odd in He by (Z.div_mod_to_equations; lia).
  rewrite (mod_minus_one p p_prime) in He.
  assert (Hp2 : p = 2) by lia. pose proof p_mod4 as H4.
  rewrite Hp2 in H4. discriminate H4.
Qed.

Lemma prime3_divides_left (x y : Z) : (p | x * x + y * y) -> (p | x).
Proof.
  intros H.
  destruct (Z.eqb_spec (x mod p) 0) as [E | E].
  { apply Z.mod_divide; [lia|assumption]. }
  exfalso. apply prime3_no_root_of_minus_one.
  assert (Hx : ~ (p | x)) by (intros Hd; apply E, Z.mod0_divide, Hd).
  destruct (mod_solve p p_prime x 1 Hx) as (x' & _ & Hx').
  apply mod_eq_divide in Hx'; [|lia].
  exists (y * x'). apply mod_eq_divide; [lia|].
  replace (y * x' * (y * x') - -1)
    with ((x * x + y * y) * (x' * x') - (x * x' - 1) * (x * x' + 1)) by ring.
  apply Z.divide_sub_r; apply Z.divide_mul_l; assumption.
Qed.

Lemma prime3_divides (x y : Z) : (p | x * x + y * y) -> (p | x) /\ (p | y).
Proof.
  intros H. split; [exact (prime3_divides_left x y H)|].
  apply (prime3_divides_left y x). now rewrite Z.add_comm.
Qed.

Lemma two_squares_count_prime3 (m : Z) :
  0 < m ->
  two_squares_count (p * m)
  = if m mod p =? 0 then two_squares_count (m / p) else 0.
Proof.
  intros Hm.
  rewrite <- (count_divisible_points p m (fun _ => true)); try assumption.
  - unfold two_squares_count. f_equal. f_equal. symmetry.
    apply forallb_filter_id. apply forallb_forall. reflexivity.
  - intros x y Hxy. split; [|reflexivity]. intros _.
    apply prime3_divides. exists m. lia.
Qed.

End Prime3.

(** *** A prime [p = a^2 + b^2] *)

Section Prime1.

Variables p a b : Z.
Hypothesis p_prime : Z.prime p.
Hypothesis p_mod4 : p mod 4 = 1.
Hypothesis p_sum : a * a + b * b = p.
Hypothesis ab_pos : 0 < b < a.

Let p_ge_2 : 2 <= p := Z.prime_ge_2 p p_prime.

Local Abbreviation mul1 := (gauss_mul a b).
Local Abbreviation mul2 := (gauss_mul a (- b)).
Local Abbreviation P1 := (gauss_divides p a (- b)).
Local Abbreviation P2 := (gauss_divides p a b).

Lemma gauss_mul_injective (c : Z) (u v : Z * Z) :
  a * a + c * c = p -> gauss_mul a c u = gauss_mul a c v -> u = v.
Proof.
  destruct u as [u1 u2], v as [v1 v2]. unfold gauss_mul. cbn [fst snd].
  intros Hc E. inversion E as [[E1 E2]].
  assert (H1 : p * (u1 - v1) = 0).
  { rewrite <- Hc.
    replace ((a * a + c * c) * (u1 - v1))
      with (a * ((a * u1 - c * u2) - (a * v1 - c * v2))
            + c * ((a * u2 + c * u1) - (a * v2 + c * v1))) by ring.
    rewrite E1, E2. ring. }
  assert (H2 : p * (u2 - v2) = 0).
  { rewrite <- Hc.
    replace ((a * a + c * c) * (u2 - v2))
      with (a * ((a * u2 + c * u1) - (a * v2 + c * v1))
            - c * ((a * u1 - c * u2) - (a * v1 - c * v2))) by ring.
    rewrite E1, E2. ring. }
  f_equal; nia.
Qed.

Lemma gauss_divides_spec (c x y : Z) :
  gauss_divides p a c (x, y) = true
  <-> (p | a * x - c * y) /\ (p | a * y + c * x).
Proof.
  unfold gauss_divides. cbn [fst snd].
  rewrite andb_true_iff, !multiple_of_spec by lia. reflexivity.
Qed.

(** The points of the big circle that [a + c i] divides are the images of
    the points of the small one. *)
Lemma gauss_multiples (c m : Z) :
  a * a + c * c = p ->
  length (filter (gauss_divides p a (- c)) (circle_points (p * m)))
  = length (circle_points m).
Proof.
  intros Hc.
  apply (length_bijection _ (gauss_mul a c)).
  - apply NoDup_circle_points.
  - apply NoDup_filter, NoDup_circle_points.
  - intros u v _ _. apply gauss_mul_injective. exact Hc.
  - intros [x y]. rewrite filter_In, In_circle_points, gauss_divides_spec.
    split.
    + intros (Hxy & [u Hu] & [v Hv]).
      exists (u, v). unfold gauss_mul. cbn [fst snd].
      assert (Hx : p * (a * u - c * v) = p * x).
      { replace (p * (a * u - c * v)) with (a * (u * p) - c * (v * p)) by ring.
        rewrite <- Hu, <- Hv, <- Hc. ring. }
      assert (Hy : p * (a * v + c * u) = p * y).
      { replace (p * (a * v + c * u)) with (a * (v * p) + c * (u * p)) by ring.
        rewrite <- Hu, <- Hv, <- Hc. ring. }
      assert (Hm : p * p * (u * u + v * v) = p * p * m).
      { replace (p * p * (u * u + v * v))
          with ((u * p) * (u * p) + (v * p) * (v * p)) by ring.
        rewrite <- Hu, <- Hv.
        replace (p * p * m) with ((a * a + c * c) * (p * m))
          by (rewrite Hc; ring).
        rewrite <- Hxy. ring. }
      split.
      * apply In_circle_points. nia.
      * f_equal; nia.
    + intros ([u v] & Hin & Heq). apply In_circle_points in Hin.
      unfold gauss_mul in Heq. cbn [fst snd] in Heq. inversion Heq.
      split; [|split].
      * rewrite <- Hin, <- Hc. ring.
      * exists u. rewrite <- Hc. ring.
      * exists v. rewrite <- Hc. ring.
Qed.

Lemma gauss_cover (m x y : Z) :
  x * x + y * y = p * m -> P1 (x, y) || P2 (x, y) = true.
Proof.
  intros Hxy. apply orb_true_iff. rewrite !gauss_divides_spec.
  assert (Hprod : (p | (a * x + b * y) * (a * x - b * y))).
  { exists (a * a * m - y * y).
    replace ((a * x + b * y) * (a * x - b * y))
      with (a * a * (x * x + y * y) - (a * a + b * b) * (y * y)) by ring.
    rewrite Hxy, p_sum. ring. }
  destruct (prime_divide_mul p p_prime _ _ Hprod) as [H | H].
  - left. replace (a * x - - b * y) with (a * x + b * y) by ring.
    split; [exact H|]. apply divide_square; [assumption|].
    replace ((a * y + - b * x) * (a * y + - b * x))
      with ((a * a + b * b) * (x * x + y * y)
            - (a * x + b * y) * (a * x + b * y)) by ring.
    apply Z.divide_sub_r.
    + rewrite p_sum. apply Z.divide_factor_l.
    + apply Z.divide_mul_l. exact H.
  - right. split; [exact H|]. apply divide_square; [assumption|].
    replace ((a * y + b * x) * (a * y + b * x))
      with ((a * a + b * b) * (x * x + y * y)
            - (a * x - b * y) * (a * x - b * y)) by ring.
    apply Z.divide_sub_r.
    + rewrite p_sum. apply Z.divide_factor_l.
    + apply Z.divide_mul_l. exact H.
Qed.

Lemma not_divide_two_a (t : Z) : (p | 2 * a * t) -> (p | t).
Proof.
  intros H.
  destruct (prime_divide_mul p p_prime _ _ H) as [H1 | H1]; [|exact H1].
  exfalso. destruct (prime_divide_mul p p_prime _ _ H1) as [H2 | H2].
  - apply Z.divide_pos_le in H2; [|lia].
    assert (p = 2) by lia. pose proof p_mod4 as H4.
    replace p with 2 in H4. discriminate H4.
  - apply Z.divide_pos_le in H2; [|lia]. nia.
Qed.

Lemma gauss_both (x y : Z) :
  P1 (x, y) && P2 (x, y) = true <-> (p | x) /\ (p | y).
Proof.
  rewrite andb_true_iff, !gauss_divides_spec. split.
  - intros [[H1 H2] [H3 H4]]. split; apply not_divide_two_a.
    + replace (2 * a * x) with ((a * x - - b * y) + (a * x - b * y)) by ring.
      now apply Z.divide_add_r.
    + replace (2 * a * y) with ((a * y + - b * x) + (a * y + b * x)) by ring.
      now apply Z.divide_add_r.
  - intros [[u ->] [v ->]]. repeat split.
    + exists (a * u + b * v). ring.
    + exists (a * v - b * u). ring.
    + exists (a * u - b * v). ring.
    + exists (a * v + b * u). ring.
Qed.

Lemma two_squares_count_prime1 (m : Z) :
  0 < m ->
  two_squares_count (p * m)
  = 2 * two_squares_count m
    - (if m mod p =? 0 then two_squares_count (m / p) else 0).
Proof.
  intros Hm.
  rewrite <- (count_divisible_points p m (fun z => P1 z && P2 z));
    try assumption.
  2:{ intros x y _. apply gauss_both. }
  pose proof (length_filter_cover _ P1 P2 (circle_points (p * m))) as Hcov.
  rewrite (gauss_multiples b m p_sum) in Hcov.
  assert (H2 : length (filter P2 (circle_points (p * m)))
               = length (circle_points m)).
  { pose proof (gauss_multiples (- b) m) as H2.
    rewrite Z.opp_involutive in H2. apply H2. rewrite <- p_sum. ring. }
  rewrite H2 in Hcov.
  unfold two_squares_count.
  assert (H : forall z, In z (circle_points (p * m)) -> P1 z || P2 z = true).
  { intros [x y] Hz. apply In_circle_points in Hz.
    apply (gauss_cover m). exact Hz. }
  specialize (Hcov H). lia.
Qed.

End Prime1.

(** ** Primes [p = 1 mod 4] are sums of two squares *)

Lemma sqrt_minus_one_exists (p : Z) :
  Z.prime p -> p mod 4 = 1 -> exists x, 0 < x < p /\ (p | x * x + 1).
Proof.
  intros Hp H4.
  pose proof (Z.prime_ge_2 p Hp) as Hp2.
  assert (Hodd : p mod 2 = 1) by (Z.div_mod_to_equations; lia).
  assert (Hnd : ~ (p | -1)).
  { intros H. apply Z.divide_opp_r in H. apply Z.divide_1_r in H. lia. }
  destruct (units_pairing p Hp (-1) Hnd) as (k & Hk & Hlen & Hprod).
  destruct (filter (selfb p (-1)) (units p)) as [|x l] eqn:F.
  - exfalso. cbn [length Zprod fold_right] in Hlen, Hprod.
    rewrite (wilson p Hp Hodd), (mod_minus_one p Hp) in Hprod.
    assert (Hk2 : k = 2 * ((p - 1) / 4)) by (Z.div_mod_to_equations; lia).
    rewrite Hk2, pow_m1_even in Hprod by (Z.div_mod_to_equations; lia).
    rewrite Z.mod_small in Hprod by lia. lia.
  - assert (Hin : In x (filter (selfb p (-1)) (units p)))
      by (rewrite F; apply in_eq).
    apply filter_In in Hin. destruct Hin as [Hx Hs].
    apply (In_units p Hp) in Hx. exists x. split; [exact Hx|].
    unfold selfb in Hs. apply Z.eqb_eq in Hs.
    apply mod_eq_divide in Hs; [|lia].
    now replace (x * x + 1) with (x * x - -1) by ring.
Qed.

Lemma fermat_two_squares (p : Z) :
  Z.prime p -> p mod 4 = 1 -> exists a b, a * a + b * b = p /\ 0 < b < a.
Proof.
  intros Hp H4. destruct (sqrt_minus_one_exists p Hp H4) as (x & Hx & Hd).
  destruct (descent_from_root p x Hp H4 Hx Hd) as (a & b & _ & Hs & Hb & _).
  exists a, b. split; assumption.
Qed.

(** ** The recurrence of the number of points along a prime *)

Lemma two_divides_prime (p : Z) : Z.prime p -> (2 | p) -> p = 2.
Proof.
  intros [Hp1 Hp] H. destruct (Z.eq_dec p 2) as [E | E]; [exact E|].
  exfalso. apply (Hp 2); [|exact H].
  apply Z.divide_pos_le in H; lia.
Qed.

Lemma chi4_mod1 (p : Z) : p mod 4 = 1 -> chi4 p = 1.
Proof. unfold chi4. intros ->. reflexivity. Qed.

Lemma chi4_mod3 (p : Z) : p mod 4 = 3 -> chi4 p = -1.
Proof. unfold chi4. intros ->. reflexivity. Qed.

Lemma two_squares_count_rec (p m : Z) :
  Z.prime p -> 0 < m ->
  two_squares_count (p * m)
  = (1 + chi4 p) * two_squares_count m
    - chi4 p * (if m mod p =? 0 then two_squares_count (m / p) else 0).
Proof.
  intros Hp Hm.
  destruct (mod4_cases p) as [E | [E | [E | E]]].
  - exfalso. assert (p = 2); [|subst p; discriminate E].
    apply two_divides_prime; [assumption|].
    exists (2 * (p / 4)). Z.div_mod_to_equations; lia.
  - destruct (fermat_two_squares p Hp E) as (a & b & Hs & Hb).
    rewrite (two_squares_count_prime1 p a b Hp E Hs Hb m Hm).
    rewrite (chi4_mod1 p E). ring.
  - assert (p = 2).
    { apply two_divides_prime; [assumption|].
      exists (2 * (p / 4) + 1). Z.div_mod_to_equations; lia. }
    subst p. rewrite two_squares_count_double.
    change (chi4 2) with 0. ring.
  - rewrite (two_squares_count_prime3 p Hp E m Hm).
    rewrite (chi4_mod3 p E). ring.
Qed.

(** ** Every number above 1 has a prime divisor *)

Lemma no_divisor_from_false (k : nat) : forall lo n,
  0 < lo -> no_divisor_from k lo n = false ->
  exists d, lo <= d /\ d * d <= n /\ (d | n).
Proof.
  induction k as [|k IH]; intros lo n Hlo; cbn [no_divisor_from];
    [discriminate|].
  destruct (Z.ltb_spec n (lo * lo)) as [Hlt | Hge]; [discriminate|].
  destruct (Z.eqb_spec (n mod lo) 0) as [Hz | Hnz].
  - intros _. exists lo. repeat split; try lia.
    apply Z.mod_divide; [lia|assumption].
  - intros H. destruct (IH (lo + 1) n ltac:(lia) H) as (d & H1 & H2 & H3).
    exists d. repeat split; try assumption; lia.
Qed.

Lemma exists_prime_divisor (k : nat) : forall n,
  1 < n -> (Z.to_nat n <= k)%nat -> exists p, Z.prime p /\ (p | n).
Proof.
  induction k as [|k IH]; intros n Hn Hk; [lia|].
  destruct (isprime n) eqn:E.
  - exists n. split; [apply isprime_spec; exact E|apply Z.divide_refl].
  - unfold isprime in E. apply andb_false_iff in E.
    destruct E as [E | E]; [apply Z.ltb_ge in E; lia|].
    destruct (no_divisor_from_false _ 2 n ltac:(lia) E) as (d & H1 & H2 & H3).
    assert (Hdn : d < n) by nia.
    destruct (IH d) as (p & Hp & Hpd); [lia|lia|].
    exists p. split; [exact Hp|]. eapply Z.divide_trans; eassumption.
Qed.

(** ** Jacobi's two-square theorem *)

Lemma two_squares_count_divisor_sum (k : nat) : forall n,
  0 < n -> (Z.to_nat n <= k)%nat -> two_squares_count n = 4 * divisor_sum n.
Proof.
  induction k as [|k IH]; intros n Hn Hk; [lia|].
  destruct (Z.eq_dec n 1) as [-> | Hn1].
  { vm_compute. reflexivity. }
  destruct (exists_prime_divisor (S k) n ltac:(lia) Hk) as (p & Hp & [m Hm]).
  pose proof (Z.prime_ge_2 p Hp) as Hp2.
  assert (Hmpos : 0 < m) by nia.
  rewrite Hm, (Z.mul_comm m p).
  rewrite (two_squares_count_rec p m Hp Hmpos), (divisor_sum_rec p m Hp Hmpos).
  rewrite (IH m Hmpos) by nia.
  destruct (Z.eqb_spec (m mod p) 0) as [E | E]; [|ring].
  apply Z.mod_divide in E; [|lia]. destruct E as [j Hj].
  assert (Hdiv : m / p = j) by (rewrite Hj; apply Z.div_mul; lia).
  rewrite Hdiv, (IH j) by nia. ring.
Qed.

Theorem jacobi_two_squares (n : Z) :
  0 < n -> two_squares_count n = 4 * divisor_sum n.
Proof.
  intros Hn. apply (two_squares_count_divisor_sum (Z.to_nat n)); [assumption|lia].
Qed.

(** ** [r_2] computes the divisor sum *)

Lemma mod4_nat_cases (d : Z) :
  (d mod 4 = 0 /\ Z.to_nat (d mod 4) = 0%nat) \/
  (d mod 4 = 1 /\ Z.to_nat (d mod 4) = 1%nat) \/
  (d mod 4 = 2 /\ Z.to_nat (d mod 4) = 2%nat) \/
  (d mod 4 = 3 /\ Z.to_nat (d mod 4) = 3%nat).
Proof.
  destruct (mod4_cases d) as [E | [E | [E | E]]]; rewrite E; auto 6.
Qed.

Lemma count_mod4_cons (r d : Z) (l : list Z) :
  count_mod4 r (d :: l)
  = (if d mod 4 =? r then 1 else 0) + count_mod4 r l.
Proof.
  unfold count_mod4. cbn [filter].
  destruct (d mod 4 =? r); cbn [length]; lia.
Qed.

Lemma r_2_fold (l : list Z) : forall c0 c1 c2 c3,
  let d4 := fold_left (fun d4 d => list_incr d4 (Z.to_nat (d mod 4)))
                      l [c0; c1; c2; c3] in
  nth 1 d4 0 = c1 + count_mod4 1 l /\ nth 3 d4 0 = c3 + count_mod4 3 l.
Proof.
  induction l as [|d l IH]; intros c0 c1 c2 c3.
  - cbn. lia.
  - cbn [fold_left]. rewrite !count_mod4_cons.
    destruct (mod4_nat_cases d) as [[E N] | [[E N] | [[E N] | [E N]]]];
      rewrite N, E; cbn [list_incr]; cbv [Z.eqb Pos.eqb];
      match goal with |- context [fold_left _ l [?a; ?b; ?c; ?d]] =>
        destruct (IH a b c d) as [H1 H3] end;
      cbv zeta in H1, H3; cbv zeta; rewrite H1, H3; lia.
Qed.

Lemma Zsum_chi4_counts (l : list Z) :
  Zsum chi4 l = count_mod4 1 l - count_mod4 3 l.
Proof.
  induction l as [|d l IH]; [reflexivity|].
  rewrite Zsum_cons, !count_mod4_cons, IH. unfold chi4.
  destruct (mod4_cases d) as [E | [E | [E | E]]]; rewrite E;
    cbv [Z.eqb Pos.eqb]; lia.
Qed.

Lemma r_2_divisor_counts (n : Z) : n <> 0 -> r_2 n = 4 * (d1 n - d3 n).
Proof.
  intros Hn. unfold r_2, d1, d3.
  destruct (r_2_fold (divisors n) 0 0 0 0) as [H1 H3]. cbv zeta in H1, H3.
  rewrite H1, H3.
  destruct (Z.eqb_spec n 0); [contradiction|]. cbn [negb]. lia.
Qed.

Lemma r_2_divisor_sum (n : Z) : n <> 0 -> r_2 n = 4 * divisor_sum n.
Proof.
  intros Hn. rewrite r_2_divisor_counts by assumption.
  unfold divisor_sum. rewrite Zsum_chi4_counts. reflexivity.
Qed.

(** C8: for [n >= 0], [r_2(n)] is the number of ordered pairs of integers
    [(x, y)] with [x^2 + y^2 = n] -- [circle_points n] lists each such pair
    once --; for [n >= 1] it is [4 * (d1(n) - d3(n))], and [r_2(0) = 1]. *)
Theorem r_2_counts_lattice_points (n : Z) :
  0 <= n ->
  NoDup (circle_points n) /\
  (forall x y, In (x, y) (circle_points n) <-> x * x + y * y = n) /\
  r_2 n = Z.of_nat (length (circle_points n)) /\
  (1 <= n -> r_2 n = 4 * (d1 n - d3 n)) /\
  r_2 0 = 1.
Proof.
  intros Hn. split; [apply NoDup_circle_points|].
  split; [intros x y; apply In_circle_points|].
  split; [|split; [intros H; apply r_2_divisor_counts; lia|reflexivity]].
  destruct (Z.eq_dec n 0) as [-> | Hn0]; [reflexivity|].
  rewrite r_2_divisor_sum by assumption.
  symmetry. apply jacobi_two_squares. lia.
Qed.

Lemma r_2_counts_lattice_points_witness :
  NoDup (circle_points 25) /\
  (forall x y, In (x, y) (circle_points 25) <-> x * x + y * y = 25) /\
  r_2 25 = Z.of_nat (length (circle_points 25)) /\
  (1 <= 25 -> r_2 25 = 4 * (d1 25 - d3 25)) /\
  r_2 0 = 1.
Proof.
  apply (r_2_counts_lattice_points 25). lia.
Defined.

(** ** Gauss's lemma *)

Lemma Zprod_map_scale (a : Z) (l : list Z) :
  Zprod (map (Z.mul a) l) = a ^ Z.of_nat (length l) * Zprod l.
Proof.
  induction l as [|x l IH].
  - reflexivity.
  - cbn [map length]. change (Zprod (a * x :: map (Z.mul a) l))
      with (a * x * Zprod (map (Z.mul a) l)).
    change (Zprod (x :: l)) with (x * Zprod l).
    rewrite IH, Nat2Z.inj_succ, Z.pow_succ_r by lia. ring.
Qed.

Lemma Zprod_cons (x : Z) (l : list Z) : Zprod (x :: l) = x * Zprod l.
Proof. reflexivity. Qed.

Section Gauss.

Variables p a : Z.
Hypothesis p_prime : Z.prime p.
Hypothesis p_odd : p mod 2 = 1.
Hypothesis a_unit : ~ (p | a).

Let p_ge_2 : 2 <= p := Z.prime_ge_2 p p_prime.

Local Abbreviation h := ((p - 1) / 2).
Local Abbreviation H := (half_units p).
Local Abbreviation large := (gauss_large p a).
Local Abbreviation fold := (gauss_fold p a).

Lemma half_double : p = 2 * h + 1.
Proof. Z.div_mod_to_equations; lia. Qed.

Lemma In_half_units (j : Z) : In j H <-> 0 < j <= h.
Proof.
  unfold half_units. rewrite In_Zseq.
  pose proof half_double. lia.
Qed.

Lemma length_half_units : Z.of_nat (length H) = h.
Proof.
  unfold half_units. rewrite length_Zseq.
  pose proof half_double. lia.
Qed.

Lemma gauss_residue_range (j : Z) : 0 < j <= h -> 0 < (a * j) mod p < p.
Proof.
  intros Hj. pose proof (Z.mod_pos_bound (a * j) p ltac:(lia)) as Hr.
  destruct (Z.eq_dec ((a * j) mod p) 0) as [E | E]; [|lia].
  exfalso. apply Z.mod_divide in E; [|lia].
  destruct (prime_divide_mul p p_prime _ _ E) as [Hd | Hd];
    [contradiction|].
  pose proof half_double. apply Z.divide_pos_le in Hd; lia.
Qed.

Lemma gauss_fold_range (j : Z) : 0 < j <= h -> 0 < fold j <= h.
Proof.
  intros Hj. pose proof (gauss_residue_range j Hj) as Hr.
  pose proof half_double.
  unfold gauss_fold, gauss_large.
  destruct (Z.ltb_spec h ((a * j) mod p)); lia.
Qed.

(** The folded residue is [a * j] up to a sign. *)
Lemma gauss_fold_sign (j : Z) :
  exists e, (e = 1 \/ e = -1) /\ (p | fold j - e * (a * j)) /\
            (large j = true -> e = -1) /\ (large j = false -> e = 1).
Proof.
  unfold gauss_fold. destruct (large j) eqn:E.
  - exists (-1). repeat split; try tauto; try discriminate.
    rewrite (Z.mod_eq (a * j) p) by lia.
    exists (1 + a * j / p). ring.
  - exists 1. repeat split; try tauto; try discriminate.
    rewrite (Z.mod_eq (a * j) p) by lia.
    exists (- (a * j / p)). ring.
Qed.

Lemma gauss_fold_injective (j k : Z) :
  In j H -> In k H -> fold j = fold k -> j = k.
Proof.
  rewrite !In_half_units. intros Hj Hk E.
  destruct (gauss_fold_sign j) as (e & He & Hdj & _).
  destruct (gauss_fold_sign k) as (f & Hf & Hdk & _).
  rewrite E in Hdj.
  assert (Hd : (p | a * (f * k - e * j))).
  { replace (a * (f * k - e * j))
      with ((fold k - e * (a * j)) - (fold k - f * (a * k))) by ring.
    apply Z.divide_sub_r; assumption. }
  destruct (prime_divide_mul p p_prime _ _ Hd) as [Hd' | [c Hc]];
    [contradiction|].
  pose proof half_double.
  destruct He as [-> | ->], Hf as [-> | ->];
    assert (c = 0) by nia; lia.
Qed.

Lemma gauss_fold_permutation : Permutation (map fold H) H.
Proof.
  apply NoDup_Permutation_bis.
  - apply Injective_map_NoDup_in; [|apply NoDup_Zseq].
    intros j k. apply gauss_fold_injective.
  - rewrite length_map. apply le_n.
  - intros y Hy. apply in_map_iff in Hy. destruct Hy as (j & <- & Hj).
    apply In_half_units. apply gauss_fold_range. apply In_half_units. exact Hj.
Qed.

(** The product of the multiples, with the signs taken out. *)
Lemma gauss_product (l : list Z) :
  (Zprod (map (Z.mul a) l)) mod p
  = ((-1) ^ Z.of_nat (length (filter large l)) * Zprod (map fold l)) mod p.
Proof.
  induction l as [|j l IH]; [reflexivity|].
  cbn [map filter]. rewrite !Zprod_cons.
  destruct (gauss_fold_sign j) as (e & He & Hd & Ht & Hf).
  rewrite <- Z.mul_mod_idemp_r, IH, Z.mul_mod_idemp_r by lia.
  apply mod_eq_divide; [lia|].
  destruct (large j) eqn:E.
  - rewrite (Ht eq_refl) in Hd. cbn [length].
    rewrite Nat2Z.inj_succ, Z.pow_succ_r by lia.
    destruct Hd as [c Hc].
    exists (c * ((-1) ^ Z.of_nat (length (filter large l))
                 * Zprod (map fold l))).
    replace (fold j) with (c * p + -1 * (a * j)) by lia. ring.
  - rewrite (Hf eq_refl) in Hd. destruct Hd as [c Hc].
    exists (- c * ((-1) ^ Z.of_nat (length (filter large l))
                   * Zprod (map fold l))).
    replace (fold j) with (c * p + 1 * (a * j)) by lia. ring.
Qed.

Lemma Zprod_unit (l : list Z) :
  (forall x, In x l -> ~ (p | x)) -> ~ (p | Zprod l).
Proof.
  induction l as [|x l IH]; intros Hl.
  - cbn. intros Hd. apply Z.divide_1_r in Hd. lia.
  - rewrite Zprod_cons. intros Hd.
    destruct (prime_divide_mul p p_prime _ _ Hd) as [Hx | Hx].
    + apply (Hl x (in_eq _ _)). exact Hx.
    + apply IH; [|exact Hx]. intros y Hy. apply Hl. now right.
Qed.

Theorem gauss_lemma : (a ^ h) mod p = ((-1) ^ gauss_mu p a) mod p.
Proof.
  pose proof (gauss_product H) as Hg.
  rewrite Zprod_map_scale, length_half_units in Hg.
  rewrite (Zprod_perm _ _ gauss_fold_permutation) in Hg.
  fold (gauss_mu p a) in Hg.
  apply (mod_cancel p p_prime (Zprod H)).
  - apply Zprod_unit. intros x Hx. apply In_half_units in Hx.
    pose proof half_double. intros Hd. apply Z.divide_pos_le in Hd; lia.
  - rewrite (Z.mul_comm (Zprod H) (a ^ h)), Hg. f_equal. ring.
Qed.

(** With Euler's criterion: [a] is a square exactly when [gauss_mu] is
    even. *)
Lemma gauss_mu_nonneg : 0 <= gauss_mu p a.
Proof. unfold gauss_mu. lia. Qed.

Lemma pow_m1_cases (k : Z) :
  0 <= k ->
  (k mod 2 = 0 /\ (-1) ^ k = 1) \/ (k mod 2 = 1 /\ (-1) ^ k = -1).
Proof.
  intros Hk. destruct (Z.eq_dec (k mod 2) 0) as [E | E].
  - left. split; [exact E|].
    replace k with (2 * (k / 2)) by (Z.div_mod_to_equations; lia).
    apply pow_m1_even. Z.div_mod_to_equations; lia.
  - right. split; [Z.div_mod_to_equations; lia|].
    replace k with (2 * (k / 2) + 1) by (Z.div_mod_to_equations; lia).
    apply pow_m1_odd. Z.div_mod_to_equations; lia.
Qed.

Lemma gauss_qr_iff : is_qr p a <-> gauss_mu p a mod 2 = 0.
Proof.
  pose proof gauss_lemma as Hg.
  pose proof (mod_minus_one p p_prime) as Hm1.
  assert (Hp3 : 3 <= p).
  { destruct (Z.eq_dec p 2) as [E | E]; [|lia].
    pose proof p_odd as Ho. rewrite E in Ho. discriminate Ho. }
  destruct (pow_m1_cases (gauss_mu p a) gauss_mu_nonneg)
    as [[E Hpow] | [E Hpow]]; rewrite Hpow in Hg; rewrite E.
  - split; [reflexivity|]. intros _.
    (* the power is 1: not a non-residue *)
    rewrite (Z.mod_small 1 p) in Hg by lia.
    destruct (euler_square_root_of_one p p_prime p_odd a a_unit) as [H1 | H1].
    + (* a residue, by the pairing argument *)
      destruct (units_pairing p p_prime a a_unit) as (k & Hk & Hlen & Hprod).
      destruct (filter (selfb p a) (units p)) as [|y l] eqn:Hf.
      * exfalso. cbn [length Zprod fold_right] in Hlen, Hprod.
        rewrite Z.mul_1_r, (wilson p p_prime p_odd), Hm1 in Hprod.
        replace k with h in Hprod by (Z.div_mod_to_equations; lia).
        rewrite Hg in Hprod. lia.
      * exists y. assert (Hin : In y (filter (selfb p a) (units p)))
          by (rewrite Hf; apply in_eq).
        apply filter_In in Hin. destruct Hin as [_ Hin].
        apply Z.eqb_eq. exact Hin.
    + exfalso. lia.
  - split; [|discriminate]. intros Hq. exfalso.
    rewrite (euler_criterion_qr p p_prime p_odd a Hq a_unit), Hm1 in Hg. lia.
Qed.

End Gauss.

(** ** Counting in an interval *)

Lemma filter_all (A : Type) (f : A -> bool) (l : list A) :
  (forall x, In x l -> f x = true) -> filter f l = l.
Proof.
  intros Hl. apply forallb_filter_id. apply forallb_forall. exact Hl.
Qed.

Lemma filter_nil_all (A : Type) (f : A -> bool) (l : list A) :
  (forall x, In x l -> f x = false) -> filter f l = [].
Proof.
  induction l as [|x l IH]; intros Hl; [reflexivity|].
  cbn [filter]. rewrite (Hl x (in_eq _ _)). apply IH.
  intros y Hy. apply Hl. now right.
Qed.

(** Among [1 .. n], exactly [n - t] numbers exceed [t]. *)
Lemma count_above (t n : Z) :
  0 <= t <= n ->
  Z.of_nat (length (filter (fun j => t <? j) (Zseq 1 (Z.to_nat n)))) = n - t.
Proof.
  intros Ht.
  replace (Z.to_nat n) with (Z.to_nat t + Z.to_nat (n - t))%nat by lia.
  rewrite Zseq_app, filter_app, filter_nil_all, filter_all.
  - cbn [app]. rewrite length_Zseq. lia.
  - intros j Hj. apply In_Zseq in Hj. apply Z.ltb_lt. lia.
  - intros j Hj. apply In_Zseq in Hj. apply Z.ltb_ge. lia.
Qed.

(** Among [1 .. n], exactly [t] numbers are at most [t]. *)
Lemma count_upto (t n : Z) :
  0 <= t <= n ->
  Z.of_nat (length (filter (fun j => j <=? t) (Zseq 1 (Z.to_nat n)))) = t.
Proof.
  intros Ht.
  replace (Z.to_nat n) with (Z.to_nat t + Z.to_nat (n - t))%nat by lia.
  rewrite Zseq_app, filter_app, filter_all, filter_nil_all.
  - rewrite app_nil_r, length_Zseq. lia.
  - intros j Hj. apply In_Zseq in Hj. apply Z.leb_gt. lia.
  - intros j Hj. apply In_Zseq in Hj. apply Z.leb_le. lia.
Qed.

(** ** The quadratic character of 2 *)

Section Two.

Variable p : Z.
Hypothesis p_prime : Z.prime p.
Hypothesis p_odd : p mod 2 = 1.

Let p_ge_2 : 2 <= p := Z.prime_ge_2 p p_prime.

Local Abbreviation h := ((p - 1) / 2).

Lemma two_unit : ~ (p | 2).
Proof.
  intros Hd. apply Z.divide_pos_le in Hd; [|lia].
  assert (E : p = 2) by lia. pose proof p_odd as Ho.
  rewrite E in Ho. discriminate Ho.
Qed.

Lemma gauss_mu_two : gauss_mu p 2 = h - h / 2.
Proof.
  unfold gauss_mu, half_units.
  rewrite (filter_ext_in (gauss_large p 2) (fun j => h / 2 <? j)).
  - apply count_above. Z.div_mod_to_equations; lia.
  - intros j Hj. apply In_Zseq in Hj. unfold gauss_large.
    rewrite Z.mod_small by (Z.div_mod_to_equations; lia).
    destruct (Z.ltb_spec h (2 * j)), (Z.ltb_spec (h / 2) j);
      try reflexivity; exfalso; Z.div_mod_to_equations; lia.
Qed.

Lemma two_is_qr_iff : is_qr p 2 <-> (h - h / 2) mod 2 = 0.
Proof.
  rewrite <- gauss_mu_two.
  apply (gauss_qr_iff p 2 p_prime p_odd two_unit).
Qed.

End Two.

Lemma two_qr_mod8_1 (p : Z) : Z.prime p -> p mod 8 = 1 -> is_qr p 2.
Proof.
  intros Hp H8.
  assert (Hodd : p mod 2 = 1) by (Z.div_mod_to_equations; lia).
  apply (two_is_qr_iff p Hp Hodd). Z.div_mod_to_equations; lia.
Qed.

Lemma two_qnr_mod8_5 (p : Z) : Z.prime p -> p mod 8 = 5 -> ~ is_qr p 2.
Proof.
  intros Hp H8 Hq.
  assert (Hodd : p mod 2 = 1) by (Z.div_mod_to_equations; lia).
  apply (two_is_qr_iff p Hp Hodd) in Hq. Z.div_mod_to_equations; lia.
Qed.

(** ** Eisenstein's form of Gauss's lemma *)

Section Eisenstein.

Variables p a : Z.
Hypothesis p_prime : Z.prime p.
Hypothesis p_odd : p mod 2 = 1.
Hypothesis a_unit : ~ (p | a).
Hypothesis a_odd : a mod 2 = 1.

Let p_ge_2 : 2 <= p := Z.prime_ge_2 p p_prime.

Local Abbreviation h := ((p - 1) / 2).
Local Abbreviation H := (half_units p).
Local Abbreviation large := (gauss_large p a).
Local Abbreviation fold := (gauss_fold p a).

Lemma eisenstein_list (l : list Z) :
  exists c,
    Zsum (Z.mul a) l
    = p * Zsum (fun j => a * j / p) l + Zsum fold l
      + Z.of_nat (length (filter large l)) + 2 * c.
Proof.
  induction l as [|j l [c IH]].
  - exists 0. cbn. ring.
  - cbn [filter]. rewrite !Zsum_cons, IH.
    pose proof (Z.div_mod (a * j) p ltac:(lia)) as Hdm.
    unfold gauss_fold. destruct (large j) eqn:E.
    + exists (c + (a * j) mod p - h - 1). cbn [length].
      rewrite Nat2Z.inj_succ. pose proof (half_double p p_odd). lia.
    + exists c. lia.
Qed.

Theorem eisenstein :
  (gauss_mu p a + Zsum (fun j => a * j / p) H) mod 2 = 0.
Proof.
  destruct (eisenstein_list H) as [c Hc].
  rewrite <- (Zsum_map_id fold) in Hc.
  rewrite (Zsum_perm (fun x => x) _ _
             (gauss_fold_permutation p a p_prime p_odd a_unit)) in Hc.
  fold (gauss_mu p a) in Hc.
  rewrite (Zsum_scale a) in Hc.
  set (F := Zsum (fun j => a * j / p) H) in *.
  set (S := Zsum (fun x => x) H) in *.
  apply Z.mod_divide; [lia|].
  exists ((a / 2) * S - h * F - c).
  pose proof (half_double p p_odd).
  assert (Ha : a = 2 * (a / 2) + 1) by (Z.div_mod_to_equations; lia).
  nia.
Qed.

End Eisenstein.

(** ** Counting the points of a rectangle in two ways *)

Lemma Zcount_cons (f : Z -> bool) (x : Z) (l : list Z) :
  Zcount f (x :: l) = (if f x then 1 else 0) + Zcount f l.
Proof.
  unfold Zcount. cbn [filter]. destruct (f x); cbn [length]; lia.
Qed.

Lemma Zcount_as_sum (f : Z -> bool) (l : list Z) :
  Zcount f l = Zsum (fun x => if f x then 1 else 0) l.
Proof.
  induction l as [|x l IH]; [reflexivity|].
  rewrite Zcount_cons, Zsum_cons, IH. reflexivity.
Qed.

Lemma Zsum_zero (l : list Z) : Zsum (fun _ => 0) l = 0.
Proof.
  induction l as [|x l IH]; [reflexivity|]. rewrite Zsum_cons, IH. ring.
Qed.

Lemma Zsum_const (c : Z) (l : list Z) :
  Zsum (fun _ => c) l = c * Z.of_nat (length l).
Proof.
  induction l as [|x l IH]; [cbn; ring|].
  rewrite Zsum_cons, IH. cbn [length]. lia.
Qed.

Lemma Zcount_swap (P : Z -> Z -> bool) (l1 l2 : list Z) :
  Zsum (fun x => Zcount (fun y => P x y) l2) l1
  = Zsum (fun y => Zcount (fun x => P x y) l1) l2.
Proof.
  induction l1 as [|x l1 IH].
  - cbn [Zsum fold_right]. symmetry. apply Zsum_zero.
  - rewrite Zsum_cons, IH, Zcount_as_sum, <- Zsum_add.
    apply Zsum_ext. intros y _. rewrite Zcount_cons. reflexivity.
Qed.

Lemma Zcount_partition (f g : Z -> bool) (l : list Z) :
  (forall x, In x l -> g x = negb (f x)) ->
  Zcount f l + Zcount g l = Z.of_nat (length l).
Proof.
  induction l as [|x l IH]; intros Hl; [reflexivity|].
  rewrite !Zcount_cons, (Hl x (in_eq _ _)). cbn [length].
  specialize (IH (fun y Hy => Hl y (in_cons _ _ _ Hy))).
  destruct (f x); cbn [negb]; lia.
Qed.

(** ** The lattice points under the diagonal *)

Section Lattice.

Variables p q : Z.
Hypothesis p_prime : Z.prime p.
Hypothesis q_prime : Z.prime q.
Hypothesis p_odd : p mod 2 = 1.
Hypothesis q_odd : q mod 2 = 1.
Hypothesis pq_neq : p <> q.

Let p_ge_2 : 2 <= p := Z.prime_ge_2 p p_prime.
Let q_ge_2 : 2 <= q := Z.prime_ge_2 q q_prime.

Local Abbreviation hp := ((p - 1) / 2).
Local Abbreviation hq := ((q - 1) / 2).

Lemma distinct_primes_unit : ~ (p | q).
Proof.
  intros Hd. pose proof q_prime as [_ Hq].
  apply (Hq p); [|exact Hd].
  apply Z.divide_pos_le in Hd; lia.
Qed.

Lemma off_diagonal (j k : Z) : 0 < j <= hp -> q * j <> p * k.
Proof.
  intros Hj E.
  assert (Hd : (p | q * j)) by (exists k; lia).
  destruct (prime_divide_mul p p_prime _ _ Hd) as [H | H].
  - apply distinct_primes_unit. exact H.
  - pose proof (half_double p p_odd). apply Z.divide_pos_le in H; lia.
Qed.

Lemma floor_bound (j : Z) : 0 < j <= hp -> 0 <= q * j / p <= hq.
Proof.
  intros Hj.
  pose proof (half_double p p_odd) as Hp.
  pose proof (half_double q q_odd) as Hq.
  assert (Hm : p * (q * j / p) <= q * j) by (apply Z.mul_div_le; lia).
  split.
  - apply Z.div_pos; nia.
  - destruct (Z_le_gt_dec (q * j / p) hq) as [H | H]; [exact H|].
    exfalso.
    assert (p * (hq + 1) <= q * j) by nia.
    assert (q * j <= q * hp) by nia.
    nia.
Qed.

Lemma count_under (j : Z) :
  0 < j <= hp ->
  Zcount (fun k => p * k <? q * j) (half_units q) = q * j / p.
Proof.
  intros Hj. unfold Zcount, half_units.
  rewrite (filter_ext_in _ (fun k => k <=? q * j / p)).
  - apply count_upto. apply floor_bound. exact Hj.
  - intros k Hk.
    pose proof (off_diagonal j k Hj).
    assert (Hm : p * (q * j / p) <= q * j) by (apply Z.mul_div_le; lia).
    destruct (Z.ltb_spec (p * k) (q * j)), (Z.leb_spec k (q * j / p));
      try reflexivity; exfalso.
    + assert (k <= q * j / p) by (apply Z.div_le_lower_bound; lia). lia.
    + nia.
Qed.

End Lattice.

Theorem floor_sums (p q : Z) :
  Z.prime p -> Z.prime q -> p mod 2 = 1 -> q mod 2 = 1 -> p <> q ->
  floor_sum p q + floor_sum q p = ((p - 1) / 2) * ((q - 1) / 2).
Proof.
  intros Hp Hq Hpo Hqo Hne.
  assert (Hne' : q <> p) by congruence.
  unfold floor_sum.
  rewrite <- (Zsum_ext
    (fun j => Zcount (fun k => p * k <? q * j) (half_units q))
    (fun j => q * j / p) (half_units p)).
  2:{ intros j Hj. apply (In_half_units p Hp Hpo) in Hj.
      apply (count_under p q Hp Hq Hpo Hqo Hne j Hj). }
  rewrite <- (Zsum_ext
    (fun k => Zcount (fun j => q * j <? p * k) (half_units p))
    (fun k => p * k / q) (half_units q)).
  2:{ intros k Hk. apply (In_half_units q Hq Hqo) in Hk.
      apply (count_under q p Hq Hp Hqo Hpo Hne' k Hk). }
  rewrite <- (Zcount_swap (fun j k => q * j <? p * k)).
  rewrite <- Zsum_add.
  rewrite (Zsum_ext _ (fun _ => (q - 1) / 2)).
  - rewrite Zsum_const, (length_half_units p Hp Hpo). ring.
  - intros j Hj. apply (In_half_units p Hp Hpo) in Hj.
    rewrite Zcount_partition; [apply (length_half_units q Hq Hqo)|].
    intros k _. pose proof (off_diagonal p q Hp Hq Hpo Hne j k Hj).
    destruct (Z.ltb_spec (p * k) (q * j)), (Z.ltb_spec (q * j) (p * k));
      try reflexivity; exfalso; lia.
Qed.

(** ** Quadratic reciprocity, for [p = 1 mod 4] *)

Theorem reciprocity_mod4_1 (p q : Z) :
  Z.prime p -> Z.prime q -> p mod 4 = 1 -> q mod 2 = 1 -> p <> q ->
  (is_qr p q <-> is_qr q p).
Proof.
  intros Hp Hq H4 Hqo Hne.
  assert (Hpo : p mod 2 = 1) by (Z.div_mod_to_equations; lia).
  assert (Hne' : q <> p) by congruence.
  pose proof (distinct_primes_unit p q Hp Hq Hne) as Hpq.
  pose proof (distinct_primes_unit q p Hq Hp Hne') as Hqp.
  rewrite (gauss_qr_iff p q Hp Hpo Hpq), (gauss_qr_iff q p Hq Hqo Hqp).
  pose proof (eisenstein p q Hp Hpo Hpq Hqo) as E1.
  pose proof (eisenstein q p Hq Hqo Hqp Hpo) as E2.
  pose proof (floor_sums p q Hp Hq Hpo Hqo Hne) as Hf.
  fold (floor_sum p q) in E1. fold (floor_sum q p) in E2.
  assert (Heven : ((p - 1) / 2) mod 2 = 0) by (Z.div_mod_to_equations; lia).
  set (hp := (p - 1) / 2) in *. set (hq := (q - 1) / 2) in *.
  assert (Hprod : (hp * hq) mod 2 = 0).
  { rewrite Zmult_mod, Heven. reflexivity. }
  rewrite <- Hf in Hprod.
  generalize dependent (gauss_mu p q). generalize dependent (gauss_mu q p).
  generalize dependent (floor_sum p q). generalize dependent (floor_sum q p).
  intros. Z.div_mod_to_equations. lia.
Qed.

(** ** Residues form a group *)

Lemma is_qr_one (p : Z) : is_qr p 1.
Proof. exists 1. reflexivity. Qed.

Lemma is_qr_mul (p a b : Z) : is_qr p a -> is_qr p b -> is_qr p (a * b).
Proof.
  intros [y Hy] [z Hz]. exists (y * z).
  replace (y * z * (y * z)) with ((y * y) * (z * z)) by ring.
  rewrite Zmult_mod, Hy, Hz, <- Zmult_mod. reflexivity.
Qed.

Lemma is_qr_congr (p a b : Z) : a mod p = b mod p -> is_qr p a -> is_qr p b.
Proof. intros E [y Hy]. exists y. congruence. Qed.

Lemma is_qr_div (p m n : Z) :
  Z.prime p -> is_qr p (m * n) -> is_qr p m -> ~ (p | m) -> is_qr p n.
Proof.
  intros Hp [w Hw] [y Hy] Hm.
  pose proof (Z.prime_ge_2 p Hp) as Hp2.
  assert (Hyu : ~ (p | y)).
  { intros Hd. apply Hm. apply Z.mod_divide; [lia|].
    rewrite <- Hy. apply Z.mod0_divide. apply Z.divide_mul_l. exact Hd. }
  destruct (mod_solve p Hp y 1 Hyu) as (y' & _ & Hy').
  exists (w * y').
  apply mod_eq_divide in Hw, Hy, Hy'; try lia.
  apply mod_eq_divide; [lia|].
  assert (Hd : (p | y * (y * (w * y' * (w * y') - n)))).
  { replace (y * (y * (w * y' * (w * y') - n)))
      with ((w * w) * ((y * y' - 1) * (y * y' + 1))
            + (w * w - m * n) - (y * y - m) * n) by ring.
    apply Z.divide_sub_r; [apply Z.divide_add_r|].
    - apply Z.divide_mul_r, Z.divide_mul_l. exact Hy'.
    - exact Hw.
    - apply Z.divide_mul_l. exact Hy. }
  destruct (prime_divide_mul p Hp _ _ Hd) as [H | H]; [contradiction|].
  destruct (prime_divide_mul p Hp _ _ H) as [H' | H']; [contradiction|].
  exact H'.
Qed.

(** ** The least non-residue *)

Lemma filter_Zseq_head (f : Z -> bool) (k : nat) : forall lo g l,
  filter f (Zseq lo k) = g :: l ->
  f g = true /\ lo <= g < lo + Z.of_nat k /\
  forall x, lo <= x < g -> f x = false.
Proof.
  induction k as [|k IH]; intros lo g l; cbn [Zseq filter]; [discriminate|].
  destruct (f lo) eqn:E.
  - intros H. inversion H; subst. repeat split; try assumption; lia.
  - intros H. destruct (IH _ _ _ H) as (H1 & H2 & H3).
    repeat split; try assumption; try lia.
    intros x Hx. destruct (Z.eq_dec x lo) as [-> | Hne]; [exact E|].
    apply H3. lia.
Qed.

Section LeastNonResidue.

Variable p : Z.
Hypothesis p_prime : Z.prime p.
Hypothesis p_odd : p mod 2 = 1.

Let p_ge_2 : 2 <= p := Z.prime_ge_2 p p_prime.

Lemma is_qr_zero : is_qr p 0.
Proof. exists 0. reflexivity. Qed.

(** Every residue among the units is the square of one of
    [1 .. (p-1)/2]. *)
Lemma unit_square_of_half (u : Z) :
  In u (units p) -> is_qr p u ->
  In u (map (fun x => (x * x) mod p) (half_units p)).
Proof.
  intros Hu [y Hy]. apply (In_units p p_prime) in Hu.
  rewrite (Z.mod_small u p) in Hy by lia.
  pose proof (half_double p p_odd) as Hh.
  pose proof (Z.mod_pos_bound y p ltac:(lia)) as Hr.
  rewrite Zmult_mod in Hy.
  assert (Hr0 : y mod p <> 0).
  { intros E. rewrite E, Z.mul_0_l, Zmod_0_l in Hy. lia. }
  apply in_map_iff.
  destruct (Z_le_gt_dec (y mod p) ((p - 1) / 2)) as [Hle | Hgt].
  - exists (y mod p). split; [exact Hy|].
    apply (In_half_units p p_prime p_odd). lia.
  - exists (p - y mod p). split.
    + rewrite <- Hy. apply mod_eq_divide; [lia|].
      exists (p - 2 * (y mod p)). ring.
    + apply (In_half_units p p_prime p_odd). lia.
Qed.

Lemma non_residue_exists : exists g, In g (units p) /\ ~ is_qr p g.
Proof.
  destruct (filter (fun u => negb (is_qrb p u)) (units p)) as [|g l] eqn:F.
  - exfalso.
    assert (Hall : forall u, In u (units p) -> is_qr p u).
    { intros u Hu. apply (is_qrb_spec p u); [lia|].
      destruct (is_qrb p u) eqn:E; [reflexivity|].
      assert (Hin : In u (filter (fun u => negb (is_qrb p u)) (units p))).
      { apply filter_In. rewrite E. auto. }
      rewrite F in Hin. destruct Hin. }
    assert (Hincl : incl (units p)
                      (map (fun x => (x * x) mod p) (half_units p))).
    { intros u Hu. apply unit_square_of_half; auto. }
    apply NoDup_incl_length in Hincl; [|apply NoDup_Zseq].
    rewrite length_map in Hincl. unfold units, half_units in Hincl.
    rewrite !length_Zseq in Hincl.
    pose proof (half_double p p_odd). lia.
  - exists g.
    assert (Hin : In g (filter (fun u => negb (is_qrb p u)) (units p)))
      by (rewrite F; apply in_eq).
    apply filter_In in Hin. destruct Hin as [Hg Hb]. split; [exact Hg|].
    apply negb_true_iff in Hb. apply not_is_qr_by_search; [lia|exact Hb].
Qed.

Lemma least_qnr_exists : exists g, least_qnr p g /\ 1 < g < p.
Proof.
  destruct (filter (fun u => negb (is_qrb p u)) (units p)) as [|g l] eqn:F.
  - exfalso. destruct non_residue_exists as (g & Hg & Hq).
    assert (Hin : In g (filter (fun u => negb (is_qrb p u)) (units p))).
    { apply filter_In. split; [exact Hg|]. apply negb_true_iff.
      destruct (is_qrb p g) eqn:E; [|reflexivity].
      exfalso. apply Hq. apply (is_qrb_spec p g); [lia|exact E]. }
    rewrite F in Hin. destruct Hin.
  - unfold units in F. destruct (filter_Zseq_head _ _ _ _ _ F) as (Hb & Hr & Hl).
    apply negb_true_iff in Hb.
    assert (Hq : ~ is_qr p g) by (apply not_is_qr_by_search; [lia|exact Hb]).
    assert (Hg1 : g <> 1) by (intros ->; apply Hq, is_qr_one).
    exists g. split; [|lia]. split; [lia|]. split; [exact Hq|].
    intros x Hx. apply (is_qrb_spec p x); [lia|].
    specialize (Hl x ltac:(lia)). apply negb_false_iff in Hl. exact Hl.
Qed.

Variable g : Z.
Hypothesis g_least : least_qnr p g.

Lemma least_qnr_gt_1 : 1 < g.
Proof.
  destruct g_least as (Hg & Hq & _).
  assert (g <> 1) by (intros ->; apply Hq, is_qr_one). lia.
Qed.

Lemma least_qnr_lt : g < p.
Proof.
  destruct g_least as (Hg & Hq & Hl).
  destruct (Z_lt_le_dec g p) as [H | H]; [exact H|]. exfalso.
  pose proof (Z.mod_pos_bound g p ltac:(lia)) as Hr.
  apply Hq. apply (is_qr_congr p (g mod p)); [apply Zmod_mod|].
  destruct (Z.eq_dec (g mod p) 0) as [E | E].
  - rewrite E. apply is_qr_zero.
  - apply Hl. lia.
Qed.

Lemma least_qnr_prime : Z.prime g.
Proof.
  pose proof least_qnr_gt_1 as Hg1.
  destruct g_least as (Hg & Hq & Hl).
  split; [exact Hg1|]. intros n Hn [m Hm]. apply Hq.
  rewrite Hm. apply is_qr_mul; apply Hl; nia.
Qed.

Lemma least_qnr_bound : (g - 1) * (g - 1) < p.
Proof.
  pose proof least_qnr_gt_1 as Hg1. pose proof least_qnr_lt as Hgp.
  pose proof least_qnr_prime as Hgprime.
  destruct g_least as (Hg & Hq & Hl).
  pose proof (Z.div_mod p g ltac:(lia)) as Hdm.
  pose proof (Z.mod_pos_bound p g ltac:(lia)) as Hr.
  assert (Hr0 : p mod g <> 0).
  { intros E. apply Z.mod_divide in E; [|lia].
    pose proof p_prime as [_ Hp]. apply (Hp g); [lia|exact E]. }
  set (m := p / g + 1).
  assert (Hm : m * g = p + (g - p mod g)) by (unfold m; lia).
  assert (Hm0 : 0 < m).
  { unfold m. assert (0 <= p / g) by (apply Z.div_pos; lia). lia. }
  assert (Hmp : m < p).
  { unfold m. assert (p / g <= p / 2) by (apply Z.div_le_compat_l; lia).
    assert (p / 2 < p - 1) by (Z.div_mod_to_equations; lia). lia. }
  assert (Hqm : ~ is_qr p m).
  { intros Hqr. apply Hq. apply (is_qr_div p m g p_prime); [|exact Hqr|].
    - apply (is_qr_congr p (g - p mod g)); [|apply Hl; lia].
      rewrite Hm. replace (p + (g - p mod g)) with ((g - p mod g) + 1 * p)
        by ring. symmetry. apply Z_mod_plus_full.
    - intros Hd. apply Z.divide_pos_le in Hd; lia. }
  assert (Hge : g <= m).
  { destruct (Z_le_gt_dec g m) as [H | H]; [exact H|].
    exfalso. apply Hqm. apply Hl. lia. }
  nia.
Qed.

End LeastNonResidue.

(** ** The test of the search *)

Lemma odd_prime_ge_3 (q : Z) : Z.prime q -> q mod 2 = 1 -> 3 <= q.
Proof.
  intros Hq Ho. pose proof (Z.prime_ge_2 q Hq).
  destruct (Z.eq_dec q 2) as [-> | E]; [discriminate Ho|lia].
Qed.

Lemma prime_ge_3_odd (q : Z) : Z.prime q -> 3 <= q -> q mod 2 = 1.
Proof.
  intros Hq H3. destruct (Z.eq_dec (q mod 2) 0) as [E | E].
  - apply Z.mod_divide in E; [|lia].
    pose proof (two_divides_prime q Hq E). lia.
  - Z.div_mod_to_equations; lia.
Qed.

(** Euler's criterion as the source tests it: [q] passes exactly when [p]
    is a non-residue modulo [q]. *)
Lemma euler_test_spec (p q : Z) :
  Z.prime q -> q mod 2 = 1 -> ~ (q | p) ->
  (euler_test p q = true <-> ~ is_qr q p).
Proof.
  intros Hq Ho Hu. pose proof (odd_prime_ge_3 q Hq Ho) as H3.
  unfold euler_test. rewrite Z.eqb_eq, Z.mod_pow_l. split.
  - intros E Hqr. rewrite (euler_criterion_qr q Hq Ho p Hqr Hu) in E. lia.
  - intros Hn. apply (euler_criterion_qnr q Hq Ho p Hn).
Qed.

(** The loop over an increasing list stops at the first candidate that
    passes. *)
Lemma search_candidates_first (p : Z) (f : Z -> bool) (n : Z) (k : nat) :
  forall lo,
  lo <= n < lo + Z.of_nat k -> f n = true -> euler_test p n = true ->
  (forall q, lo <= q < n -> f q = true -> euler_test p q = false) ->
  fst (search_candidates p (filter f (Zseq lo k))) = Some n.
Proof.
  induction k as [|k IH]; intros lo Hn Hf Ht Hbelow; [lia|].
  cbn [Zseq filter].
  destruct (Z.eq_dec lo n) as [-> | Hne].
  - rewrite Hf. cbn [search_candidates]. unfold euler_test in Ht.
    rewrite Ht. reflexivity.
  - destruct (f lo) eqn:E.
    + cbn [search_candidates].
      pose proof (Hbelow lo ltac:(lia) E) as Hlo. unfold euler_test in Hlo.
      rewrite Hlo. apply IH; try assumption; [lia|].
      intros q Hq. apply Hbelow. lia.
    + apply IH; try assumption; [lia|].
      intros q Hq. apply Hbelow. lia.
Qed.

(** ** The residues 3 modulo [p] and [p] modulo 3 *)

Lemma prime_3 : Z.prime 3.
Proof. apply isprime_spec. reflexivity. Qed.

Lemma three_qr_iff (p : Z) :
  Z.prime p -> p mod 4 = 1 -> (is_qr p 3 <-> p mod 3 = 1).
Proof.
  intros Hp H4.
  assert (Hne : p <> 3) by (intros ->; discriminate H4).
  rewrite (reciprocity_mod4_1 p 3 Hp prime_3 H4 eq_refl Hne).
  rewrite <- (is_qrb_spec 3 p) by lia. unfold is_qrb.
  assert (H3 : p mod 3 = 0 \/ p mod 3 = 1 \/ p mod 3 = 2)
    by (pose proof (Z.mod_pos_bound p 3); lia).
  destruct H3 as [E | [E | E]]; rewrite E.
  - exfalso. apply Z.mod_divide in E; [|lia].
    pose proof Hp as [_ Hp']. apply (Hp' 3); [|exact E].
    pose proof (Z.prime_ge_2 p Hp). apply Z.divide_pos_le in E; lia.
  - split; reflexivity.
  - split; discriminate.
Qed.

(** ** [find_quadratic_nonresidue(p, None)] *)

Section FindNonResidue.

Variable p : Z.
Hypothesis p_prime : Z.prime p.
Hypothesis p_mod4 : p mod 4 = 1.

Let p_ge_2 : 2 <= p := Z.prime_ge_2 p p_prime.

Lemma p_is_odd : p mod 2 = 1.
Proof. pose proof p_mod4. Z.div_mod_to_equations; lia. Qed.

Lemma find_mod8_5 :
  p mod 8 = 5 ->
  find_quadratic_nonresidue p None = (Some 2, None) /\ least_qnr p 2.
Proof.
  intros H8. split.
  - unfold find_quadratic_nonresidue. rewrite H8. reflexivity.
  - split; [lia|]. split; [apply two_qnr_mod8_5; assumption|].
    intros x Hx. assert (x = 1) by lia. subst x. apply is_qr_one.
Qed.

Lemma mod8_is_1 : p mod 8 <> 5 -> p mod 8 = 1.
Proof.
  intros H8. pose proof p_mod4 as H4. Z.div_mod_to_equations; lia.
Qed.

Lemma find_mod3_2 :
  p mod 8 <> 5 -> p mod 3 = 2 ->
  find_quadratic_nonresidue p None = (Some 3, None) /\ least_qnr p 3.
Proof.
  intros H8 H3. pose proof (mod8_is_1 H8) as H81. split.
  - unfold find_quadratic_nonresidue. rewrite H81, H3. reflexivity.
  - split; [lia|]. split.
    + intros Hq. apply (three_qr_iff p p_prime p_mod4) in Hq. lia.
    + intros x Hx. assert (Hc : x = 1 \/ x = 2) by lia.
      destruct Hc as [-> | ->];
        [apply is_qr_one|apply two_qr_mod8_1; assumption].
Qed.

Lemma find_search :
  p mod 8 <> 5 -> p mod 3 <> 2 ->
  exists g,
    find_quadratic_nonresidue p None = (Some g, None) /\ least_qnr p g /\
    Z.prime g /\ 5 <= g <= Z.sqrt p + 1 /\
    In g (primerange 5 (BSqrtPlus1 p)) /\
    euler_test p g = true /\
    (forall q, Z.prime q -> 5 <= q < g -> euler_test p q = false).
Proof.
  intros H8 H3. pose proof (mod8_is_1 H8) as H81.
  pose proof p_is_odd as Hodd.
  destruct (least_qnr_exists p p_prime Hodd) as (g & Hleast & Hg1).
  pose proof (least_qnr_prime p g Hleast) as Hgprime.
  pose proof (least_qnr_bound p p_prime Hodd g Hleast) as Hbound.
  pose proof Hleast as (Hg0 & Hgq & Hgl).
  (* 2, 3 and 4 are residues *)
  assert (Hq2 : is_qr p 2) by (apply two_qr_mod8_1; assumption).
  assert (Hq3 : is_qr p 3).
  { apply (three_qr_iff p p_prime p_mod4).
    assert (Hc : p mod 3 = 0 \/ p mod 3 = 1 \/ p mod 3 = 2)
      by (pose proof (Z.mod_pos_bound p 3); lia).
    destruct Hc as [E | [E | E]]; [|exact E|contradiction].
    exfalso. apply Z.mod_divide in E; [|lia].
    pose proof p_prime as [_ Hp']. apply (Hp' 3); [|exact E].
    apply Z.divide_pos_le in E; [|lia].
    assert (p <> 3) by (intros Ep; pose proof p_mod4 as H4;
                        rewrite Ep in H4; discriminate H4). lia. }
  assert (Hq4 : is_qr p 4) by (apply (is_qr_mul p 2 2); assumption).
  assert (Hg5 : 5 <= g).
  { destruct (Z_le_gt_dec 5 g) as [H | H]; [exact H|]. exfalso.
    assert (Hc : g = 2 \/ g = 3 \/ g = 4) by lia.
    destruct Hc as [-> | [-> | ->]]; contradiction. }
  assert (Hgodd : g mod 2 = 1) by (apply prime_ge_3_odd; [assumption|lia]).
  assert (Htest : forall q, Z.prime q -> 5 <= q <= g ->
            (euler_test p q = true <-> ~ is_qr p q)).
  { intros q Hq Hr.
    assert (Hqodd : q mod 2 = 1) by (apply prime_ge_3_odd; [assumption|lia]).
    assert (Hne : p <> q) by lia.
    rewrite (reciprocity_mod4_1 p q p_prime Hq p_mod4 Hqodd Hne).
    apply euler_test_spec; try assumption.
    apply (distinct_primes_unit q p Hq p_prime). congruence. }
  assert (Hsqrt : g - 1 <= Z.sqrt p).
  { apply Z.sqrt_le_square; lia. }
  assert (Hin : In g (primerange 5 (BSqrtPlus1 p))).
  { apply In_primerange. split; [exact Hg5|]. split; [exact Hgprime|].
    cbn [lt_bound]. apply orb_true_iff. right. apply Z.ltb_lt. exact Hbound. }
  assert (Htg : euler_test p g = true) by (apply Htest; [assumption|lia|assumption]).
  assert (Hbelow : forall q, Z.prime q -> 5 <= q < g -> euler_test p q = false).
  { intros q Hq Hr. destruct (euler_test p q) eqn:E; [|reflexivity].
    exfalso. apply (Htest q Hq ltac:(lia)) in E. apply E. apply Hgl. lia. }
  exists g.
  split; [|split; [exact Hleast|split; [exact Hgprime|split; [lia|
           split; [exact Hin|split; [exact Htg|exact Hbelow]]]]]].
  unfold find_quadratic_nonresidue.
  replace (p mod 8 =? 5) with false by (symmetry; apply Z.eqb_neq; exact H8).
  replace (p mod 3 =? 2) with false by (symmetry; apply Z.eqb_neq; exact H3).
  rewrite H81. cbn [Z.eqb Pos.eqb]. f_equal.
  unfold primerange in *. apply filter_In in Hin. destruct Hin as [Hrange Hf].
  apply In_Zseq in Hrange.
  apply search_candidates_first; try assumption.
  intros q Hr Hfq. apply andb_true_iff in Hfq. destruct Hfq as [Hpq _].
  apply Hbelow; [apply isprime_spec; exact Hpq|lia].
Qed.

End FindNonResidue.

(** C6: for a prime [p = 1 mod 4], [find_quadratic_nonresidue(p, None)]
    returns the least quadratic non-residue [g] modulo [p]: 2 if
    [p mod 8 = 5], else 3 if [p mod 3 = 2], else the first prime [q >= 5]
    with [(p mod q)^((q-1)/2) mod q = q - 1]; in the last case the search
    over the primes of [[5, isqrt(p) + 1]] finds it. *)
Theorem find_quadratic_nonresidue_least (p : Z) :
  Z.prime p -> p mod 4 = 1 ->
  exists g,
    find_quadratic_nonresidue p None = (Some g, None) /\
    least_qnr p g /\
    (p mod 8 = 5 -> g = 2) /\
    (p mod 8 <> 5 -> p mod 3 = 2 -> g = 3) /\
    (p mod 8 <> 5 -> p mod 3 <> 2 ->
       Z.prime g /\ 5 <= g <= Z.sqrt p + 1 /\
       In g (primerange 5 (BSqrtPlus1 p)) /\
       euler_test p g = true /\
       (forall q, Z.prime q -> 5 <= q < g -> euler_test p q = false)).
Proof.
  intros Hp H4.
  destruct (Z.eq_dec (p mod 8) 5) as [H8 | H8].
  - destruct (find_mod8_5 p Hp H8) as [Hf Hl].
    exists 2. split; [exact Hf|]. split; [exact Hl|].
    split; [reflexivity|]. split; intros Hn; contradiction.
  - destruct (Z.eq_dec (p mod 3) 2) as [H3 | H3].
    + destruct (find_mod3_2 p Hp H4 H8 H3) as [Hf Hl].
      exists 3. split; [exact Hf|]. split; [exact Hl|].
      split; [contradiction|]. split; [reflexivity|contradiction].
    + destruct (find_search p Hp H4 H8 H3) as (g & Hf & Hl & Hrest).
      exists g. split; [exact Hf|]. split; [exact Hl|].
      split; [contradiction|]. split; [contradiction|]. intros _ _. exact Hrest.
Qed.

Lemma find_quadratic_nonresidue_least_witness :
  exists g,
    find_quadratic_nonresidue 73 None = (Some g, None) /\
    least_qnr 73 g /\
    (73 mod 8 = 5 -> g = 2) /\
    (73 mod 8 <> 5 -> 73 mod 3 = 2 -> g = 3) /\
    (73 mod 8 <> 5 -> 73 mod 3 <> 2 ->
       Z.prime g /\ 5 <= g <= Z.sqrt 73 + 1 /\
       In g (primerange 5 (BSqrtPlus1 73)) /\
       euler_test 73 g = true /\
       (forall q, Z.prime q -> 5 <= q < g -> euler_test 73 q = false)).
Proof.
  apply (find_quadratic_nonresidue_least 73).
  - apply isprime_spec. vm_compute. reflexivity.
  - reflexivity.
Defined.

(** ** The contract of [factorint] *)

Lemma multiplicity_spec (fuel : nat) : forall n d,
  1 < d -> 0 < n < 2 ^ (Z.of_nat fuel + 1) ->
  0 <= fst (multiplicity fuel n d) /\
  n = d ^ fst (multiplicity fuel n d) * snd (multiplicity fuel n d) /\
  0 < snd (multiplicity fuel n d) /\
  ~ (d | snd (multiplicity fuel n d)).
Proof.
  induction fuel as [|fuel IH]; intros n d Hd Hn; cbn [multiplicity].
  - cbn [fst snd]. change (2 ^ (Z.of_nat 0 + 1)) with 2 in Hn.
    assert (n = 1) by lia. subst n.
    repeat split; try lia. intros H. apply Z.divide_1_r in H. lia.
  - destruct (Z.eqb_spec (n mod d) 0) as [E | E].
    + apply Z.mod_divide in E; [|lia]. destruct E as [k Hk].
      assert (Hdiv : n / d = k) by (rewrite Hk; apply Z.div_mul; lia).
      rewrite Hdiv.
      assert (Hk0 : 0 < k) by nia.
      assert (Hk2 : k < 2 ^ (Z.of_nat fuel + 1)).
      { replace (Z.of_nat (S fuel) + 1) with (Z.succ (Z.of_nat fuel + 1)) in Hn
          by lia.
        rewrite Z.pow_succ_r in Hn by lia. nia. }
      destruct (IH k d Hd (conj Hk0 Hk2)) as (H1 & H2 & H3 & H4).
      destruct (multiplicity fuel k d) as [e m]. cbn [fst snd] in *.
      repeat split; try lia; try assumption.
      rewrite Z.pow_add_r, Z.pow_1_r by lia. rewrite Hk, H2 at 1. ring.
    + cbn [fst snd]. repeat split; try lia.
      intros H. apply E. apply Z.mod0_divide. exact H.
Qed.

Lemma prime_of_no_small_divisor (n d : Z) :
  1 < n -> 0 <= d -> n < d * d -> (forall k, 2 <= k < d -> ~ (k | n)) ->
  Z.prime n.
Proof.
  intros Hn Hd0 Hd Hk. split; [exact Hn|]. intros k Hr [m Hm].
  assert (Hm1 : 1 < m < n) by nia.
  destruct (Z_lt_le_dec k d) as [H | H].
  - apply (Hk k); [lia|]. exists m. exact Hm.
  - apply (Hk m); [|exists k; rewrite Hm; ring]. split; [lia|].
    destruct (Z_lt_le_dec m d) as [H' | H']; [exact H'|].
    assert (d * d <= m * k) by (apply Z.mul_le_mono_nonneg; lia). lia.
Qed.

Lemma factors_from_weaken (l : list (Z * Z)) (d d' : Z) :
  d <= d' -> factors_from d' l -> factors_from d l.
Proof.
  destruct l as [|pe l]; cbn [factors_from]; [trivial|].
  intros Hd (H1 & H2 & H3 & H4).
  split; [lia|]. split; [exact H2|]. split; [exact H3|exact H4].
Qed.

Lemma final_factor (n d : Z) :
  0 < n -> 2 <= d -> n < d * d -> (forall k, 2 <= k < d -> ~ (k | n)) ->
  let l := if 1 <? n then [(n, 1)] else [] in
  factors_prod l = n /\ factors_from d l.
Proof.
  intros Hn Hd Hlt Hk. destruct (Z.ltb_spec 1 n) as [H | H]; cbn zeta.
  - split; [cbn; lia|]. cbn [factors_from fst snd].
    split; [|split; [|split; [lia|exact I]]].
    + destruct (Z_le_gt_dec d n) as [Hle | Hgt]; [exact Hle|].
      exfalso. apply (Hk n); [lia|apply Z.divide_refl].
    + apply (prime_of_no_small_divisor n d); try assumption. lia.
  - split; [cbn; lia|exact I].
Qed.

Lemma trial_spec (fuel : nat) : forall n d,
  0 < n -> 2 <= d -> (forall k, 2 <= k < d -> ~ (k | n)) ->
  Z.sqrt n + 1 < d + Z.of_nat fuel + 1 ->
  factors_prod (trial fuel n d) = n /\ factors_from d (trial fuel n d).
Proof.
  induction fuel as [|fuel IH]; intros n d Hn Hd Hk Hfuel; cbn [trial].
  - apply final_factor; try assumption.
    pose proof (Z.sqrt_spec n ltac:(lia)) as Hs. cbv zeta in Hs. nia.
  - destruct (Z.ltb_spec n (d * d)) as [Hlt | Hge].
    { apply final_factor; assumption. }
    pose proof (Z.log2_spec n Hn) as Hlog.
    destruct (multiplicity_spec (Z.to_nat (Z.log2 n)) n d ltac:(lia))
      as (He & Hprod & Hm & Hnd).
    { rewrite Z2Nat.id by apply Z.log2_nonneg.
      replace (Z.log2 n + 1) with (Z.succ (Z.log2 n)) by lia. lia. }
    destruct (multiplicity (Z.to_nat (Z.log2 n)) n d) as [e m].
    cbn [fst snd] in *.
    assert (Hpow : 0 < d ^ e) by (apply Z.pow_pos_nonneg; lia).
    assert (Hmn : m <= n) by nia.
    assert (Hsm : Z.sqrt m <= Z.sqrt n) by (apply Z.sqrt_le_mono; exact Hmn).
    destruct (Z.ltb_spec 0 e) as [Hpos | Hzero].
    + assert (Hdn : (d | n)).
      { rewrite Hprod. apply Z.divide_mul_l.
        replace e with (Z.succ (e - 1)) by lia.
        rewrite Z.pow_succ_r by lia. apply Z.divide_factor_l. }
      destruct (IH m (d + 1)) as [IH1 IH2]; try lia.
      { intros k Hr Hkm. destruct (Z.eq_dec k d) as [-> | Hne];
          [contradiction|].
        apply (Hk k); [lia|]. rewrite Hprod. apply Z.divide_mul_r. exact Hkm. }
      split.
      * cbn [factors_prod fold_right fst snd].
        fold (factors_prod (trial fuel m (d + 1))). rewrite IH1. lia.
      * cbn [factors_from fst snd]. split; [lia|]. split; [|split; [lia|exact IH2]].
        split; [lia|]. intros k Hr Hkd. apply (Hk k); [lia|].
        eapply Z.divide_trans; eassumption.
    + assert (e = 0) by lia. subst e. rewrite Z.pow_0_r, Z.mul_1_l in Hprod.
      subst m.
      destruct (IH n (d + 1)) as [IH1 IH2]; try lia.
      { intros k Hr Hkm. destruct (Z.eq_dec k d) as [-> | Hne];
          [contradiction|]. apply (Hk k); [lia|exact Hkm]. }
      split; [exact IH1|]. apply (factors_from_weaken _ d (d + 1)); [lia|exact IH2].
Qed.

Theorem factorint_spec (n : Z) :
  0 < n -> factors_prod (factorint n) = n /\ factors_from 2 (factorint n).
Proof.
  intros Hn. apply trial_spec; lia.
Qed.

Lemma factors_prod_cons (pe : Z * Z) (l : list (Z * Z)) :
  factors_prod (pe :: l) = fst pe ^ snd pe * factors_prod l.
Proof. reflexivity. Qed.

Lemma factors_prod_pos (l : list (Z * Z)) (d : Z) :
  factors_from d l -> 0 < factors_prod l.
Proof.
  revert d. induction l as [|pe l IH]; intros d; cbn [factors_from].
  - intros _. reflexivity.
  - intros (H1 & H2 & H3 & H4). rewrite factors_prod_cons.
    pose proof (Z.prime_ge_2 _ H2).
    apply Z.mul_pos_pos; [apply Z.pow_pos_nonneg; lia|apply (IH _ H4)].
Qed.

Lemma prime_divides_pow (q p e : Z) :
  Z.prime q -> Z.prime p -> 0 <= e -> (q | p ^ e) -> q = p.
Proof.
  intros Hq Hp He. pattern e. apply natlike_ind; [| |exact He].
  - rewrite Z.pow_0_r. intros H. apply Z.divide_1_r in H.
    pose proof (Z.prime_ge_2 q Hq). lia.
  - intros x Hx IH. rewrite Z.pow_succ_r by assumption. intros H.
    destruct (prime_divide_mul q Hq _ _ H) as [H1 | H1]; [|auto].
    pose proof (Z.prime_ge_2 q Hq). pose proof (Z.prime_ge_2 p Hp).
    destruct (Z.eq_dec q p) as [E | E]; [exact E|]. exfalso.
    pose proof Hp as [_ Hp']. apply (Hp' q); [|exact H1].
    apply Z.divide_pos_le in H1; lia.
Qed.

Lemma factors_from_coprime (l : list (Z * Z)) : forall d q,
  factors_from d l -> Z.prime q -> q < d -> ~ (q | factors_prod l).
Proof.
  induction l as [|pe l IH]; intros d q; cbn [factors_from].
  - intros _ Hq _ H. cbn in H. apply Z.divide_1_r in H.
    pose proof (Z.prime_ge_2 q Hq). lia.
  - intros (H1 & H2 & H3 & H4) Hq Hlt. rewrite factors_prod_cons. intros H.
    destruct (prime_divide_mul q Hq _ _ H) as [Hd | Hd].
    + apply prime_divides_pow in Hd; try assumption; lia.
    + apply (IH (fst pe + 1) q); try assumption. lia.
Qed.

(** ** The divisor sum of a factorization *)

Lemma geom_one (k : nat) : geom 1 k = Z.of_nat k + 1.
Proof. induction k as [|k IH]; cbn [geom]; [reflexivity|]. rewrite IH. lia. Qed.

Lemma geom_zero (k : nat) : geom 0 k = 1.
Proof. destruct k; reflexivity. Qed.

Lemma geom_minus_one (k : nat) : geom (-1) k = if Nat.even k then 1 else 0.
Proof.
  induction k as [|k IH]; [reflexivity|].
  cbn [geom]. rewrite IH, Nat.even_succ, <- Nat.negb_even.
  destruct (Nat.even k); reflexivity.
Qed.

Lemma divisor_sum_prime_power (p m : Z) (k : nat) :
  Z.prime p -> 0 < m -> ~ (p | m) ->
  divisor_sum (p ^ Z.of_nat k * m) = geom (chi4 p) k * divisor_sum m /\
  divisor_sum (p ^ Z.of_nat (S k) * m) = geom (chi4 p) (S k) * divisor_sum m.
Proof.
  intros Hp Hm Hnd. pose proof (Z.prime_ge_2 p Hp) as Hp2.
  assert (Hstep : forall j, p ^ Z.of_nat (S j) * m = p * (p ^ Z.of_nat j * m)).
  { intros j. rewrite Nat2Z.inj_succ, Z.pow_succ_r by lia. ring. }
  assert (Hpos : forall j, 0 < p ^ Z.of_nat j * m).
  { intros j. apply Z.mul_pos_pos; [apply Z.pow_pos_nonneg; lia|exact Hm]. }
  induction k as [|k [IH1 IH2]].
  - split.
    + rewrite Z.pow_0_r, Z.mul_1_l. cbn [geom]. ring.
    + rewrite Hstep, (divisor_sum_rec p _ Hp (Hpos 0%nat)).
      rewrite Z.pow_0_r, Z.mul_1_l.
      destruct (Z.eqb_spec (m mod p) 0) as [E | E].
      * exfalso. apply Hnd. apply Z.mod_divide; [lia|exact E].
      * cbn [geom]. ring.
  - split; [exact IH2|].
    rewrite Hstep, (divisor_sum_rec p _ Hp (Hpos (S k))).
    assert (Hmod : (p ^ Z.of_nat (S k) * m) mod p = 0).
    { rewrite Hstep. rewrite Z.mul_comm. apply Z_mod_mult. }
    rewrite Hmod. cbn [Z.eqb].
    assert (Hdiv : p ^ Z.of_nat (S k) * m / p = p ^ Z.of_nat k * m).
    { rewrite Hstep, Z.mul_comm. apply Z_div_mult_full. lia. }
    rewrite Hdiv, IH1, IH2. cbn [geom]. ring.
Qed.

Lemma divisor_sum_factors (fac : list (Z * Z)) : forall d,
  factors_from d fac -> divisor_sum (factors_prod fac) = geom_prod fac.
Proof.
  induction fac as [|pe fac IH]; intros d; cbn [factors_from].
  - intros _. reflexivity.
  - intros (H1 & H2 & H3 & H4). rewrite factors_prod_cons.
    cbn [geom_prod fold_right]. fold (geom_prod fac).
    rewrite <- (IH _ H4).
    rewrite <- (Z2Nat.id (snd pe)) at 1 by lia.
    apply (divisor_sum_prime_power (fst pe) (factors_prod fac)).
    + exact H2.
    + apply (factors_prod_pos _ _ H4).
    + apply (factors_from_coprime fac (fst pe + 1)); [exact H4|exact H2|lia].
Qed.

(** ** The count that [sum_of_two_squares] computes *)

Lemma prod_Zprod (l : list Z) : prod l = Zprod l.
Proof.
  unfold prod.
  assert (H : forall a, fold_left Z.mul l a = a * Zprod l).
  { induction l as [|x l IH]; intros a; cbn [fold_left Zprod fold_right].
    - ring.
    - fold (Zprod l). rewrite IH. ring. }
  rewrite H. ring.
Qed.

Lemma land_one (e : Z) : 0 <= e -> Z.land e 1 = e mod 2.
Proof. intros He. apply (Z.land_ones e 1). lia. Qed.

Lemma even_to_nat (e : Z) :
  0 <= e -> Nat.even (Z.to_nat e) = (e mod 2 =? 0).
Proof.
  intros He. rewrite <- (Z2Nat.id e) at 2 by exact He.
  generalize (Z.to_nat e). intros k.
  destruct (Nat.even k) eqn:E.
  - apply Nat.even_spec in E. destruct E as [j ->].
    rewrite Nat2Z.inj_mul, Z.mul_comm, Z_mod_mult. reflexivity.
  - assert (O : Nat.odd k = true) by (rewrite <- Nat.negb_even, E; reflexivity).
    apply Nat.odd_spec in O. destruct O as [j ->].
    rewrite Nat2Z.inj_add, Nat2Z.inj_mul.
    replace (Z.of_nat 2 * Z.of_nat j + Z.of_nat 1)
      with (1 + Z.of_nat j * 2) by lia.
    rewrite Z_mod_plus_full. reflexivity.
Qed.

Lemma infeasible_geom_prod (fac : list (Z * Z)) : forall d,
  factors_from d fac -> infeasible fac = true -> geom_prod fac = 0.
Proof.
  induction fac as [|pe fac IH]; intros d; cbn [factors_from infeasible existsb].
  - discriminate.
  - intros (H1 & H2 & H3 & H4) H. cbn [geom_prod fold_right].
    fold (geom_prod fac). fold (infeasible fac) in H.
    apply orb_true_iff in H. destruct H as [H | H].
    + apply andb_true_iff in H. destruct H as [Hp He].
      apply Z.eqb_eq in Hp. apply negb_true_iff in He.
      rewrite (chi4_mod3 _ Hp), geom_minus_one, even_to_nat by lia.
      rewrite land_one in He by lia. rewrite He. ring.
    + rewrite (IH _ H4 H). ring.
Qed.

Lemma feasible_geom_prod (fac : list (Z * Z)) : forall d,
  factors_from d fac -> infeasible fac = false ->
  count_formula fac = 4 * geom_prod fac.
Proof.
  unfold count_formula. rewrite prod_Zprod.
  induction fac as [|pe fac IH]; intros d; cbn [factors_from infeasible existsb].
  - intros _ _. reflexivity.
  - intros (H1 & H2 & H3 & H4) H. fold (infeasible fac) in H.
    apply orb_false_iff in H. destruct H as [H Hrest].
    cbn [map Zprod fold_right geom_prod].
    fold (geom_prod fac).
    fold (Zprod (map (fun pe => if fst pe mod 4 =? 1 then snd pe + 1 else 1) fac)).
    specialize (IH _ H4 Hrest).
    assert (Hg : geom (chi4 (fst pe)) (Z.to_nat (snd pe))
                 = if fst pe mod 4 =? 1 then snd pe + 1 else 1).
    { destruct (Z.eqb_spec (fst pe mod 4) 1) as [E1 | E1].
      - rewrite (chi4_mod1 _ E1), geom_one. lia.
      - destruct (Z.eqb_spec (fst pe mod 4) 3) as [E3 | E3].
        + rewrite (chi4_mod3 _ E3), geom_minus_one, even_to_nat by lia.
          cbn [andb] in H. apply negb_false_iff in H.
          rewrite land_one in H by lia. rewrite H. reflexivity.
        + unfold chi4.
          destruct (Z.eqb_spec (fst pe mod 4) 1); [contradiction|].
          destruct (Z.eqb_spec (fst pe mod 4) 3); [contradiction|].
          apply geom_zero. }
    rewrite Hg. lia.
Qed.

(** ** The outcome of the first loop *)

Lemma prime_reps_step_return (shared : bool) (p e : Z) (st : list Z * dict)
  (r : Z * list (Z * Z)) :
  prime_reps_step shared p e st = Return r ->
  r = (0, []) /\ (p mod 4 =? 3) && negb (Z.land e 1 =? 0) = true.
Proof.
  unfold prime_reps_step. destruct st as [candidates prime_reps].
  destruct (p mod 4 =? 3).
  - destruct (negb (Z.land e 1 =? 0)); [|discriminate].
    intros H. inversion H. auto.
  - destruct (p mod 4 =? 1); [|discriminate].
    destruct (if shared then _ else _) as [[g|] [rest|]]; try discriminate.
    destruct (descent p p _); discriminate.
Qed.

Lemma prime_reps_step_continue (shared : bool) (p e : Z)
  (st st' : list Z * dict) :
  prime_reps_step shared p e st = Continue st' ->
  (p mod 4 =? 3) && negb (Z.land e 1 =? 0) = false.
Proof.
  unfold prime_reps_step. destruct st as [candidates prime_reps].
  destruct (p mod 4 =? 3); [|reflexivity].
  destruct (negb (Z.land e 1 =? 0)); [discriminate|reflexivity].
Qed.

Lemma prime_reps_loop_return (shared : bool) (fac : list (Z * Z)) :
  forall st r, prime_reps_loop shared fac st = Return r ->
  r = (0, []) /\ infeasible fac = true.
Proof.
  induction fac as [|[p e] fac IH]; intros st r; cbn [prime_reps_loop].
  - discriminate.
  - cbn [infeasible existsb fst snd]. fold (infeasible fac).
    destruct (prime_reps_step shared p e st) as [st' | r' | err] eqn:E.
    + intros H. apply IH in H. destruct H as [-> ->].
      split; [reflexivity|apply orb_true_r].
    + intros H. inversion H; subst r'.
      apply prime_reps_step_return in E. destruct E as [-> ->]. auto.
    + discriminate.
Qed.

Lemma prime_reps_loop_continue (shared : bool) (fac : list (Z * Z)) :
  forall st st', prime_reps_loop shared fac st = Continue st' ->
  infeasible fac = false.
Proof.
  induction fac as [|[p e] fac IH]; intros st st'; cbn [prime_reps_loop].
  - reflexivity.
  - cbn [infeasible existsb fst snd]. fold (infeasible fac).
    destruct (prime_reps_step shared p e st) as [st1 | r' | err] eqn:E;
      try discriminate.
    intros H. apply IH in H. rewrite H.
    apply prime_reps_step_continue in E. rewrite E. reflexivity.
Qed.

Lemma r_2_geom_prod (n : Z) : 0 < n -> r_2 n = 4 * geom_prod (factorint n).
Proof.
  intros Hn. destruct (factorint_spec n Hn) as [Hprod Hfac].
  rewrite (r_2_divisor_sum n) by lia.
  rewrite <- (divisor_sum_factors _ 2 Hfac), Hprod. reflexivity.
Qed.

(** Whenever [sum_of_two_squares(n)] returns, with the shared generator or
    with fresh ones, the count is [r_2(n)]. *)
Lemma sum_of_two_squares_count (shared : bool) (n c : Z) (l : list (Z * Z)) :
  sum_of_two_squares_with shared n = Ok (c, l) -> c = r_2 n.
Proof.
  unfold sum_of_two_squares_with.
  destruct (Z.ltb_spec n 0) as [Hneg | Hnn]; [discriminate|].
  destruct (Z.eqb_spec n 0) as [-> | H0].
  { intros H. inversion H. reflexivity. }
  destruct (Z.eqb_spec n 1) as [-> | H1].
  { intros H. inversion H. reflexivity. }
  cbv zeta.
  destruct (factorint_spec n ltac:(lia)) as [Hprod Hfac].
  rewrite (r_2_geom_prod n) by lia.
  destruct (prime_reps_loop shared (factorint n) _) as [[cs reps] | r | err] eqn:E.
  - apply prime_reps_loop_continue in E.
    destruct (reps_loop reps (factorint n) [(0, 1)]); [|discriminate].
    intros H. inversion H. apply (feasible_geom_prod _ 2 Hfac E).
  - apply prime_reps_loop_return in E. destruct E as [-> E].
    intros H. inversion H. rewrite (infeasible_geom_prod _ 2 Hfac E). reflexivity.
  - discriminate.
Qed.

(** ** Canonical pairs *)

Lemma square_eq_abs (x y : Z) : x * x = y * y -> Z.abs x = Z.abs y.
Proof.
  intros H.
  assert (Hf : (x - y) * (x + y) = 0) by (ring_simplify; lia).
  apply Z.mul_eq_0 in Hf. lia.
Qed.

Lemma canon_eq_squares (u v : Z * Z) :
  (fst u * fst u = fst v * fst v /\ snd u * snd u = snd v * snd v) \/
  (fst u * fst u = snd v * snd v /\ snd u * snd u = fst v * fst v) ->
  canon u = canon v.
Proof.
  unfold canon. rewrite !sorted2_min_max.
  intros [[H1 H2] | [H1 H2]]; apply square_eq_abs in H1, H2;
    f_equal; lia.
Qed.

Lemma canon_cases (u v : Z * Z) :
  canon u = canon v ->
  ((fst u = fst v \/ fst u = - fst v) /\ (snd u = snd v \/ snd u = - snd v)) \/
  ((fst u = snd v \/ fst u = - snd v) /\ (snd u = fst v \/ snd u = - fst v)).
Proof.
  unfold canon. rewrite !sorted2_min_max. intros H. inversion H. lia.
Qed.

Lemma canon_is_rep (w : Z * Z) : is_rep (norm w) (canon w).
Proof.
  destruct (sorted2_norm (fst w) (snd w)) as (H1 & H2 & H3).
  unfold is_rep, canon, norm. cbv zeta in H1, H2, H3. lia.
Qed.

Lemma is_rep_canon (n : Z) (r : Z * Z) : is_rep n r -> canon r = r.
Proof.
  destruct r as [a b]. unfold is_rep, canon. cbn [fst snd].
  intros [H _]. rewrite sorted2_min_max. f_equal; lia.
Qed.

Lemma canon_norm (w : Z * Z) : norm (canon w) = norm w.
Proof. destruct (canon_is_rep w) as [_ H]. exact H. Qed.

Lemma canon_idempotent (w : Z * Z) : canon (canon w) = canon w.
Proof. apply (is_rep_canon (norm w)), canon_is_rep. Qed.

Lemma norm_eq_canon (u v : Z * Z) : canon u = canon v -> norm u = norm v.
Proof. intros H. rewrite <- (canon_norm u), H. apply canon_norm. Qed.

(** ** Products *)

Lemma norm_gauss_mul (a c : Z) (w : Z * Z) :
  norm (gauss_mul a c w) = (a * a + c * c) * norm w.
Proof. unfold norm, gauss_mul. cbn [fst snd]. ring. Qed.

Lemma gauss_mul_comm (u v : Z * Z) :
  gauss_mul (fst u) (snd u) v = gauss_mul (fst v) (snd v) u.
Proof. unfold gauss_mul. f_equal; ring. Qed.

Lemma gauss_mul_assoc (u v w : Z * Z) :
  gauss_mul (fst (gauss_mul (fst u) (snd u) v))
            (snd (gauss_mul (fst u) (snd u) v)) w
  = gauss_mul (fst u) (snd u) (gauss_mul (fst v) (snd v) w).
Proof. unfold gauss_mul. cbn [fst snd]. f_equal; ring. Qed.

Lemma rep_prod_In (a b c d : Z) (r : Z * Z) :
  In r (rep_prod a b c d) <->
  r = canon (a * c + b * d, a * d - b * c) \/
  r = canon (a * c - b * d, a * d + b * c).
Proof.
  unfold rep_prod, canon. cbn [fst snd].
  set (s0 := sorted2 (Z.abs (a * c + b * d)) (Z.abs (a * d - b * c))).
  set (s1 := sorted2 (Z.abs (a * c - b * d)) (Z.abs (a * d + b * c))).
  cbv zeta. destruct (pair_eqb s0 s1) eqn:E; cbn [negb In].
  - apply pair_eqb_eq in E. rewrite <- E. intuition congruence.
  - intuition congruence.
Qed.

Lemma rep_prod_is_rep (a b c d : Z) (r : Z * Z) :
  In r (rep_prod a b c d) -> is_rep ((a * a + b * b) * (c * c + d * d)) r.
Proof.
  intros H. apply rep_prod_In in H. destruct H as [-> | ->].
  - replace ((a * a + b * b) * (c * c + d * d))
      with (norm (a * c + b * d, a * d - b * c))
      by (unfold norm; cbn [fst snd]; ring).
    apply canon_is_rep.
  - replace ((a * a + b * b) * (c * c + d * d))
      with (norm (a * c - b * d, a * d + b * c))
      by (unfold norm; cbn [fst snd]; ring).
    apply canon_is_rep.
Qed.

Ltac canon_by_squares :=
  apply canon_eq_squares; cbn [fst snd gauss_mul];
  first [left; split; ring | right; split; ring].

(** [rep_prod] does not depend on the signs and the order inside its
    arguments: it holds the canonical pair of the product of any two
    points with the same canonical pairs. *)
Lemma rep_prod_invariance (u v u' v' : Z * Z) :
  canon u = canon u' -> canon v = canon v' ->
  In (canon (gauss_mul (fst u) (snd u) v))
     (rep_prod (fst u') (snd u') (fst v') (snd v')).
Proof.
  destruct u as [x y], v as [z w], u' as [a b], v' as [c d].
  intros Hu Hv. apply canon_cases in Hu, Hv. cbn [fst snd] in *.
  apply rep_prod_In. unfold gauss_mul. cbn [fst snd].
  destruct Hu as [[[-> | ->] [-> | ->]] | [[-> | ->] [-> | ->]]];
    destruct Hv as [[[-> | ->] [-> | ->]] | [[-> | ->] [-> | ->]]];
    first [left; canon_by_squares | right; canon_by_squares].
Qed.

(** ** Division by the Gaussian primes *)

Lemma gauss_quotient (p a c x y m : Z) :
  p <> 0 -> a * a + c * c = p -> x * x + y * y = p * m ->
  gauss_divides p a (- c) (x, y) = true ->
  exists w, norm w = m /\ (x, y) = gauss_mul a c w.
Proof.
  intros Hp Hc Hxy H.
  unfold gauss_divides in H. cbn [fst snd] in H.
  apply andb_true_iff in H. destruct H as [H1 H2].
  unfold multiple_of in H1, H2. apply Z.eqb_eq in H1, H2.
  apply Z.mod_divide in H1, H2; try assumption.
  destruct H1 as [u Hu], H2 as [v Hv].
  exists (u, v). unfold norm, gauss_mul. cbn [fst snd].
  assert (Hx : p * (a * u - c * v) = p * x).
  { replace (p * (a * u - c * v)) with (a * (u * p) - c * (v * p)) by ring.
    rewrite <- Hu, <- Hv, <- Hc. ring. }
  assert (Hy : p * (a * v + c * u) = p * y).
  { replace (p * (a * v + c * u)) with (a * (v * p) + c * (u * p)) by ring.
    rewrite <- Hu, <- Hv, <- Hc. ring. }
  assert (Hm : p * (p * (u * u + v * v)) = p * (p * m)).
  { replace (p * (p * (u * u + v * v)))
      with ((u * p) * (u * p) + (v * p) * (v * p)) by ring.
    rewrite <- Hu, <- Hv.
    replace (p * (p * m)) with ((a * a + c * c) * (p * m))
      by (rewrite Hc; ring).
    rewrite <- Hxy. ring. }
  apply Z.mul_reg_l in Hx, Hy, Hm; try assumption.
  apply Z.mul_reg_l in Hm; try assumption.
  split; [exact Hm|]. f_equal; lia.
Qed.

Lemma gauss_factor_prime1 (p a b : Z) (z : Z * Z) (m : Z) :
  Z.prime p -> p mod 4 = 1 -> a * a + b * b = p -> 0 < b < a ->
  norm z = p * m ->
  exists w, norm w = m /\ (z = gauss_mul a b w \/ z = gauss_mul a (- b) w).
Proof.
  intros Hp H4 Hs Hab Hz. destruct z as [x y].
  unfold norm in Hz. cbn [fst snd] in Hz.
  pose proof (Z.prime_ge_2 p Hp) as Hp2.
  pose proof (gauss_cover p a b Hp Hs m x y Hz) as Hc.
  apply orb_true_iff in Hc. destruct Hc as [Hc | Hc].
  - destruct (gauss_quotient p a b x y m ltac:(lia) Hs Hz Hc) as (w & Hw & E).
    exists w. auto.
  - rewrite <- (Z.opp_involutive b) in Hc.
    destruct (gauss_quotient p a (- b) x y m ltac:(lia) ltac:(lia) Hz Hc)
      as (w & Hw & E).
    exists w. auto.
Qed.

Lemma gauss_factor_two (z : Z * Z) (m : Z) :
  norm z = 2 * m -> exists w, norm w = m /\ z = gauss_mul 1 1 w.
Proof.
  destruct z as [x y]. unfold norm. cbn [fst snd]. intros H.
  assert (Hpar : exists s, x + y = 2 * s).
  { destruct (Z.Even_or_Odd x) as [[a ->] | [a ->]];
      destruct (Z.Even_or_Odd y) as [[b ->] | [b ->]].
    - exists (a + b). ring.
    - exfalso. lia.
    - exfalso. lia.
    - exists (a + b + 1). ring. }
  destruct Hpar as [s Hs].
  exists (s, s - x). unfold norm, gauss_mul. cbn [fst snd].
  split; [nia|]. f_equal; lia.
Qed.

Lemma gauss_factor_prime3 (p : Z) (z : Z * Z) (m : Z) :
  Z.prime p -> p mod 4 = 3 -> norm z = p * p * m ->
  exists w, norm w = m /\ z = gauss_mul p 0 w.
Proof.
  intros Hp H4 Hz. destruct z as [x y]. unfold norm in Hz. cbn [fst snd] in Hz.
  pose proof (Z.prime_ge_2 p Hp) as Hp2.
  destruct (prime3_divides p Hp H4 x y) as [[u Hu] [v Hv]].
  { rewrite Hz. exists (p * m). ring. }
  exists (u, v). unfold norm, gauss_mul. cbn [fst snd]. subst x y.
  split; [|f_equal; ring].
  assert (H : p * (p * (u * u + v * v)) = p * (p * m)) by (rewrite <- Z.mul_assoc in Hz; lia).
  apply Z.mul_reg_l in H; [|lia]. apply Z.mul_reg_l in H; [|lia]. exact H.
Qed.

(** ** Splitting a norm *)

Lemma splits_one (M : Z) : splits M 1.
Proof.
  intros z Hz. exists z, (1, 0). unfold gauss_mul, norm. cbn [fst snd].
  split; [destruct z; cbn [fst snd]; f_equal; ring|].
  split; [unfold norm in Hz; lia|reflexivity].
Qed.

Lemma splits_mul (M P Q : Z) :
  splits M P -> splits (M * P) Q -> splits M (P * Q).
Proof.
  intros H1 H2 z Hz.
  destruct (H2 z) as (u' & v' & E & Hu' & Hv'); [rewrite Hz; ring|].
  destruct (H1 u' Hu') as (u & v & E' & Hu & Hv).
  exists u, (gauss_mul (fst v) (snd v) v'). split; [|split].
  - rewrite E, E'. apply gauss_mul_assoc.
  - exact Hu.
  - rewrite norm_gauss_mul. unfold norm in Hv. rewrite Hv, Hv'. reflexivity.
Qed.

Lemma splits_factor (M p : Z) (pi1 pi2 : Z * Z) :
  norm pi1 = p -> norm pi2 = p ->
  (forall z m, norm z = p * m ->
     exists w, norm w = m /\
       (z = gauss_mul (fst pi1) (snd pi1) w \/
        z = gauss_mul (fst pi2) (snd pi2) w)) ->
  splits M p.
Proof.
  intros H1 H2 H z Hz. destruct (H z M) as (w & Hw & [E | E]);
    [rewrite Hz; ring| |].
  - exists w, pi1. rewrite E. split; [apply gauss_mul_comm|auto].
  - exists w, pi2. rewrite E. split; [apply gauss_mul_comm|auto].
Qed.

Lemma splits_pow (M p : Z) (k : nat) :
  (forall M', splits M' p) -> splits M (p ^ Z.of_nat k).
Proof.
  intros H. induction k as [|k IH].
  - apply splits_one.
  - rewrite Nat2Z.inj_succ, Z.pow_succ_r, Z.mul_comm by lia.
    apply splits_mul; [exact IH|apply H].
Qed.

(** ** Composition of complete lists *)

Lemma complete_covers (n : Z) (l : list (Z * Z)) :
  complete_reps n l -> covers n l.
Proof.
  intros H. split.
  - intros r Hr. apply H in Hr. destruct Hr as [_ Hn]. exact Hn.
  - intros v Hv. exists (canon v). split.
    + apply H. rewrite <- Hv. apply canon_is_rep.
    + apply canon_idempotent.
Qed.

Lemma composition_complete (M P : Z) (A B out : list (Z * Z)) :
  covers M A -> covers P B -> splits M P ->
  (forall r, In r out <->
     exists r1 r2, In r1 A /\ In r2 B /\
       In r (rep_prod (fst r1) (snd r1) (fst r2) (snd r2))) ->
  complete_reps (M * P) out.
Proof.
  intros [HA1 HA2] [HB1 HB2] Hs Hout r. rewrite Hout. split.
  - intros (r1 & r2 & H1 & H2 & H). apply rep_prod_is_rep in H.
    rewrite <- (HA1 r1 H1), <- (HB1 r2 H2). exact H.
  - intros Hr. destruct (Hs r) as (u & v & E & Hu & Hv); [apply Hr|].
    destruct (HA2 u Hu) as (r1 & H1 & E1).
    destruct (HB2 v Hv) as (r2 & H2 & E2).
    exists r1, r2. split; [exact H1|]. split; [exact H2|].
    rewrite <- (is_rep_canon _ r Hr), E.
    apply rep_prod_invariance; symmetry; assumption.
Qed.

Lemma round_In (r0 : Z * Z) (l : list (Z * Z)) (r : Z * Z) :
  In r (rep_prime_power_round r0 l) <->
  exists r1 r2, In r1 l /\ In r2 [r0] /\
    In r (rep_prod (fst r1) (snd r1) (fst r2) (snd r2)).
Proof.
  unfold rep_prime_power_round. rewrite in_flat_map. split.
  - intros (r1 & H1 & H). exists r1, r0. cbn [In]. auto.
  - intros (r1 & r2 & H1 & [<- | []] & H). exists r1. auto.
Qed.

Lemma product_In (A B : list (Z * Z)) (r : Z * Z) :
  In r (flat_map (fun r1 =>
          flat_map (fun r2 => rep_prod (fst r1) (snd r1) (fst r2) (snd r2)) B)
        A) <->
  exists r1 r2, In r1 A /\ In r2 B /\
    In r (rep_prod (fst r1) (snd r1) (fst r2) (snd r2)).
Proof.
  rewrite in_flat_map. split.
  - intros (r1 & H1 & H). apply in_flat_map in H.
    destruct H as (r2 & H2 & H). exists r1, r2. auto.
  - intros (r1 & r2 & H1 & H2 & H). exists r1. split; [exact H1|].
    apply in_flat_map. exists r2. auto.
Qed.

(** ** The representations of the primes and of their powers *)

Lemma norm_one (w : Z * Z) :
  norm w = 1 -> w = (1, 0) \/ w = (-1, 0) \/ w = (0, 1) \/ w = (0, -1).
Proof.
  destruct w as [x y]. unfold norm. cbn [fst snd]. intros H.
  assert (Hx : -1 <= x <= 1) by nia.
  assert (Hy : -1 <= y <= 1) by nia.
  assert (Hc : x = -1 \/ x = 0 \/ x = 1) by lia.
  assert (Hd : y = -1 \/ y = 0 \/ y = 1) by lia.
  destruct Hc as [-> | [-> | ->]]; destruct Hd as [-> | [-> | ->]];
    try discriminate H; auto.
Qed.

Lemma covers_prime1 (p a b : Z) :
  Z.prime p -> p mod 4 = 1 -> a * a + b * b = p -> 0 < b < a ->
  covers p [(a, b)].
Proof.
  intros Hp H4 Hs Hab. split.
  - intros r [<- | []]. exact Hs.
  - intros v Hv. exists (a, b). split; [apply in_eq|].
    destruct (gauss_factor_prime1 p a b v 1 Hp H4 Hs Hab) as (w & Hw & E);
      [rewrite Hv; ring|].
    apply norm_one in Hw.
    destruct Hw as [-> | [-> | [-> | ->]]]; destruct E as [-> | ->];
      canon_by_squares.
Qed.

Lemma covers_two : covers 2 [(1, 1)].
Proof.
  split.
  - intros r [<- | []]. reflexivity.
  - intros v Hv. exists (1, 1). split; [apply in_eq|].
    destruct (gauss_factor_two v 1 Hv) as (w & Hw & ->).
    apply norm_one in Hw.
    destruct Hw as [-> | [-> | [-> | ->]]]; reflexivity.
Qed.

Lemma covers_prime3_power (p : Z) (k : nat) :
  Z.prime p -> p mod 4 = 3 ->
  covers (p ^ (2 * Z.of_nat k)) [(0, p ^ Z.of_nat k)].
Proof.
  intros Hp H4. split.
  - intros r [<- | []]. unfold norm. cbn [fst snd].
    replace (2 * Z.of_nat k) with (Z.of_nat k + Z.of_nat k) by lia.
    rewrite Z.pow_add_r by lia. ring.
  - induction k as [|k IH]; intros v Hv.
    + exists (0, 1). split; [apply in_eq|].
      change (p ^ (2 * Z.of_nat 0)) with 1 in Hv. apply norm_one in Hv.
      destruct Hv as [-> | [-> | [-> | ->]]]; reflexivity.
    + exists (0, p ^ Z.of_nat (S k)). split; [apply in_eq|].
      destruct (gauss_factor_prime3 p v (p ^ (2 * Z.of_nat k)) Hp H4)
        as (w & Hw & ->).
      { rewrite Hv.
        replace (2 * Z.of_nat (S k)) with (Z.succ (Z.succ (2 * Z.of_nat k)))
          by lia.
        rewrite !Z.pow_succ_r by lia. ring. }
      destruct (IH w Hw) as (r & [<- | []] & E).
      rewrite Nat2Z.inj_succ, Z.pow_succ_r by lia.
      destruct w as [x y]. apply canon_cases in E. cbn [fst snd] in E.
      apply canon_eq_squares. cbn [fst snd gauss_mul].
      destruct E as [[Hx Hy] | [Hx Hy]].
      * left. assert (x = 0) by lia. subst x.
        destruct Hy as [<- | Hy]; [split; ring|].
        rewrite Hy. split; ring.
      * right. assert (y = 0) by lia. subst y.
        destruct Hy as [<- | Hy]; [split; ring|].
        rewrite Hy. split; ring.
Qed.

Lemma splits_prime1 (M p a b : Z) :
  Z.prime p -> p mod 4 = 1 -> a * a + b * b = p -> 0 < b < a ->
  splits M p.
Proof.
  intros Hp H4 Hs Hab.
  apply (splits_factor M p (a, b) (a, - b)).
  - exact Hs.
  - unfold norm. cbn [fst snd]. rewrite <- Hs. ring.
  - intros z m Hz. apply (gauss_factor_prime1 p a b z m); assumption.
Qed.

Lemma splits_two (M : Z) : splits M 2.
Proof.
  apply (splits_factor M 2 (1, 1) (1, 1)); try reflexivity.
  intros z m Hz. destruct (gauss_factor_two z m Hz) as (w & Hw & E).
  exists w. auto.
Qed.

Lemma splits_prime3 (M p : Z) :
  Z.prime p -> p mod 4 = 3 -> splits M (p * p).
Proof.
  intros Hp H4.
  apply (splits_factor M (p * p) (p, 0) (p, 0));
    try (unfold norm; cbn [fst snd]; ring).
  intros z m Hz. destruct (gauss_factor_prime3 p z m Hp H4 Hz) as (w & Hw & E).
  exists w. auto.
Qed.

Lemma rep_prime_power_iter (p : Z) (r0 : Z * Z) :
  covers p [r0] -> (forall M, splits M p) ->
  forall k : nat,
  covers (p ^ Z.of_nat (S k)) (Nat.iter k (rep_prime_power_round r0) [r0]).
Proof.
  intros Hc Hs. induction k as [|k IH].
  - change (Z.of_nat 1) with 1. rewrite Z.pow_1_r. exact Hc.
  - rewrite Nat.iter_succ. apply complete_covers.
    rewrite (Nat2Z.inj_succ (S k)), Z.pow_succ_r, Z.mul_comm by lia.
    apply (composition_complete _ _
             (Nat.iter k (rep_prime_power_round r0) [r0]) [r0]);
      try assumption.
    + apply Hs.
    + apply round_In.
Qed.

Lemma rep_prime_power_covers (p e : Z) (r0 : Z * Z) :
  covers p [r0] -> (forall M, splits M p) -> 0 < e ->
  covers (p ^ e) (rep_prime_power r0 e).
Proof.
  intros Hc Hs He. unfold rep_prime_power. cbv zeta.
  replace e with (Z.of_nat (S (Z.to_nat (e - 1)))) at 1 by lia.
  apply rep_prime_power_iter; assumption.
Qed.

(** ** The second loop *)

Lemma even_exponent (e : Z) :
  0 < e -> Z.land e 1 = 0 -> e = 2 * Z.of_nat (Z.to_nat (e / 2)).
Proof.
  intros He H. rewrite land_one in H by lia.
  rewrite Z2Nat.id by (apply Z.div_pos; lia).
  Z.div_mod_to_equations. lia.
Qed.

Lemma reps_step_complete (prime_reps : dict) (p e M : Z)
  (reps : list (Z * Z)) :
  Z.prime p -> 0 < e -> (p mod 4 = 3 -> Z.land e 1 = 0) ->
  dict_ok prime_reps (p, e) -> complete_reps M reps ->
  exists out, reps_step prime_reps p e reps = Ok out /\
              complete_reps (M * p ^ e) out.
Proof.
  intros Hp He Heven (D3 & D1 & D2) Hreps. cbn [fst snd] in D3, D1, D2.
  apply complete_covers in Hreps. unfold reps_step.
  destruct (Z.eqb_spec (p mod 4) 3) as [E3 | E3].
  - rewrite (D3 E3). eexists. split; [reflexivity|].
    pose proof (even_exponent e He (Heven E3)) as Hk.
    set (k := Z.to_nat (e / 2)) in *.
    replace (e / 2) with (Z.of_nat k)
      by (unfold k; apply Z2Nat.id, Z.div_pos; lia).
    rewrite Hk at 1.
    apply (composition_complete _ _ reps [(0, p ^ Z.of_nat k)]).
    + exact Hreps.
    + apply covers_prime3_power; assumption.
    + rewrite Z.pow_mul_r, Z.pow_2_r by lia.
      apply splits_pow. intros M'. apply splits_prime3; assumption.
    + intros r. rewrite in_flat_map. split.
      * intros (r1 & H1 & H). exists r1, (0, p ^ Z.of_nat k). cbn [In]. auto.
      * intros (r1 & r2 & H1 & [<- | []] & H). exists r1. auto.
  - destruct (Z.eqb_spec p 2) as [E2 | E2].
    + cbn [orb]. rewrite (D2 E2). eexists. split; [reflexivity|]. subst p.
      apply (composition_complete _ _ reps (rep_prime_power (1, 1) e)).
      * exact Hreps.
      * apply rep_prime_power_covers; [apply covers_two|apply splits_two|exact He].
      * rewrite <- (Z2Nat.id e) by lia. apply splits_pow, splits_two.
      * apply product_In.
    + cbn [orb]. destruct (Z.eqb_spec (p mod 4) 1) as [E1 | E1].
      * destruct (D1 E1) as (a & b & Hd & Hs & Hab). rewrite Hd.
        eexists. split; [reflexivity|].
        apply (composition_complete _ _ reps (rep_prime_power (a, b) e)).
        -- exact Hreps.
        -- apply rep_prime_power_covers; [| |exact He].
           ++ apply covers_prime1; assumption.
           ++ intros M'. apply (splits_prime1 M' p a b); assumption.
        -- rewrite <- (Z2Nat.id e) by lia. apply splits_pow.
           intros M'. apply (splits_prime1 M' p a b); assumption.
        -- apply product_In.
      * exfalso. apply E2. apply two_divides_prime; [exact Hp|].
        exists (p / 2). Z.div_mod_to_equations. lia.
Qed.

Lemma infeasible_cons (p e : Z) (fac : list (Z * Z)) :
  infeasible ((p, e) :: fac) = false ->
  (p mod 4 = 3 -> Z.land e 1 = 0) /\ infeasible fac = false.
Proof.
  cbn [infeasible existsb fst snd]. fold (infeasible fac).
  intros H. apply orb_false_iff in H. destruct H as [H1 H2].
  split; [|exact H2]. intros E. rewrite E in H1. cbn [Z.eqb Pos.eqb andb] in H1.
  apply negb_false_iff, Z.eqb_eq in H1. exact H1.
Qed.

Lemma reps_loop_complete (prime_reps : dict) (fac : list (Z * Z)) :
  forall d M reps,
  factors_from d fac -> infeasible fac = false ->
  Forall (dict_ok prime_reps) fac -> complete_reps M reps ->
  exists out, reps_loop prime_reps fac reps = Ok out /\
              complete_reps (M * factors_prod fac) out.
Proof.
  induction fac as [|[p e] fac IH]; intros d M reps Hfac Hinf Hdict Hreps.
  - exists reps. split; [reflexivity|].
    cbn [factors_prod fold_right]. rewrite Z.mul_1_r. exact Hreps.
  - cbn [factors_from fst snd] in Hfac. destruct Hfac as (H1 & H2 & H3 & H4).
    apply infeasible_cons in Hinf. destruct Hinf as [Heven Hinf].
    inversion Hdict as [|x l Hd Hdict']; subst.
    destruct (reps_step_complete prime_reps p e M reps H2 H3 Heven Hd Hreps)
      as (out1 & E1 & Hout1).
    destruct (IH (p + 1) (M * p ^ e) out1 H4 Hinf Hdict' Hout1)
      as (out & E & Hout).
    exists out. cbn [reps_loop]. rewrite E1. split; [exact E|].
    rewrite factors_prod_cons. cbn [fst snd]. rewrite Z.mul_assoc. exact Hout.
Qed.

(** ** What the search returns is a non-residue *)

Lemma euler_test_self (q : Z) : 5 <= q -> euler_test q q = false.
Proof.
  intros Hq. unfold euler_test.
  rewrite Z_mod_same_full, Z.pow_0_l, Zmod_0_l.
  - apply Z.eqb_neq. lia.
  - apply Z.div_str_pos. lia.
Qed.

Lemma prime_not_divide (p q : Z) :
  Z.prime p -> 1 < q -> q <> p -> ~ (q | p).
Proof.
  intros Hp Hq Hne Hd. pose proof (Z.prime_ge_2 p Hp).
  pose proof Hp as [_ Hp']. apply (Hp' q); [|exact Hd].
  apply Z.divide_pos_le in Hd; lia.
Qed.

Lemma euler_test_nonresidue (p q : Z) :
  Z.prime p -> p mod 4 = 1 -> prime_ge_5 q ->
  euler_test p q = true -> ~ is_qr p q.
Proof.
  intros Hp H4 [Hq Hq5] Ht.
  assert (Hodd : q mod 2 = 1) by (apply prime_ge_3_odd; [exact Hq|lia]).
  assert (Hne : q <> p).
  { intros ->. rewrite euler_test_self in Ht by exact Hq5. discriminate Ht. }
  assert (Hnd : ~ (q | p)) by (apply prime_not_divide; [exact Hp|lia|exact Hne]).
  apply (euler_test_spec p q Hq Hodd Hnd) in Ht.
  intros Hqr. apply Ht.
  apply (reciprocity_mod4_1 p q Hp Hq H4 Hodd); [congruence|exact Hqr].
Qed.

Lemma search_candidates_sound (p : Z) (cs : list Z) : forall q rest,
  Z.prime p -> p mod 4 = 1 -> Forall prime_ge_5 cs ->
  search_candidates p cs = (Some q, rest) ->
  ~ is_qr p q /\ Forall prime_ge_5 rest.
Proof.
  induction cs as [|c cs IH]; intros q rest Hp H4 Hall;
    cbn [search_candidates].
  - discriminate.
  - inversion Hall as [|x l Hc Hall']; subst.
    destruct (((p mod c) ^ ((c - 1) / 2)) mod c =? c - 1) eqn:E.
    + intros H. inversion H; subst. split; [|exact Hall'].
      apply euler_test_nonresidue; assumption.
    + apply IH; assumption.
Qed.

Lemma find_qnr_shared (p : Z) (cs : list Z) (g : Z) (rest : list Z) :
  Z.prime p -> p mod 4 = 1 -> Forall prime_ge_5 cs ->
  find_quadratic_nonresidue p (Some cs) = (Some g, Some rest) ->
  ~ is_qr p g /\ Forall prime_ge_5 rest.
Proof.
  intros Hp H4 Hcs. unfold find_quadratic_nonresidue.
  destruct (Z.eqb_spec (p mod 8) 5) as [E5 | E5].
  { intros H. inversion H; subst. split; [|exact Hcs].
    apply two_qnr_mod8_5; assumption. }
  destruct (Z.eqb_spec (p mod 3) 2) as [E3 | E3].
  { intros H. inversion H; subst. split; [|exact Hcs].
    intros Hq. apply (three_qr_iff p Hp H4) in Hq. lia. }
  destruct (Z.eqb_spec (p mod 8) 1) as [E1 | E1]; [|discriminate].
  destruct (search_candidates p cs) as [r rest'] eqn:E.
  intros H. inversion H; subst.
  apply (search_candidates_sound p cs); assumption.
Qed.

Lemma primerange_prime_ge_5 (b : bound) : Forall prime_ge_5 (primerange 5 b).
Proof.
  apply Forall_forall. intros q Hq. apply In_primerange in Hq.
  destruct Hq as (H5 & Hq & _). split; assumption.
Qed.

Lemma find_qnr_fresh (p g : Z) :
  Z.prime p -> p mod 4 = 1 ->
  fst (find_quadratic_nonresidue p None) = Some g -> ~ is_qr p g.
Proof.
  intros Hp H4. unfold find_quadratic_nonresidue.
  destruct (Z.eqb_spec (p mod 8) 5) as [E5 | E5].
  { cbn [fst]. intros H. inversion H; subst. apply two_qnr_mod8_5; assumption. }
  destruct (Z.eqb_spec (p mod 3) 2) as [E3 | E3].
  { cbn [fst]. intros H. inversion H; subst.
    intros Hq. apply (three_qr_iff p Hp H4) in Hq. lia. }
  destruct (Z.eqb_spec (p mod 8) 1) as [E1 | E1]; [|discriminate].
  cbn [fst].
  destruct (search_candidates p (primerange 5 (BSqrtPlus1 p)))
    as [r rest'] eqn:E.
  cbn [fst]. intros ->.
  apply (search_candidates_sound p _ g rest' Hp H4
           (primerange_prime_ge_5 _) E).
Qed.

Lemma find_fresh_some (p : Z) :
  Z.prime p -> p mod 4 = 1 ->
  exists g, fst (find_quadratic_nonresidue p None) = Some g.
Proof.
  intros Hp H4.
  destruct (Z.eq_dec (p mod 8) 5) as [H8 | H8].
  - destruct (find_mod8_5 p Hp H8) as [Hf _]. exists 2. rewrite Hf. reflexivity.
  - destruct (Z.eq_dec (p mod 3) 2) as [H3 | H3].
    + destruct (find_mod3_2 p Hp H4 H8 H3) as [Hf _].
      exists 3. rewrite Hf. reflexivity.
    + destruct (find_search p Hp H4 H8 H3) as (g & Hf & _).
      exists g. rewrite Hf. reflexivity.
Qed.

(** ** The first loop *)

Lemma prime_reps_step_inv (shared : bool) (p e : Z) (cs cs' : list Z)
  (d d' : dict) :
  Z.prime p -> Forall prime_ge_5 cs ->
  prime_reps_step shared p e (cs, d) = Continue (cs', d') ->
  Forall prime_ge_5 cs' /\
  (p mod 4 = 3 -> dict_get d' p = Some (0, p ^ (e / 2))) /\
  (p mod 4 = 1 ->
     exists a b, dict_get d' p = Some (a, b) /\
                 a * a + b * b = p /\ 0 < b < a) /\
  (forall k, k <> p -> dict_get d' k = dict_get d k) /\
  (p = 2 -> d' = d).
Proof.
  intros Hp Hcs. unfold prime_reps_step.
  destruct (Z.eqb_spec (p mod 4) 3) as [E3 | E3].
  - destruct (negb (Z.land e 1 =? 0)); [discriminate|].
    intros H. inversion H; subst.
    split; [exact Hcs|]. split; [intros _; apply dict_get_set_same|].
    split; [intros E1; rewrite E1 in E3; discriminate E3|].
    split; [intros k Hk; apply dict_get_set_other; exact Hk|].
    intros ->. discriminate E3.
  - destruct (Z.eqb_spec (p mod 4) 1) as [E1 | E1].
    + assert (Hstore : forall g rest,
                ~ is_qr p g -> Forall prime_ge_5 rest ->
                match descent p p ((g ^ ((p - 1) / 4)) mod p) with
                | Ok ab => Continue (rest, dict_set d p ab)
                | Raise err => Throw err
                end = @Continue _ (Z * list (Z * Z)) (cs', d') ->
                Forall prime_ge_5 cs' /\
                (p mod 4 = 3 -> dict_get d' p = Some (0, p ^ (e / 2))) /\
                (p mod 4 = 1 ->
                   exists a b, dict_get d' p = Some (a, b) /\
                               a * a + b * b = p /\ 0 < b < a) /\
                (forall k, k <> p -> dict_get d' k = dict_get d k) /\
                (p = 2 -> d' = d)).
      { intros g rest Hg Hrest.
        destruct (descent_of_nonresidue p g Hp E1 Hg)
          as (a & b & Hd & Hs & Hab & _).
        cbv zeta in Hd. rewrite Hd. intros H. injection H as <- <-.
        split; [exact Hrest|]. split; [intros E; contradiction|].
        split; [intros _; exists a, b; split;
                  [apply dict_get_set_same|split; assumption]|].
        split; [intros k Hk; apply dict_get_set_other; exact Hk|].
        intros ->. discriminate E1. }
      destruct shared.
      * destruct (find_quadratic_nonresidue p (Some cs))
          as [[g|] [rest|]] eqn:F; try discriminate.
        destruct (find_qnr_shared p cs g rest Hp E1 Hcs F) as [Hg Hrest].
        cbv zeta. apply Hstore; assumption.
      * destruct (fst (find_quadratic_nonresidue p None)) as [g|] eqn:F;
          [|discriminate].
        cbv zeta. apply Hstore; [|exact Hcs].
        apply find_qnr_fresh; assumption.
    + intros H. inversion H; subst.
      split; [exact Hcs|]. split; [intros E; contradiction|].
      split; [intros E; contradiction|]. split; reflexivity.
Qed.

Lemma prime_reps_loop_inv (shared : bool) (fac : list (Z * Z)) :
  forall lo cs d cs' d',
  factors_from lo fac -> Forall prime_ge_5 cs ->
  dict_get d 2 = Some (1, 1) ->
  prime_reps_loop shared fac (cs, d) = Continue (cs', d') ->
  Forall (dict_ok d') fac /\ dict_get d' 2 = Some (1, 1) /\
  (forall k, k < lo -> dict_get d' k = dict_get d k).
Proof.
  induction fac as [|[p e] fac IH]; intros lo cs d cs' d' Hfac Hcs H2;
    cbn [prime_reps_loop].
  - intros H. inversion H; subst.
    split; [constructor|]. split; [exact H2|reflexivity].
  - cbn [factors_from fst snd] in Hfac.
    destruct Hfac as (H1 & Hp & He & Hrest).
    destruct (prime_reps_step shared p e (cs, d)) as [[cs1 d1] | r | err] eqn:E;
      try discriminate.
    intros Hloop.
    destruct (prime_reps_step_inv shared p e cs cs1 d d1 Hp Hcs E)
      as (Hcs1 & S3 & S1 & Sother & S2).
    assert (H21 : dict_get d1 2 = Some (1, 1)).
    { destruct (Z.eq_dec p 2) as [Heq | Hne].
      - rewrite (S2 Heq). exact H2.
      - rewrite Sother by congruence. exact H2. }
    destruct (IH (p + 1) cs1 d1 cs' d' Hrest Hcs1 H21 Hloop)
      as (Hok & H2' & Hpres).
    split; [|split].
    + constructor; [|exact Hok]. unfold dict_ok. cbn [fst snd].
      rewrite (Hpres p) by lia.
      split; [exact S3|]. split; [exact S1|]. intros ->. exact H21.
    + exact H2'.
    + intros k Hk. rewrite Hpres by lia. apply Sother. lia.
Qed.

Lemma prime_reps_step_fresh (p e : Z) (st : list Z * dict) (err : exn) :
  Z.prime p -> prime_reps_step false p e st <> Throw err.
Proof.
  intros Hp. unfold prime_reps_step. destruct st as [cs d].
  destruct (Z.eqb_spec (p mod 4) 3) as [E3 | E3].
  - destruct (negb (Z.land e 1 =? 0)); discriminate.
  - destruct (Z.eqb_spec (p mod 4) 1) as [E1 | E1]; [|discriminate].
    destruct (find_fresh_some p Hp E1) as [g Hg]. rewrite Hg.
    pose proof (find_qnr_fresh p g Hp E1 Hg) as Hq.
    destruct (descent_of_nonresidue p g Hp E1 Hq) as (a & b & Hd & _).
    cbv zeta in Hd. cbv zeta. rewrite Hd. discriminate.
Qed.

Lemma prime_reps_loop_fresh (fac : list (Z * Z)) :
  forall lo st err,
  factors_from lo fac -> prime_reps_loop false fac st <> Throw err.
Proof.
  induction fac as [|[p e] fac IH]; intros lo st err Hfac;
    cbn [prime_reps_loop]; [discriminate|].
  cbn [factors_from fst snd] in Hfac. destruct Hfac as (H1 & Hp & He & Hrest).
  destruct (prime_reps_step false p e st) as [st1 | r | err1] eqn:E.
  - apply (IH (p + 1)). exact Hrest.
  - discriminate.
  - exfalso. apply (prime_reps_step_fresh p e st err1 Hp E).
Qed.

(** ** [sorted(list(set(reps)))] *)

Lemma pair_lt_trans (u v w : Z * Z) : pair_lt u v -> pair_lt v w -> pair_lt u w.
Proof.
  unfold pair_lt, pair_ltb.
  rewrite !orb_true_iff, !andb_true_iff, !Z.ltb_lt, !Z.eqb_eq. lia.
Qed.

Lemma pair_lt_total (u v : Z * Z) :
  pair_ltb u v = false -> pair_eqb u v = false -> pair_lt v u.
Proof.
  unfold pair_lt, pair_ltb, pair_eqb.
  rewrite !orb_false_iff, !andb_false_iff, !orb_true_iff, !andb_true_iff,
    !Z.ltb_lt, !Z.ltb_ge, !Z.eqb_eq, !Z.eqb_neq. lia.
Qed.

Lemma insert_set_In (u : Z * Z) (l : list (Z * Z)) (r : Z * Z) :
  In r (insert_set u l) <-> r = u \/ In r l.
Proof.
  induction l as [|v l IH]; cbn [insert_set].
  - cbn [In]. intuition congruence.
  - destruct (pair_ltb u v); [cbn [In]; intuition congruence|].
    destruct (pair_eqb u v) eqn:E.
    + apply pair_eqb_eq in E. subst v. cbn [In]. intuition congruence.
    + cbn [In]. rewrite IH. intuition congruence.
Qed.

Lemma insert_set_sorted (u : Z * Z) (l : list (Z * Z)) :
  StronglySorted pair_lt l -> StronglySorted pair_lt (insert_set u l).
Proof.
  induction l as [|v l IH]; cbn [insert_set]; intros Hs.
  - constructor; [constructor|constructor].
  - apply StronglySorted_inv in Hs. destruct Hs as [Hs Hv].
    destruct (pair_ltb u v) eqn:L.
    + constructor; [constructor; assumption|].
      constructor; [exact L|].
      apply Forall_forall. intros w Hw.
      apply (pair_lt_trans u v w); [exact L|].
      rewrite Forall_forall in Hv. apply Hv. exact Hw.
    + destruct (pair_eqb u v) eqn:E.
      * constructor; assumption.
      * constructor; [apply IH; exact Hs|].
        apply Forall_forall. intros w Hw. apply insert_set_In in Hw.
        destruct Hw as [-> | Hw].
        -- apply pair_lt_total; assumption.
        -- rewrite Forall_forall in Hv. apply Hv. exact Hw.
Qed.

Lemma sorted_set_In (l : list (Z * Z)) (r : Z * Z) :
  In r (sorted_set l) <-> In r l.
Proof.
  induction l as [|u l IH]; cbn [sorted_set fold_right]; [reflexivity|].
  fold (sorted_set l). rewrite insert_set_In, IH. cbn [In]. intuition congruence.
Qed.

Lemma sorted_set_sorted (l : list (Z * Z)) :
  StronglySorted pair_lt (sorted_set l).
Proof.
  induction l as [|u l IH]; cbn [sorted_set fold_right]; [constructor|].
  apply insert_set_sorted. exact IH.
Qed.

(** ** The list that [sum_of_two_squares] returns *)

Lemma complete_reps_one : complete_reps 1 [(0, 1)].
Proof.
  intros [a b]. unfold is_rep, norm. cbn [In fst snd]. split.
  - intros [H | []]. inversion H; subst. lia.
  - intros [H1 H2]. left.
    assert (a = 0) by nia. subst a. assert (b = 1) by nia. subst b.
    reflexivity.
Qed.

Lemma infeasible_no_rep (fac : list (Z * Z)) (lo : Z) (r : Z * Z) :
  factors_from lo fac -> infeasible fac = true ->
  norm r <> factors_prod fac.
Proof.
  intros Hfac Hinf Hr.
  pose proof (factors_prod_pos fac lo Hfac) as Hpos.
  pose proof (jacobi_two_squares (factors_prod fac) Hpos) as Hj.
  rewrite (divisor_sum_factors fac lo Hfac),
    (infeasible_geom_prod fac lo Hfac Hinf) in Hj.
  unfold two_squares_count in Hj.
  destruct r as [x y]. unfold norm in Hr. cbn [fst snd] in Hr.
  apply In_circle_points in Hr.
  destruct (circle_points (factors_prod fac)); [destruct Hr|].
  cbn [length] in Hj. lia.
Qed.

(** Whenever [sum_of_two_squares(n)] returns, with the shared generator or
    with fresh ones, the list holds exactly the pairs [(a, b)] with
    [0 <= a <= b] and [a^2 + b^2 = n], in strictly increasing
    lexicographic order. *)
Lemma sum_of_two_squares_list (shared : bool) (n c : Z) (l : list (Z * Z)) :
  sum_of_two_squares_with shared n = Ok (c, l) ->
  (forall a b, In (a, b) l <-> 0 <= a <= b /\ a * a + b * b = n) /\
  StronglySorted pair_lt l.
Proof.
  unfold sum_of_two_squares_with.
  destruct (Z.ltb_spec n 0) as [Hneg | Hnn]; [discriminate|].
  destruct (Z.eqb_spec n 0) as [-> | H0].
  { intros H. inversion H; subst. split.
    - intros a b. cbn [In]. split.
      + intros [E | []]. inversion E; subst. lia.
      + intros [H1 H2]. left. assert (a = 0) by nia. subst a.
        assert (b = 0) by nia. subst b. reflexivity.
    - repeat constructor. }
  destruct (Z.eqb_spec n 1) as [-> | H1].
  { intros H. inversion H; subst. split.
    - intros a b. apply (complete_reps_one (a, b)).
    - repeat constructor. }
  cbv zeta.
  destruct (factorint_spec n ltac:(lia)) as [Hprod Hfac].
  destruct (prime_reps_loop shared (factorint n) _)
    as [[cs d] | r | err] eqn:E; [| |discriminate].
  - pose proof (prime_reps_loop_continue _ _ _ _ E) as Hinf.
    apply (prime_reps_loop_inv shared (factorint n) 2) in E;
      [|exact Hfac|apply primerange_prime_ge_5|reflexivity].
    destruct E as (Hok & _ & _).
    destruct (reps_loop_complete d (factorint n) 2 1 [(0, 1)]
                Hfac Hinf Hok complete_reps_one) as (out & Eout & Hout).
    rewrite Eout. intros H. inversion H; subst.
    rewrite Z.mul_1_l, Hprod in Hout. split.
    + intros a b. rewrite sorted_set_In. apply (Hout (a, b)).
    + apply sorted_set_sorted.
  - apply prime_reps_loop_return in E. destruct E as [-> Hinf].
    intros H. inversion H; subst. split; [|constructor].
    intros a b. cbn [In]. split; [intros []|].
    intros [_ Hab]. apply (infeasible_no_rep (factorint n) 2 (a, b) Hfac Hinf).
    rewrite Hprod. exact Hab.
Qed.

(** With a fresh [primerange] for every search the function returns on
    every [n >= 0]. *)
Lemma sum_of_two_squares_fresh_total (n : Z) :
  0 <= n -> exists c l, sum_of_two_squares_fresh n = Ok (c, l).
Proof.
  intros Hn. unfold sum_of_two_squares_fresh, sum_of_two_squares_with.
  destruct (Z.ltb_spec n 0) as [Hneg | _]; [lia|].
  destruct (Z.eqb_spec n 0) as [-> | H0]; [eexists; eexists; reflexivity|].
  destruct (Z.eqb_spec n 1) as [-> | H1]; [eexists; eexists; reflexivity|].
  cbv zeta.
  destruct (factorint_spec n ltac:(lia)) as [Hprod Hfac].
  destruct (prime_reps_loop false (factorint n) _)
    as [[cs d] | [c l] | err] eqn:E.
  - pose proof (prime_reps_loop_continue _ _ _ _ E) as Hinf.
    apply (prime_reps_loop_inv false (factorint n) 2) in E;
      [|exact Hfac|apply primerange_prime_ge_5|reflexivity].
    destruct E as (Hok & _ & _).
    destruct (reps_loop_complete d (factorint n) 2 1 [(0, 1)]
                Hfac Hinf Hok complete_reps_one) as (out & Eout & Hout).
    rewrite Eout. eexists. eexists. reflexivity.
  - exists c, l. reflexivity.
  - exfalso. apply (prime_reps_loop_fresh (factorint n) 2 _ err Hfac E).
Qed.

(** ** A sorted list is determined by its elements *)

Lemma pair_lt_irrefl (u : Z * Z) : ~ pair_lt u u.
Proof.
  unfold pair_lt, pair_ltb.
  rewrite !orb_true_iff, !andb_true_iff, !Z.ltb_lt. lia.
Qed.

Lemma sorted_head_least (u : Z * Z) (l : list (Z * Z)) (r : Z * Z) :
  StronglySorted pair_lt (u :: l) -> In r (u :: l) -> r = u \/ pair_lt u r.
Proof.
  intros Hs [<- | Hr]; [left; reflexivity|right].
  apply StronglySorted_inv in Hs. destruct Hs as [_ Hu].
  rewrite Forall_forall in Hu. apply Hu. exact Hr.
Qed.

Lemma sorted_unique (l : list (Z * Z)) : forall l',
  StronglySorted pair_lt l -> StronglySorted pair_lt l' ->
  (forall r, In r l <-> In r l') -> l = l'.
Proof.
  induction l as [|u l IH]; intros [|u' l'] Hs Hs' Hin.
  - reflexivity.
  - exfalso. apply (Hin u'). apply in_eq.
  - exfalso. apply (Hin u). apply in_eq.
  - assert (Hu : u = u').
    { destruct (sorted_head_least u' l' u Hs') as [E | L];
        [apply Hin, in_eq|exact E|].
      destruct (sorted_head_least u l u' Hs) as [E | L'];
        [apply Hin, in_eq|symmetry; exact E|].
      exfalso. apply (pair_lt_irrefl u). apply (pair_lt_trans u u' u); assumption. }
    subst u'. f_equal.
    pose proof (StronglySorted_inv Hs) as [Hl Hul].
    pose proof (StronglySorted_inv Hs') as [Hl' Hul'].
    rewrite Forall_forall in Hul, Hul'.
    apply IH; try assumption.
    intros r. split; intros Hr.
    + assert (Hr' : In r (u :: l')) by (apply Hin; right; exact Hr).
      destruct Hr' as [<- | Hr']; [|exact Hr'].
      exfalso. apply (pair_lt_irrefl u). apply Hul. exact Hr.
    + assert (Hr' : In r (u :: l)) by (apply Hin; right; exact Hr).
      destruct Hr' as [<- | Hr']; [|exact Hr'].
      exfalso. apply (pair_lt_irrefl u). apply Hul'. exact Hr.
Qed.

(** The result is determined by [n]: the function with the shared
    generator and the one with fresh generators agree whenever both
    return. *)
Lemma sum_of_two_squares_determined (s s' : bool) (n : Z)
  (r r' : Z * list (Z * Z)) :
  sum_of_two_squares_with s n = Ok r ->
  sum_of_two_squares_with s' n = Ok r' -> r = r'.
Proof.
  destruct r as [c l], r' as [c' l']. intros H H'.
  pose proof (sum_of_two_squares_count s n c l H) as Hc.
  pose proof (sum_of_two_squares_count s' n c' l' H') as Hc'.
  destruct (sum_of_two_squares_list s n c l H) as [Hl Hs].
  destruct (sum_of_two_squares_list s' n c' l' H') as [Hl' Hs'].
  f_equal; [congruence|].
  apply sorted_unique; try assumption.
  intros [a b]. rewrite Hl, Hl'. reflexivity.
Qed.

(** ** The exceptions of the function with the shared generator *)

Lemma prime_reps_step_throw (p e : Z) (cs : list Z) (d : dict) (err : exn) :
  Z.prime p -> Forall prime_ge_5 cs ->
  prime_reps_step true p e (cs, d) = Throw err -> err = TypeError.
Proof.
  intros Hp Hcs. unfold prime_reps_step.
  destruct (Z.eqb_spec (p mod 4) 3) as [E3 | E3].
  - destruct (negb (Z.land e 1 =? 0)); discriminate.
  - destruct (Z.eqb_spec (p mod 4) 1) as [E1 | E1]; [|discriminate].
    destruct (find_quadratic_nonresidue p (Some cs)) as [[g|] [rest|]] eqn:F.
    + destruct (find_qnr_shared p cs g rest Hp E1 Hcs F) as [Hg _].
      destruct (descent_of_nonresidue p g Hp E1 Hg) as (a & b & Hd & _).
      cbv zeta in Hd. cbv zeta. rewrite Hd. discriminate.
    + intros H. inversion H. reflexivity.
    + intros H. inversion H. reflexivity.
    + intros H. inversion H. reflexivity.
Qed.

Lemma prime_reps_loop_throw (fac : list (Z * Z)) :
  forall lo cs d err,
  factors_from lo fac -> Forall prime_ge_5 cs ->
  prime_reps_loop true fac (cs, d) = Throw err -> err = TypeError.
Proof.
  induction fac as [|[p e] fac IH]; intros lo cs d err Hfac Hcs;
    cbn [prime_reps_loop]; [discriminate|].
  cbn [factors_from fst snd] in Hfac. destruct Hfac as (H1 & Hp & He & Hrest).
  destruct (prime_reps_step true p e (cs, d)) as [[cs1 d1] | r | err1] eqn:E.
  - destruct (prime_reps_step_inv true p e cs cs1 d d1 Hp Hcs E) as (Hcs1 & _).
    apply (IH (p + 1)); assumption.
  - discriminate.
  - intros H. inversion H; subst.
    apply (prime_reps_step_throw p e cs d err Hp Hcs E).
Qed.

Lemma sum_of_two_squares_outcome (n : Z) :
  0 <= n ->
  (exists c l, sum_of_two_squares n = Ok (c, l)) \/
  sum_of_two_squares n = Raise TypeError.
Proof.
  intros Hn. unfold sum_of_two_squares, sum_of_two_squares_with.
  destruct (Z.ltb_spec n 0) as [Hneg | _]; [lia|].
  destruct (Z.eqb_spec n 0) as [-> | H0]; [left; eexists; eexists; reflexivity|].
  destruct (Z.eqb_spec n 1) as [-> | H1]; [left; eexists; eexists; reflexivity|].
  cbv zeta.
  destruct (factorint_spec n ltac:(lia)) as [Hprod Hfac].
  destruct (prime_reps_loop true (factorint n) _)
    as [[cs d] | [c l] | err] eqn:E.
  - left. pose proof (prime_reps_loop_continue _ _ _ _ E) as Hinf.
    apply (prime_reps_loop_inv true (factorint n) 2) in E;
      [|exact Hfac|apply primerange_prime_ge_5|reflexivity].
    destruct E as (Hok & _ & _).
    destruct (reps_loop_complete d (factorint n) 2 1 [(0, 1)]
                Hfac Hinf Hok complete_reps_one) as (out & Eout & Hout).
    rewrite Eout. eexists. eexists. reflexivity.
  - left. exists c, l. reflexivity.
  - right. f_equal.
    apply (prime_reps_loop_throw (factorint n) 2 _ _ err Hfac
             (primerange_prime_ge_5 _) E).
Qed.

(** ** Feasibility *)

Lemma count_formula_pos (fac : list (Z * Z)) (lo : Z) :
  factors_from lo fac -> 0 < count_formula fac.
Proof.
  unfold count_formula. rewrite prod_Zprod. revert lo.
  induction fac as [|pe fac IH]; intros lo; cbn [factors_from map Zprod fold_right].
  - intros _. lia.
  - intros (H1 & H2 & H3 & H4). specialize (IH _ H4).
    fold (Zprod (map (fun pe => if fst pe mod 4 =? 1 then snd pe + 1 else 1) fac))
      in *.
    destruct (fst pe mod 4 =? 1); nia.
Qed.

Lemma positive_count_has_rep (n : Z) :
  0 < n -> 0 < r_2 n -> exists r, is_rep n r.
Proof.
  intros Hn Hr. rewrite (r_2_divisor_sum n) in Hr by lia.
  rewrite <- (jacobi_two_squares n Hn) in Hr. unfold two_squares_count in Hr.
  destruct (circle_points n) as [|[x y] l] eqn:E; [cbn in Hr; lia|].
  assert (Hin : In (x, y) (circle_points n)) by (rewrite E; apply in_eq).
  apply In_circle_points in Hin.
  exists (canon (x, y)). rewrite <- Hin. apply (canon_is_rep (x, y)).
Qed.

Lemma sum_of_two_squares_feasibility (shared : bool) (n c : Z)
  (l : list (Z * Z)) :
  2 <= n -> sum_of_two_squares_with shared n = Ok (c, l) ->
  (infeasible (factorint n) = true -> c = 0 /\ l = []) /\
  (infeasible (factorint n) = false -> 0 < c /\ l <> []).
Proof.
  intros Hn H.
  pose proof (sum_of_two_squares_count shared n c l H) as Hc.
  destruct (sum_of_two_squares_list shared n c l H) as [Hl _].
  destruct (factorint_spec n ltac:(lia)) as [Hprod Hfac].
  rewrite (r_2_geom_prod n) in Hc by lia.
  split; intros Hinf.
  - rewrite (infeasible_geom_prod _ 2 Hfac Hinf) in Hc. split; [lia|].
    destruct l as [|[a b] l]; [reflexivity|]. exfalso.
    apply (infeasible_no_rep (factorint n) 2 (a, b) Hfac Hinf).
    rewrite Hprod. apply (Hl a b). apply in_eq.
  - rewrite <- (feasible_geom_prod _ 2 Hfac Hinf) in Hc.
    pose proof (count_formula_pos _ 2 Hfac) as Hpos.
    split; [lia|].
    destruct (positive_count_has_rep n ltac:(lia)) as [[a b] Hr].
    { rewrite (r_2_geom_prod n), <- (feasible_geom_prod _ 2 Hfac Hinf) by lia.
      exact Hpos. }
    intros ->. apply (Hl a b). exact Hr.
Qed.

(** ** Inputs with at most one search in the shared generator *)

Lemma lt_bound_max (q : Z) (a b : bound) :
  lt_bound q (bound_max a b) = lt_bound q a || lt_bound q b.
Proof.
  destruct a as [|x], b as [|y]; cbn [bound_max lt_bound];
    repeat match goal with
           | |- context [?u <? ?v] => destruct (Z.ltb_spec u v)
           end; cbn [orb]; try reflexivity; lia.
Qed.

Lemma lt_bound_max_bound (q : Z) (l : list bound) (b : bound) :
  In b l -> lt_bound q b = true -> lt_bound q (max_bound l) = true.
Proof.
  intros Hin Hb. induction l as [|x l IH]; [destruct Hin|].
  cbn [max_bound fold_right]. fold (max_bound l). rewrite lt_bound_max.
  destruct Hin as [-> | Hin].
  - rewrite Hb. reflexivity.
  - rewrite (IH Hin). apply orb_true_r.
Qed.

Lemma In_shared_candidates (fac : list (Z * Z)) (p e q : Z) :
  In (p, e) fac -> p mod 8 = 1 ->
  In q (primerange 5 (BSqrtPlus1 p)) -> In q (shared_candidates fac).
Proof.
  intros Hin H8 Hq. unfold shared_candidates.
  apply In_primerange in Hq. destruct Hq as (H5 & Hprime & Hlt).
  apply In_primerange. split; [exact H5|]. split; [exact Hprime|].
  apply (lt_bound_max_bound q _ (BSqrtPlus1 p)); [|exact Hlt].
  apply in_map_iff. exists (p, e). cbn [fst]. rewrite H8. auto.
Qed.

Lemma search_candidates_finds (p : Z) (cs : list Z) (q : Z) :
  In q cs -> euler_test p q = true ->
  exists g rest, search_candidates p cs = (Some g, rest).
Proof.
  intros Hin Ht. induction cs as [|c cs IH]; [destruct Hin|].
  cbn [search_candidates].
  destruct (((p mod c) ^ ((c - 1) / 2)) mod c =? c - 1) eqn:E.
  - exists c, cs. reflexivity.
  - destruct Hin as [-> | Hin]; [|apply IH; exact Hin].
    unfold euler_test in Ht. rewrite Ht in E. discriminate E.
Qed.

Lemma needs_search_mod8 (p : Z) :
  needs_search p = true -> p mod 4 = 1 /\ p mod 8 = 1 /\ p mod 3 <> 2.
Proof.
  unfold needs_search. rewrite !andb_true_iff, !negb_true_iff.
  rewrite Z.eqb_eq, !Z.eqb_neq. intros [[H4 H8] H3].
  split; [exact H4|]. split; [|exact H3].
  Z.div_mod_to_equations. lia.
Qed.

Lemma store_after_find (p e g : Z) (cs rest : list Z) (d : dict) :
  Z.prime p -> p mod 4 = 1 -> Forall prime_ge_5 cs ->
  find_quadratic_nonresidue p (Some cs) = (Some g, Some rest) ->
  exists d', prime_reps_step true p e (cs, d) = Continue (rest, d').
Proof.
  intros Hp H4 Hcs F.
  destruct (find_qnr_shared p cs g rest Hp H4 Hcs F) as [Hg _].
  destruct (descent_of_nonresidue p g Hp H4 Hg) as (a & b & Hd & _).
  exists (dict_set d p (a, b)). unfold prime_reps_step.
  replace (p mod 4 =? 3) with false by (rewrite H4; reflexivity).
  replace (p mod 4 =? 1) with true by (rewrite H4; reflexivity).
  rewrite F. cbv zeta in Hd. rewrite Hd. reflexivity.
Qed.

Lemma step_without_search (p e : Z) (cs : list Z) (d : dict) :
  Z.prime p -> needs_search p = false -> Forall prime_ge_5 cs ->
  (exists d', prime_reps_step true p e (cs, d) = Continue (cs, d')) \/
  (exists r, prime_reps_step true p e (cs, d) = Return r).
Proof.
  intros Hp Hns Hcs.
  destruct (Z.eq_dec (p mod 4) 1) as [E1 | E1].
  - left. apply (store_after_find p e (if p mod 8 =? 5 then 2 else 3));
      try assumption.
    unfold needs_search in Hns. rewrite E1 in Hns. cbn [Z.eqb Pos.eqb andb] in Hns.
    unfold find_quadratic_nonresidue.
    destruct (p mod 8 =? 5); [reflexivity|].
    destruct (p mod 3 =? 2); [reflexivity|discriminate Hns].
  - unfold prime_reps_step.
    destruct (Z.eqb_spec (p mod 4) 3) as [E3 | E3].
    + destruct (negb (Z.land e 1 =? 0)); [right|left]; eexists; reflexivity.
    + destruct (Z.eqb_spec (p mod 4) 1); [contradiction|].
      left. eexists. reflexivity.
Qed.

Lemma step_with_search (p e : Z) (cs : list Z) (d : dict) (q : Z) :
  Z.prime p -> needs_search p = true -> Forall prime_ge_5 cs ->
  In q cs -> euler_test p q = true ->
  exists cs' d', prime_reps_step true p e (cs, d) = Continue (cs', d').
Proof.
  intros Hp Hns Hcs Hin Ht.
  destruct (needs_search_mod8 p Hns) as (H4 & H8 & H3).
  destruct (search_candidates_finds p cs q Hin Ht) as (g & rest & Hs).
  exists rest. apply (store_after_find p e g); try assumption.
  unfold find_quadratic_nonresidue. rewrite H8. cbn [Z.eqb Pos.eqb].
  destruct (Z.eqb_spec (p mod 3) 2); [contradiction|].
  rewrite Hs. reflexivity.
Qed.

Lemma loop_without_search (fac : list (Z * Z)) :
  forall lo cs d err,
  factors_from lo fac -> Forall prime_ge_5 cs -> searches fac = 0%nat ->
  prime_reps_loop true fac (cs, d) <> Throw err.
Proof.
  induction fac as [|[p e] fac IH]; intros lo cs d err Hfac Hcs Hn;
    cbn [prime_reps_loop]; [discriminate|].
  cbn [factors_from fst snd] in Hfac. destruct Hfac as (H1 & Hp & He & Hrest).
  unfold searches in Hn. cbn [map filter fst] in Hn.
  destruct (needs_search p) eqn:Hns; [discriminate Hn|].
  destruct (step_without_search p e cs d Hp Hns Hcs) as [[d' E] | [r E]];
    rewrite E; [|discriminate].
  apply (IH (p + 1)); assumption.
Qed.

Lemma loop_with_one_search (fac : list (Z * Z)) :
  forall lo cs d err,
  factors_from lo fac -> Forall prime_ge_5 cs -> (searches fac <= 1)%nat ->
  (forall p e, In (p, e) fac -> needs_search p = true ->
     exists q, In q cs /\ euler_test p q = true) ->
  prime_reps_loop true fac (cs, d) <> Throw err.
Proof.
  induction fac as [|[p e] fac IH]; intros lo cs d err Hfac Hcs Hn Hq;
    cbn [prime_reps_loop]; [discriminate|].
  cbn [factors_from fst snd] in Hfac. destruct Hfac as (H1 & Hp & He & Hrest).
  unfold searches in Hn. cbn [map filter fst] in Hn.
  destruct (needs_search p) eqn:Hns.
  - destruct (Hq p e (in_eq _ _) Hns) as (q & Hin & Ht).
    destruct (step_with_search p e cs d q Hp Hns Hcs Hin Ht) as (cs' & d' & E).
    rewrite E.
    destruct (prime_reps_step_inv true p e cs cs' d d' Hp Hcs E) as (Hcs' & _).
    apply (loop_without_search fac (p + 1)); try assumption.
    unfold searches. cbn [length] in Hn. lia.
  - destruct (step_without_search p e cs d Hp Hns Hcs) as [[d' E] | [r E]];
      rewrite E; [|discriminate].
    apply (IH (p + 1)); try assumption.
    intros p' e' Hin. apply (Hq p' e'). right. exact Hin.
Qed.

Lemma factors_from_prime (fac : list (Z * Z)) : forall lo p e,
  factors_from lo fac -> In (p, e) fac -> Z.prime p.
Proof.
  induction fac as [|pe fac IH]; intros lo p e; cbn [factors_from In].
  - intros _ [].
  - intros (H1 & H2 & H3 & H4) [-> | Hin]; [exact H2|].
    apply (IH _ p e H4 Hin).
Qed.

Lemma sum_of_two_squares_one_search (n : Z) :
  0 <= n -> (searches (factorint n) <= 1)%nat ->
  exists c l, sum_of_two_squares n = Ok (c, l).
Proof.
  intros Hn Hs. unfold sum_of_two_squares, sum_of_two_squares_with.
  destruct (Z.ltb_spec n 0) as [Hneg | _]; [lia|].
  destruct (Z.eqb_spec n 0) as [-> | H0]; [eexists; eexists; reflexivity|].
  destruct (Z.eqb_spec n 1) as [-> | H1]; [eexists; eexists; reflexivity|].
  cbv zeta.
  destruct (factorint_spec n ltac:(lia)) as [Hprod Hfac].
  destruct (prime_reps_loop true (factorint n) _)
    as [[cs d] | [c l] | err] eqn:E.
  - pose proof (prime_reps_loop_continue _ _ _ _ E) as Hinf.
    apply (prime_reps_loop_inv true (factorint n) 2) in E;
      [|exact Hfac|apply primerange_prime_ge_5|reflexivity].
    destruct E as (Hok & _ & _).
    destruct (reps_loop_complete d (factorint n) 2 1 [(0, 1)]
                Hfac Hinf Hok complete_reps_one) as (out & Eout & Hout).
    rewrite Eout. eexists. eexists. reflexivity.
  - exists c, l. reflexivity.
  - exfalso.
    assert (Hcs : Forall prime_ge_5 (shared_candidates (factorint n)))
      by apply primerange_prime_ge_5.
    apply (loop_with_one_search (factorint n) 2 _ [(2, (1, 1))] err
             Hfac Hcs Hs); [|exact E].
    intros p e Hin Hns.
    destruct (needs_search_mod8 p Hns) as (H4 & H8 & H3).
    pose proof (factors_from_prime _ 2 p e Hfac Hin) as Hp.
    assert (H85 : p mod 8 <> 5) by lia.
    destruct (find_search p Hp H4 H85 H3) as (g & _ & _ & _ & _ & Hg & Ht & _).
    exists g. split; [|exact Ht].
    apply (In_shared_candidates _ p e); assumption.
Qed.

(** ** [r_2] from the factorization, and on negative numbers *)

Lemma r_2_formula (n : Z) :
  1 <= n ->
  r_2 n = if infeasible (factorint n) then 0 else count_formula (factorint n).
Proof.
  intros Hn. destruct (factorint_spec n ltac:(lia)) as [Hprod Hfac].
  rewrite (r_2_geom_prod n) by lia.
  destruct (infeasible (factorint n)) eqn:E.
  - rewrite (infeasible_geom_prod _ 2 Hfac E). reflexivity.
  - symmetry. apply (feasible_geom_prod _ 2 Hfac E).
Qed.

Lemma divisors_opp (n : Z) : divisors (- n) = divisors n.
Proof.
  unfold divisors.
  replace (Z.abs_nat (- n)) with (Z.abs_nat n) by lia.
  apply filter_ext_in. intros d Hd. apply In_Zseq in Hd.
  destruct (Z.eqb_spec (n mod d) 0) as [E | E].
  - apply Z.eqb_eq. apply Z.mod_opp_l_z; [lia|exact E].
  - apply Z.eqb_neq. intros E'. apply E.
    rewrite <- (Z.opp_involutive n). apply Z.mod_opp_l_z; [lia|exact E'].
Qed.

Lemma r_2_opp (n : Z) : r_2 (- n) = r_2 n.
Proof.
  unfold r_2. rewrite divisors_opp.
  replace (- n =? 0) with (n =? 0); [reflexivity|].
  destruct (Z.eqb_spec n 0), (Z.eqb_spec (- n) 0); try reflexivity; lia.
Qed.

Lemma r_2_two_squares_count (n : Z) : 0 <= n -> r_2 n = two_squares_count n.
Proof.
  intros Hn. destruct (Z.eq_dec n 0) as [-> | Hn0]; [reflexivity|].
  rewrite r_2_divisor_sum by assumption.
  symmetry. apply jacobi_two_squares. lia.
Qed.

Lemma r_2_of_negative (n : Z) :
  n < 0 ->
  r_2 n = two_squares_count (- n) /\ 0 <= r_2 n /\
  forall x y, x * x + y * y <> n.
Proof.
  intros Hn.
  assert (E : r_2 n = two_squares_count (- n)).
  { rewrite <- (r_2_opp n). apply r_2_two_squares_count. lia. }
  split; [exact E|]. split.
  - rewrite E. unfold two_squares_count. lia.
  - intros x y. nia.
Qed.

(** ** [rep_prod] up to signs and order *)

Lemma rep_prod_comm (a b c d : Z) : rep_prod a b c d = rep_prod c d a b.
Proof.
  unfold rep_prod.
  replace (c * a + d * b) with (a * c + b * d) by ring.
  replace (c * b - d * a) with (- (a * d - b * c)) by ring.
  replace (c * a - d * b) with (a * c - b * d) by ring.
  replace (c * b + d * a) with (a * d + b * c) by ring.
  rewrite Z.abs_opp. reflexivity.
Qed.

Lemma rep_prod_incl (u v u' v' : Z * Z) :
  canon u = canon u' -> canon v = canon v' ->
  forall r, In r (rep_prod (fst u) (snd u) (fst v) (snd v)) ->
            In r (rep_prod (fst u') (snd u') (fst v') (snd v')).
Proof.
  intros Hu Hv r Hr. apply rep_prod_In in Hr. destruct Hr as [-> | ->].
  - replace (canon (fst u * fst v + snd u * snd v,
                    fst u * snd v - snd u * fst v))
      with (canon (gauss_mul (fst u) (snd u) (fst v, - snd v)))
      by canon_by_squares.
    apply rep_prod_invariance; [exact Hu|].
    rewrite <- Hv. canon_by_squares.
  - apply (rep_prod_invariance u v u' v' Hu Hv).
Qed.

Lemma rep_prod_same_pairs (a b c d a' b' c' d' : Z) :
  canon (a, b) = canon (a', b') -> canon (c, d) = canon (c', d') ->
  forall r, In r (rep_prod a b c d) <-> In r (rep_prod a' b' c' d').
Proof.
  intros Hu Hv r. split.
  - apply (rep_prod_incl (a, b) (c, d) (a', b') (c', d') Hu Hv).
  - apply (rep_prod_incl (a', b') (c', d') (a, b) (c, d)); symmetry; assumption.
Qed.

Lemma rep_prod_unit (c d : Z) : rep_prod 0 1 c d = [canon (c, d)].
Proof.
  unfold rep_prod, canon. cbn [fst snd].
  replace (0 * c + 1 * d) with d by ring.
  replace (0 * d - 1 * c) with (- c) by ring.
  replace (0 * c - 1 * d) with (- d) by ring.
  replace (0 * d + 1 * c) with c by ring.
  rewrite !Z.abs_opp, !sorted2_min_max.
  rewrite (Z.min_comm (Z.abs d)), (Z.max_comm (Z.abs d)).
  replace (pair_eqb _ _) with true; [reflexivity|].
  symmetry. apply pair_eqb_eq. reflexivity.
Qed.

(** ** [rep_prime_power] on any pair and any exponent *)

Lemma rep_prime_power_iter_norm (r0 : Z * Z) (k : nat) :
  forall r, In r (Nat.iter k (rep_prime_power_round r0) [r0]) ->
  norm r = norm r0 ^ Z.of_nat (S k) /\
  ((0 < k)%nat -> 0 <= fst r <= snd r).
Proof.
  induction k as [|k IH]; intros r Hr.
  - destruct Hr as [<- | []]. split; [|lia].
    change (Z.of_nat 1) with 1. rewrite Z.pow_1_r. reflexivity.
  - rewrite Nat.iter_succ in Hr. apply round_In in Hr.
    destruct Hr as (r1 & r2 & H1 & [<- | []] & H).
    apply rep_prod_is_rep in H. destruct H as [Hc Hn].
    destruct (IH r1 H1) as [Hn1 _]. split; [|intros _; exact Hc].
    rewrite Hn. fold (norm r1). fold (norm r0). rewrite Hn1.
    rewrite (Nat2Z.inj_succ (S k)), Z.pow_succ_r by lia. ring.
Qed.

Lemma rep_prime_power_sound (a b n : Z) (r : Z * Z) :
  In r (rep_prime_power (a, b) n) ->
  norm r = (a * a + b * b) ^ Z.max n 1 /\ (2 <= n -> 0 <= fst r <= snd r).
Proof.
  unfold rep_prime_power. cbv zeta. intros Hr.
  destruct (rep_prime_power_iter_norm (a, b) (Z.to_nat (n - 1)) r Hr)
    as [Hn Hc].
  split.
  - rewrite Hn. unfold norm. cbn [fst snd]. f_equal. lia.
  - intros H. apply Hc. lia.
Qed.

Lemma rep_prime_power_nonempty (r0 : Z * Z) (n : Z) :
  rep_prime_power r0 n <> [].
Proof.
  unfold rep_prime_power. cbv zeta.
  induction (Z.to_nat (n - 1)) as [|k IH]; [discriminate|].
  rewrite Nat.iter_succ.
  destruct (Nat.iter k (rep_prime_power_round r0) [r0]) as [|r l];
    [contradiction|].
  unfold rep_prime_power_round, rep_prod. cbn [flat_map].
  destruct (negb _); discriminate.
Qed.

(** ** What a search takes from the generator *)



(** ** The first search of a call *)

Lemma first_search_is_fresh (fac : list (Z * Z)) (p e : Z) :
  Z.prime p -> p mod 4 = 1 -> In (p, e) fac ->
  exists g,
    fst (find_quadratic_nonresidue p (Some (shared_candidates fac))) = Some g /\
    fst (find_quadratic_nonresidue p None) = Some g /\
    least_qnr p g.
Proof.
  intros Hp H4 Hin.
  destruct (Z.eq_dec (p mod 8) 5) as [H8 | H8].
  { destruct (find_mod8_5 p Hp H8) as [Hf Hl]. exists 2.
    split; [|split; [rewrite Hf; reflexivity|exact Hl]].
    unfold find_quadratic_nonresidue. rewrite H8. reflexivity. }
  pose proof (mod8_is_1 p H4 H8) as H81.
  destruct (Z.eq_dec (p mod 3) 2) as [H3 | H3].
  { destruct (find_mod3_2 p Hp H4 H8 H3) as [Hf Hl]. exists 3.
    split; [|split; [rewrite Hf; reflexivity|exact Hl]].
    unfold find_quadratic_nonresidue. rewrite H81, H3. reflexivity. }
  destruct (find_search p Hp H4 H8 H3)
    as (g & Hf & Hl & Hg & Hr & Hgin & Ht & Hbelow).
  exists g. split; [|split; [rewrite Hf; reflexivity|exact Hl]].
  pose proof (In_shared_candidates fac p e g Hin H81 Hgin) as Hs.
  unfold find_quadratic_nonresidue. rewrite H81. cbn [Z.eqb Pos.eqb].
  destruct (Z.eqb_spec (p mod 3) 2); [contradiction|].
  destruct (search_candidates p (shared_candidates fac)) as [r rest] eqn:E.
  cbn [fst]. change r with (fst (r, rest)). rewrite <- E.
  unfold shared_candidates, primerange in Hs |- *.
  apply filter_In in Hs. destruct Hs as [Hz Hfg]. apply In_Zseq in Hz.
  apply search_candidates_first; try assumption.
  intros q Hq Hfq. apply andb_true_iff in Hfq. destruct Hfq as [Hpq _].
  apply Hbelow; [apply isprime_spec; exact Hpq|lia].
Qed.

(** ** Prime inputs *)

Lemma factors_prod_one (fac : list (Z * Z)) (lo : Z) :
  factors_from lo fac -> factors_prod fac = 1 -> fac = [].
Proof.
  destruct fac as [|pe fac]; [reflexivity|].
  cbn [factors_from]. intros (H1 & H2 & H3 & H4). rewrite factors_prod_cons.
  intros H. exfalso.
  pose proof (Z.prime_ge_2 _ H2) as Hp.
  pose proof (factors_prod_pos fac _ H4) as HR.
  assert (Hpow : fst pe ^ 1 <= fst pe ^ snd pe)
    by (apply Z.pow_le_mono_r; lia).
  rewrite Z.pow_1_r in Hpow. nia.
Qed.

Lemma factorint_prime (p : Z) : Z.prime p -> factorint p = [(p, 1)].
Proof.
  intros Hp. pose proof (Z.prime_ge_2 p Hp) as Hp2.
  destruct (factorint_spec p ltac:(lia)) as [Hprod Hfac].
  destruct (factorint p) as [|[q e] rest].
  - cbn in Hprod. lia.
  - cbn [factors_from fst snd] in Hfac. destruct Hfac as (H1 & Hq & He & Hrest).
    rewrite factors_prod_cons in Hprod. cbn [fst snd] in Hprod.
    pose proof (factors_prod_pos rest _ Hrest) as HR.
    assert (Hqp : q = p).
    { destruct (Z.eq_dec q p) as [E | E]; [exact E|]. exfalso.
      apply (prime_not_divide p q Hp); [lia|exact E|].
      exists (q ^ (e - 1) * factors_prod rest). rewrite <- Hprod.
      replace e with (Z.succ (e - 1)) at 1 by lia.
      rewrite Z.pow_succ_r by lia. ring. }
    subst q.
    assert (Hone : p ^ (e - 1) * factors_prod rest = 1).
    { replace e with (Z.succ (e - 1)) in Hprod by lia.
      rewrite Z.pow_succ_r in Hprod by lia. nia. }
    assert (Hpow : 0 < p ^ (e - 1)) by (apply Z.pow_pos_nonneg; lia).
    assert (He1 : e = 1).
    { destruct (Z.eq_dec e 1) as [E | E]; [exact E|]. exfalso.
      assert (Hle : p ^ 1 <= p ^ (e - 1)) by (apply Z.pow_le_mono_r; lia).
      rewrite Z.pow_1_r in Hle. nia. }
    subst e. change (1 - 1) with 0 in Hone. rewrite Z.pow_0_r in Hone.
    rewrite (factors_prod_one rest _ Hrest) by lia. reflexivity.
Qed.

Lemma sum_of_two_squares_prime1 (p : Z) :
  Z.prime p -> p mod 4 = 1 ->
  exists a b, sum_of_two_squares p = Ok (8, [(a, b)]) /\
              0 < a < b /\ a * a + b * b = p.
Proof.
  intros Hp H4. pose proof (Z.prime_ge_2 p Hp) as Hp2.
  pose proof (factorint_prime p Hp) as Hfac.
  destruct (sum_of_two_squares_one_search p ltac:(lia)) as (c & l & E).
  { rewrite Hfac. unfold searches. cbn [map filter fst].
    destruct (needs_search p); cbn [length]; lia. }
  destruct (fermat_two_squares p Hp H4) as (a & b & Hs & Hab).
  exists b, a. split; [|split; [lia|lia]].
  rewrite E. f_equal.
  pose proof (sum_of_two_squares_count true p c l E) as Hc.
  destruct (sum_of_two_squares_list true p c l E) as [Hl Hsorted].
  f_equal.
  - rewrite Hc, (r_2_geom_prod p) by lia. rewrite Hfac.
    cbn [geom_prod fold_right fst snd]. rewrite (chi4_mod1 p H4).
    reflexivity.
  - apply sorted_unique; [exact Hsorted|repeat constructor|].
    intros [x y]. rewrite Hl. cbn [In]. split.
    + intros [Hxy Hn]. left.
      destruct (covers_prime1 p a b Hp H4 Hs Hab) as [_ Hcov].
      destruct (Hcov (x, y) Hn) as (r & [<- | []] & Hr).
      rewrite (is_rep_canon p (x, y)) in Hr by (split; assumption).
      rewrite <- Hr. unfold canon. cbn [fst snd].
      rewrite sorted2_min_max. f_equal; lia.
    + intros [H | []]. inversion H; subst. lia.
Qed.

Lemma sum_of_two_squares_prime3 (p : Z) :
  Z.prime p -> p mod 4 = 3 -> sum_of_two_squares p = Ok (0, []).
Proof.
  intros Hp H4. pose proof (Z.prime_ge_2 p Hp) as Hp2.
  unfold sum_of_two_squares, sum_of_two_squares_with.
  destruct (Z.ltb_spec p 0); [lia|].
  destruct (Z.eqb_spec p 0); [lia|].
  destruct (Z.eqb_spec p 1); [lia|].
  cbv zeta. rewrite (factorint_prime p Hp).
  cbn [prime_reps_loop]. unfold prime_reps_step. rewrite H4. reflexivity.
Qed.

(** ** The table [prime_reps] after the first loop *)

Lemma prime_reps_of_ok (n : Z) (d : dict) :
  2 <= n -> prime_reps_of n = Some d ->
  forall p e, In (p, e) (factorint n) ->
  (p mod 4 = 3 -> dict_get d p = Some (0, p ^ (e / 2))) /\
  (p mod 4 = 1 ->
     exists a b, dict_get d p = Some (a, b) /\ a * a + b * b = p /\ 0 < b < a) /\
  (p = 2 -> dict_get d p = Some (1, 1)).
Proof.
  intros Hn. unfold prime_reps_of. cbv zeta.
  destruct (factorint_spec n ltac:(lia)) as [_ Hfac].
  destruct (prime_reps_loop true (factorint n) _) as [[cs d'] | r | err] eqn:E;
    try discriminate.
  intros H. inversion H; subst d'.
  apply (prime_reps_loop_inv true (factorint n) 2) in E;
    [|exact Hfac|apply primerange_prime_ge_5|reflexivity].
  destruct E as (Hok & _ & _). rewrite Forall_forall in Hok.
  intros p e Hin. apply (Hok (p, e) Hin).
Qed.

(** ** Searches whose results increase *)









(** ** The column [Count] *)

Lemma pair_sum_ext (f g : Z * Z -> Z) (l : list (Z * Z)) :
  (forall r, In r l -> f r = g r) -> pair_sum f l = pair_sum g l.
Proof.
  induction l as [|x l IH]; intros H; [reflexivity|].
  cbn [pair_sum fold_right]. fold (pair_sum f l). fold (pair_sum g l).
  rewrite (H x (in_eq _ _)), IH; [reflexivity|].
  intros r Hr. apply H. right. exact Hr.
Qed.

Lemma pair_sum_add (f g : Z * Z -> Z) (l : list (Z * Z)) :
  pair_sum (fun r => f r + g r) l = pair_sum f l + pair_sum g l.
Proof.
  induction l as [|x l IH]; [reflexivity|].
  cbn [pair_sum fold_right]. fold (pair_sum f l). fold (pair_sum g l).
  fold (pair_sum (fun r => f r + g r) l). rewrite IH. ring.
Qed.

Lemma pair_sum_zero (l : list (Z * Z)) : pair_sum (fun _ => 0) l = 0.
Proof. induction l as [|x l IH]; [reflexivity|]. cbn. exact IH. Qed.

Lemma pair_sum_absent (x : Z * Z) (l : list (Z * Z)) :
  ~ In x l -> pair_sum (fun r => if pair_eqb x r then 1 else 0) l = 0.
Proof.
  induction l as [|y l IH]; intros H; [reflexivity|].
  cbn [pair_sum fold_right].
  fold (pair_sum (fun r => if pair_eqb x r then 1 else 0) l).
  destruct (pair_eqb x y) eqn:E.
  - exfalso. apply H. left. symmetry. apply pair_eqb_eq. exact E.
  - rewrite IH; [reflexivity|]. intros Hin. apply H. right. exact Hin.
Qed.

Lemma pair_sum_present (x : Z * Z) (l : list (Z * Z)) :
  NoDup l -> In x l ->
  pair_sum (fun r => if pair_eqb x r then 1 else 0) l = 1.
Proof.
  induction l as [|y l IH]; intros Hnd Hin; [destruct Hin|].
  inversion Hnd as [|y' l' Hy Hl]; subst.
  cbn [pair_sum fold_right].
  fold (pair_sum (fun r => if pair_eqb x r then 1 else 0) l).
  destruct (pair_eqb x y) eqn:E.
  - apply pair_eqb_eq in E. subst y. rewrite pair_sum_absent by exact Hy.
    reflexivity.
  - destruct Hin as [-> | Hin].
    + assert (pair_eqb x x = true) by (apply pair_eqb_eq; reflexivity).
      congruence.
    + rewrite (IH Hl Hin). reflexivity.
Qed.

(** The points of a list fall into the classes of their canonical
    pairs. *)
Lemma class_partition (pts l : list (Z * Z)) :
  NoDup l -> (forall z, In z pts -> In (canon z) l) ->
  Z.of_nat (length pts)
  = pair_sum (fun r => Z.of_nat (length (filter (same_class r) pts))) l.
Proof.
  intros Hnd. induction pts as [|z pts IH]; intros Hin.
  - cbn [filter length]. rewrite pair_sum_zero. reflexivity.
  - rewrite (pair_sum_ext _
               (fun r => (if pair_eqb (canon z) r then 1 else 0)
                         + Z.of_nat (length (filter (same_class r) pts)))).
    + rewrite pair_sum_add, <- IH.
      * rewrite pair_sum_present; [cbn [length]; lia|exact Hnd|].
        apply Hin. left. reflexivity.
      * intros z' Hz'. apply Hin. right. exact Hz'.
    + intros r _. cbn [filter]. unfold same_class at 1.
      destruct (pair_eqb (canon z) r); cbn [length]; lia.
Qed.

Lemma class_In (n : Z) (r z : Z * Z) :
  is_rep n r ->
  (In z (filter (same_class r) (circle_points n)) <-> canon z = r).
Proof.
  intros Hr. rewrite filter_In. unfold same_class. rewrite pair_eqb_eq.
  split; [intros [_ H]; exact H|]. intros H. split; [|exact H].
  destruct z as [x y]. apply In_circle_points.
  destruct Hr as [_ Hn]. rewrite <- Hn, <- H.
  symmetry. apply (canon_norm (x, y)).
Qed.

Ltac find_in := first [left; reflexivity | right; find_in].

Ltac distinct_pairs :=
  repeat (apply NoDup_cons;
          [let H := fresh "Hmem" in
           cbn [In]; intros H;
           repeat (destruct H as [H | H];
                   [inversion H; lia|]); exact H|]);
  apply NoDup_nil.

Lemma class_members (a b : Z) (z : Z * Z) :
  0 <= a <= b ->
  (canon z = (a, b) <->
   In z [(a, b); (- a, b); (a, - b); (- a, - b);
         (b, a); (- b, a); (b, - a); (- b, - a)]).
Proof.
  intros Hab.
  assert (Hc : canon (a, b) = (a, b))
    by (apply (is_rep_canon (a * a + b * b)); split; [exact Hab|reflexivity]).
  split.
  - intros H. rewrite <- Hc in H. apply canon_cases in H.
    destruct z as [x y]. cbn [fst snd] in H.
    destruct H as [[[-> | ->] [-> | ->]] | [[-> | ->] [-> | ->]]]; find_in.
  - intros H. rewrite <- Hc. cbn [In] in H.
    repeat (destruct H as [<- | H]; [canon_by_squares|]). destruct H.
Qed.

Lemma class_size (n : Z) (r : Z * Z) :
  is_rep n r ->
  Z.of_nat (length (filter (same_class r) (circle_points n))) = weight r.
Proof.
  intros Hr. destruct r as [a b]. pose proof Hr as [Hab _].
  cbn [fst snd] in Hab.
  assert (Hnd : NoDup (filter (same_class (a, b)) (circle_points n)))
    by (apply NoDup_filter, NoDup_circle_points).
  assert (Hin : forall z,
             In z (filter (same_class (a, b)) (circle_points n)) <->
             In z [(a, b); (- a, b); (a, - b); (- a, - b);
                   (b, a); (- b, a); (b, - a); (- b, - a)]).
  { intros z. rewrite (class_In n (a, b) z Hr). apply class_members. exact Hab. }
  unfold weight, coincidences. cbn [fst snd].
  destruct (Z.eq_dec a 0) as [Ha | Ha]; destruct (Z.eq_dec a b) as [Hb | Hb].
  - (* a = b = 0 *)
    subst a. subst b. cbn [Z.eqb bool_to_Z].
    rewrite (Permutation_length
               (NoDup_Permutation Hnd (l' := [(0, 0)]) ltac:(distinct_pairs)
                  ltac:(intros z; rewrite Hin; cbn; tauto))).
    reflexivity.
  - (* a = 0 < b *)
    subst a. replace (0 =? b) with false by (symmetry; apply Z.eqb_neq; lia).
    replace (b =? 0) with false by (symmetry; apply Z.eqb_neq; lia).
    cbn [Z.eqb bool_to_Z].
    rewrite (Permutation_length
               (NoDup_Permutation Hnd
                  (l' := [(0, b); (0, - b); (b, 0); (- b, 0)])
                  ltac:(distinct_pairs)
                  ltac:(intros z; rewrite Hin; cbn; tauto))).
    reflexivity.
  - (* 0 < a = b *)
    subst b. rewrite Z.eqb_refl.
    replace (a =? 0) with false by (symmetry; apply Z.eqb_neq; lia).
    cbn [bool_to_Z].
    rewrite (Permutation_length
               (NoDup_Permutation Hnd
                  (l' := [(a, a); (- a, a); (a, - a); (- a, - a)])
                  ltac:(distinct_pairs)
                  ltac:(intros z; rewrite Hin; cbn; tauto))).
    reflexivity.
  - (* 0 < a < b *)
    replace (a =? b) with false by (symmetry; apply Z.eqb_neq; lia).
    replace (a =? 0) with false by (symmetry; apply Z.eqb_neq; lia).
    replace (b =? 0) with false by (symmetry; apply Z.eqb_neq; lia).
    cbn [bool_to_Z].
    rewrite (Permutation_length
               (NoDup_Permutation Hnd
                  (l' := [(a, b); (- a, b); (a, - b); (- a, - b);
                          (b, a); (- b, a); (b, - a); (- b, - a)])
                  ltac:(distinct_pairs) Hin)).
    reflexivity.
Qed.

Lemma sorted_NoDup (l : list (Z * Z)) : StronglySorted pair_lt l -> NoDup l.
Proof.
  induction l as [|u l IH]; intros H; [constructor|].
  apply StronglySorted_inv in H. destruct H as [Hs Hu].
  constructor; [|apply IH; exact Hs].
  intros Hin. rewrite Forall_forall in Hu.
  apply (pair_lt_irrefl u). apply Hu. exact Hin.
Qed.

(** The weights of the canonical pairs of [n] add up to the number of
    points. *)
Lemma weights_total (n : Z) (l : list (Z * Z)) :
  NoDup l -> complete_reps n l ->
  pair_sum weight l = two_squares_count n.
Proof.
  intros Hnd Hl. unfold two_squares_count.
  rewrite (class_partition (circle_points n) l Hnd).
  - apply pair_sum_ext. intros r Hr. symmetry. apply class_size.
    apply Hl. exact Hr.
  - intros [x y] Hz. apply In_circle_points in Hz. apply Hl.
    rewrite <- Hz. apply (canon_is_rep (x, y)).
Qed.

Lemma count_weight (r : Z * Z) :
  QArith_base.Qeq (count (row_of r)) (QArith_base.inject_Z (weight r)).
Proof.
  unfold row_of, count, weight, coincidences.
  destruct (fst r =? snd r), (fst r =? 0), (snd r =? 0); reflexivity.
Qed.

Lemma count_total_weights (l : list (Z * Z)) :
  QArith_base.Qeq (count_total (map row_of l))
                  (QArith_base.inject_Z (pair_sum weight l)).
Proof.
  induction l as [|r l IH]; [reflexivity|].
  cbn [map count_total fold_right pair_sum].
  fold (count_total (map row_of l)). fold (pair_sum weight l).
  rewrite QArith_base.inject_Z_plus.
  apply QArith_base.Qplus_comp; [apply count_weight|exact IH].
Qed.

Lemma returned_nonnegative (shared : bool) (n : Z) (res : Z * list (Z * Z)) :
  sum_of_two_squares_with shared n = Ok res -> 0 <= n.
Proof.
  unfold sum_of_two_squares_with.
  destruct (Z.ltb_spec n 0); [discriminate|lia].
Qed.

Lemma count_column_total (shared : bool) (n c : Z) (l : list (Z * Z)) :
  sum_of_two_squares_with shared n = Ok (c, l) ->
  QArith_base.Qeq (count_total (rows (table_of l))) (QArith_base.inject_Z c).
Proof.
  intros H. pose proof (returned_nonnegative shared n _ H) as Hn.
  pose proof (sum_of_two_squares_count shared n c l H) as Hc.
  destruct (sum_of_two_squares_list shared n c l H) as [Hl Hs].
  cbn [table_of rows].
  rewrite Hc, (r_2_two_squares_count n Hn).
  rewrite <- (weights_total n l (sorted_NoDup l Hs)).
  - apply count_total_weights.
  - intros [a b]. apply Hl.
Qed.

(** ** Which text is printed *)

Lemma count_zero_iff (shared : bool) (n c : Z) (l : list (Z * Z)) :
  sum_of_two_squares_with shared n = Ok (c, l) ->
  (c = 0 <-> forall x y, x * x + y * y <> n).
Proof.
  intros H. pose proof (returned_nonnegative shared n _ H) as Hn.
  rewrite (sum_of_two_squares_count shared n c l H).
  rewrite (r_2_two_squares_count n Hn). unfold two_squares_count. split.
  - intros E x y Hxy. apply In_circle_points in Hxy.
    destruct (circle_points n); [destruct Hxy|cbn [length] in E; lia].
  - intros Hno. rewrite (circle_points_empty n Hno). reflexivity.
Qed.

Lemma print_representations_cases (tabulate : option (table -> String.string))
  (n c : Z) (l : list (Z * Z)) :
  sum_of_two_squares n = Ok (c, l) ->
  ((forall x y, x * x + y * y <> n) ->
   l = [] /\
   print_representations tabulate n
   = Printed (print_lines
                [input_line n;
                 "No representations exist, r_2(n) = 0."%string])) /\
  ((exists x y, x * x + y * y = n) ->
   l <> [] /\
   print_representations tabulate n
   = match tabulate with
     | None => RaisesNameError
     | Some tabulate =>
         Printed (print_lines
                    [input_line n;
                     String.append "r_2(n) = "
                       (String.append (fmt_comma c)
                                      ". The representations are:");
                     tabulate (table_of l)])
     end).
Proof.
  intros H. pose proof (count_zero_iff true n c l H) as Hz.
  destruct (sum_of_two_squares_list true n c l H) as [Hl _].
  unfold print_representations. rewrite H. cbn [fst snd]. split.
  - intros Hno. split.
    + destruct l as [|[a b] l]; [reflexivity|]. exfalso.
      apply (Hno a b). apply (Hl a b). apply in_eq.
    + replace (c =? 0) with true; [reflexivity|].
      symmetry. apply Z.eqb_eq. apply Hz. exact Hno.
  - intros (x & y & Hxy). split.
    + intros ->. apply (Hl (fst (canon (x, y))) (snd (canon (x, y)))).
      destruct (canon_is_rep (x, y)) as [Hc Hn]. split; [exact Hc|].
      unfold norm in Hn. cbn [fst snd] in Hn. rewrite <- Hxy. exact Hn.
    + replace (c =? 0) with false; [reflexivity|].
      symmetry. apply Z.eqb_neq. intros Hc0.
      apply (proj1 Hz Hc0 x y). exact Hxy.
Qed.

Lemma name_error_cases (n : Z) :
  print_representations None n = RaisesNameError <->
  (exists c l, sum_of_two_squares n = Ok (c, l)) /\
  exists x y, x * x + y * y = n.
Proof.
  split.
  - intros H. unfold print_representations in H.
    destruct (sum_of_two_squares n) as [[c l] | err] eqn:E; [|discriminate H].
    split; [exists c, l; reflexivity|].
    cbn [fst] in H. destruct (Z.eqb_spec c 0) as [Hc | Hc]; [discriminate H|].
    pose proof (count_zero_iff true n c l E) as Hz.
    pose proof (returned_nonnegative true n _ E) as Hn.
    destruct (circle_points n) as [|[x y] pts] eqn:Ep.
    + exfalso. apply Hc. apply Hz. intros x y Hxy.
      apply In_circle_points in Hxy. rewrite Ep in Hxy. destruct Hxy.
    + exists x, y. apply In_circle_points. rewrite Ep. apply in_eq.
  - intros [(c & l & E) Hex].
    destruct (print_representations_cases None n c l E) as [_ H].
    apply H. exact Hex.
Qed.

(** ** Reading a formatted number back *)

Lemma filter_group3 (k : nat) : forall l,
  (length l <= k)%nat -> forallb not_comma l = true ->
  filter not_comma (group3 l) = l.
Proof.
  induction k as [|k IH]; intros l Hlen Hall.
  - destruct l; [reflexivity|cbn [length] in Hlen; lia].
  - destruct l as [|a [|b [|c [|d rest]]]];
      try (cbn [group3]; apply forallb_filter_id; exact Hall).
    change (group3 (a :: b :: c :: d :: rest))
      with (a :: b :: c :: ","%char :: group3 (d :: rest)).
    cbn [forallb] in Hall.
    apply andb_true_iff in Hall. destruct Hall as [Ha Hall].
    apply andb_true_iff in Hall. destruct Hall as [Hb Hall].
    apply andb_true_iff in Hall. destruct Hall as [Hc Hall].
    cbn [filter]. rewrite Ha, Hb, Hc.
    change (not_comma ","%char) with false. cbv iota.
    rewrite IH; [reflexivity| |exact Hall].
    cbn [length] in *. lia.
Qed.

Lemma filter_rev_comm (A : Type) (f : A -> bool) (l : list A) :
  filter f (rev l) = rev (filter f l).
Proof.
  induction l as [|x l IH]; [reflexivity|].
  cbn [rev filter]. rewrite filter_app, IH. cbn [filter].
  destruct (f x); [reflexivity|apply app_nil_r].
Qed.

Lemma uint_digits_not_comma (u : Decimal.uint) :
  forallb not_comma
    (String.list_ascii_of_string (DecimalString.NilEmpty.string_of_uint u))
  = true.
Proof.
  induction u; cbn [DecimalString.NilEmpty.string_of_uint
                    String.list_ascii_of_string forallb];
    try reflexivity; rewrite IHu; reflexivity.
Qed.

Lemma digits_not_comma (m : Z) : forallb not_comma (digits m) = true.
Proof.
  unfold digits, DecimalString.NilZero.string_of_uint.
  destruct (N.to_uint (Z.to_N m)) eqn:E; try reflexivity;
    rewrite <- E; apply uint_digits_not_comma.
Qed.

Lemma forallb_rev (A : Type) (f : A -> bool) (l : list A) :
  forallb f l = true -> forallb f (rev l) = true.
Proof.
  rewrite !forallb_forall. intros H x Hx. apply H. apply in_rev. exact Hx.
Qed.

Lemma strip_body (m : Z) :
  filter not_comma (rev (group3 (rev (digits m)))) = digits m.
Proof.
  rewrite filter_rev_comm.
  rewrite (filter_group3 (length (rev (digits m)))); [apply rev_involutive| |].
  - lia.
  - apply forallb_rev, digits_not_comma.
Qed.

Lemma to_uint_nonnil (m : N) : N.to_uint m <> Decimal.Nil.
Proof.
  destruct m as [|p]; cbn [N.to_uint]; [discriminate|].
  apply DecimalPos.Unsigned.to_uint_nonnil.
Qed.

Lemma parse_fmt_comma (n : Z) : parse_comma (fmt_comma n) = Some n.
Proof.
  unfold parse_comma, strip_commas, fmt_comma. cbv zeta.
  set (u := N.to_uint (Z.to_N (Z.abs n))).
  assert (Hu : u <> Decimal.Nil) by apply to_uint_nonnil.
  assert (Hb : String.string_of_list_ascii (digits (Z.abs n))
               = DecimalString.NilZero.string_of_uint u)
    by (unfold digits; apply String.string_of_list_ascii_of_string).
  assert (Hval : Z.of_N (Pos.of_uint u) = Z.abs n).
  { unfold u. change (Pos.of_uint ?d) with (N.of_uint d).
    rewrite DecimalN.Unsigned.of_to. lia. }
  destruct (Z.ltb_spec n 0) as [Hneg | Hpos].
  - cbn [String.list_ascii_of_string filter].
    change (not_comma "-"%char) with true. cbv iota.
    rewrite String.list_ascii_of_string_of_list_ascii, strip_body.
    cbn [String.string_of_list_ascii]. rewrite Hb.
    cbn [DecimalString.NilZero.int_of_string].
    change (Ascii.eqb "-"%char "-"%char) with true. cbv iota.
    rewrite (DecimalString.NilZero.usu u Hu). cbn [option_map Z.of_int].
    f_equal. unfold Z.of_uint. rewrite Hval. lia.
  - rewrite String.list_ascii_of_string_of_list_ascii, strip_body, Hb.
    change (DecimalString.NilZero.string_of_uint u)
      with (DecimalString.NilZero.string_of_int (Decimal.Pos u)).
    rewrite DecimalString.NilZero.isi;
      [|intros E; inversion E; contradiction|discriminate].
    cbn [option_map Z.of_int]. f_equal. unfold Z.of_uint. rewrite Hval. lia.
Qed.

(** ** The descent loop of [sum_of_two_squares] *)

Lemma descent_divisors_head (fuel : nat) (p a b : Z) :
  descent_divisors fuel p a b = [] \/
  exists l, descent_divisors fuel p a b = b :: l.
Proof.
  destruct fuel; cbn [descent_divisors]; destruct (ge_sqrt a p); auto.
  right. eexists. reflexivity.
Qed.

(** Positive divisors decrease: each one is the remainder by the one
    before. *)
Lemma descent_divisors_decreasing (fuel : nat) : forall p a b,
  Forall (fun d => 0 < d) (descent_divisors fuel p a b) ->
  Sorted Z.gt (descent_divisors fuel p a b).
Proof.
  induction fuel as [|fuel IH]; intros p a b; cbn [descent_divisors];
    destruct (ge_sqrt a p); intros H; try apply Sorted_nil.
  inversion H as [|d l Hb Hrest]; subst.
  destruct (Z.eqb_spec b 0) as [E | E]; [lia|].
  apply Sorted_cons; [apply IH; exact Hrest|].
  destruct (descent_divisors_head fuel p b (a mod b)) as [-> | [l' ->]];
    constructor.
  pose proof (Z.mod_pos_bound a b Hb). lia.
Qed.

(** C10: for a prime [p = 1 mod 4] and the seed [x = g^((p-1)/4) mod p] of
    a quadratic non-residue [g], [0 < x < p], [gcd(p, x) = 1] and
    [x^2 = -1 mod p]; the loop [while a >= sqrt(p): a, b = b, a % b] from
    [(p, x)] stops, the divisors it takes a remainder by are positive (no
    division by zero) and strictly decreasing, and it leaves a positive
    [a] below [sqrt(p)]. *)
Theorem descent_terminates (p g : Z) :
  Z.prime p -> p mod 4 = 1 -> ~ is_qr p g ->
  let x := (g ^ ((p - 1) / 4)) mod p in
  0 < x < p /\ Z.gcd p x = 1 /\ (x * x) mod p = p - 1 /\
  Forall (fun d => 0 < d) (descent_divisors (S (Z.abs_nat x)) p p x) /\
  Sorted Z.gt (descent_divisors (S (Z.abs_nat x)) p p x) /\
  exists a b, descent p p x = Ok (a, b) /\ 0 < a /\ a * a < p.
Proof.
  intros Hp H4 Hg x.
  destruct (seed_square_root p g Hp H4 Hg) as (Hx & Hsq & Hgcd).
  destruct (descent_of_nonresidue p g Hp H4 Hg) as (a & b & Hd & Hsum & Hb & Hdiv).
  fold x in Hx, Hsq, Hgcd, Hd, Hdiv.
  split; [exact Hx|]. split; [exact Hgcd|]. split; [exact Hsq|].
  split; [exact Hdiv|]. split; [apply descent_divisors_decreasing; exact Hdiv|].
  exists a, b. split; [exact Hd|]. nia.
Qed.

Lemma descent_terminates_witness :
  let x := (2 ^ ((5 - 1) / 4)) mod 5 in
  0 < x < 5 /\ Z.gcd 5 x = 1 /\ (x * x) mod 5 = 5 - 1 /\
  Forall (fun d => 0 < d) (descent_divisors (S (Z.abs_nat x)) 5 5 x) /\
  Sorted Z.gt (descent_divisors (S (Z.abs_nat x)) 5 5 x) /\
  exists a b, descent 5 5 x = Ok (a, b) /\ 0 < a /\ a * a < 5.
Proof.
  apply (descent_terminates 5 2).
  - apply isprime_spec. vm_compute. reflexivity.
  - reflexivity.
  - apply not_is_qr_by_search; [lia|vm_compute; reflexivity].
Defined.

(** ** The pair stored for a prime [p = 1 mod 4] *)

(** The pair that the source stores for 5 is [(2, 1)]: the larger
    component comes first. *)
Lemma stored_rep_descending :
  exists a b, stored_rep 5 5 = Some (a, b) /\
              ~ (a * a + b * b = 5 /\ 0 <= a <= b).
Proof.
  exists 2, 1. split; [vm_compute; reflexivity|lia].
Qed.

(** C4 (amended): when the search in the candidates that are left (primes
    from 5 on, as [primerange(5, ...)] yields them) returns a value [g]
    for the prime [p = 1 mod 4], [g] is a quadratic non-residue of [p],
    the loop body stores for [p] the pair [(a, b)] of the descent from
    [(p, g^((p-1)/4) mod p)], and this pair satisfies [a^2 + b^2 = p]
    with [0 < b < a]. *)
Theorem stored_rep_correct (p e g : Z) (candidates rest : list Z)
  (prime_reps : dict) :
  Z.prime p -> p mod 4 = 1 -> Forall prime_ge_5 candidates ->
  find_quadratic_nonresidue p (Some candidates) = (Some g, Some rest) ->
  ~ is_qr p g /\
  exists a b,
    prime_reps_step true p e (candidates, prime_reps)
      = Continue (rest, dict_set prime_reps p (a, b)) /\
    dict_get (dict_set prime_reps p (a, b)) p = Some (a, b) /\
    descent p p ((g ^ ((p - 1) / 4)) mod p) = Ok (a, b) /\
    a * a + b * b = p /\ 0 < b < a.
Proof.
  intros Hp H4 Hcs Hfind.
  destruct (find_qnr_shared p candidates g rest Hp H4 Hcs Hfind) as [Hg _].
  split; [exact Hg|].
  destruct (descent_of_nonresidue p g Hp H4 Hg) as (a & b & Hd & Hsum & Hb & _).
  exists a, b. split; [|split; [apply dict_get_set_same|]].
  - unfold prime_reps_step.
    replace (p mod 4 =? 3) with false by (rewrite H4; reflexivity).
    replace (p mod 4 =? 1) with true by (rewrite H4; reflexivity).
    rewrite Hfind. cbv zeta in Hd. rewrite Hd. reflexivity.
  - repeat split; try assumption; lia.
Qed.

Lemma stored_rep_correct_witness :
  ~ is_qr 73 5 /\
  exists a b,
    prime_reps_step true 73 1 ([5; 7], [(2, (1, 1))])
      = Continue ([7], dict_set [(2, (1, 1))] 73 (a, b)) /\
    dict_get (dict_set [(2, (1, 1))] 73 (a, b)) 73 = Some (a, b) /\
    descent 73 73 ((5 ^ ((73 - 1) / 4)) mod 73) = Ok (a, b) /\
    a * a + b * b = 73 /\ 0 < b < a.
Proof.
  apply (stored_rep_correct 73 1 5 [5; 7] [7] [(2, (1, 1))]).
  - apply isprime_spec. vm_compute. reflexivity.
  - reflexivity.
  - repeat constructor; try lia; apply isprime_spec; vm_compute; reflexivity.
  - reflexivity.
Defined.

(** ** The shared generator runs dry *)

(** The input [34472881 = 241 * 313 * 457]: the three primes are 1 modulo
    24, the generator holds 5, 7, 11, 13, 17, 19; the search for 241 stops
    at 7, the one for 313 at 17, and the one for 457 is left with 19, a
    residue, although 5 is a non-residue of 457. *)
Example factorint_34472881 :
  factorint 34472881 = [(241, 1); (313, 1); (457, 1)].
Proof. vm_compute. reflexivity. Qed.

Example shared_candidates_34472881 :
  shared_candidates (factorint 34472881) = [5; 7; 11; 13; 17; 19].
Proof. vm_compute. reflexivity. Qed.

Example searches_34472881 :
  find_quadratic_nonresidue 241 (Some [5; 7; 11; 13; 17; 19])
    = (Some 7, Some [11; 13; 17; 19]) /\
  find_quadratic_nonresidue 313 (Some [11; 13; 17; 19])
    = (Some 17, Some [19]) /\
  find_quadratic_nonresidue 457 (Some [19]) = (None, Some []) /\
  find_quadratic_nonresidue 457 None = (Some 5, None).
Proof. vm_compute. repeat split. Qed.

(** C7: on 34472881 the source, with its shared generator, raises, while
    with a fresh sequence for every search it returns the four
    representations. *)
Theorem shared_candidates_change_result :
  sum_of_two_squares 34472881 = Raise TypeError /\
  sum_of_two_squares_fresh 34472881
    = Ok (32, [(1716, 5615); (2159, 5460); (3660, 4591); (4015, 4284)]).
Proof. split; vm_compute; reflexivity. Qed.

(** C9: a non-negative input on which an exception is raised. *)
Theorem exception_on_nonnegative_input :
  0 <= 34472881 /\ sum_of_two_squares 34472881 = Raise TypeError.
Proof. split; [lia|vm_compute; reflexivity]. Qed.

(** C1: the pairs [(a, b)] with [0 <= a <= b] and [a^2 + b^2 = 34472881]
    are the four pairs of the sorted list below, and the source returns no
    list for this input. *)
Theorem no_list_for_representable_input :
  (forall c l, sum_of_two_squares 34472881 <> Ok (c, l)) /\
  (forall a b,
     In (a, b) [(1716, 5615); (2159, 5460); (3660, 4591); (4015, 4284)]
     <-> 0 <= a <= b /\ a * a + b * b = 34472881) /\
  StronglySorted pair_lt
    [(1716, 5615); (2159, 5460); (3660, 4591); (4015, 4284)].
Proof.
  split.
  - intros c l H.
    assert (E : sum_of_two_squares 34472881 = Raise TypeError)
      by (vm_compute; reflexivity).
    rewrite E in H. discriminate H.
  - apply (sum_of_two_squares_list false 34472881 32).
    vm_compute. reflexivity.
Qed.

(** C3: 34472881 has no prime factor 3 modulo 4 and the source raises
    instead of returning a non-empty list; [34472881 * 463] has the prime
    463 = 3 modulo 4 with exponent 1 and the source raises instead of
    returning [(0, [])]. *)
Theorem feasibility_gate_raises :
  factorint 34472881 = [(241, 1); (313, 1); (457, 1)] /\
  sum_of_two_squares 34472881 = Raise TypeError /\
  factorint (34472881 * 463) = [(241, 1); (313, 1); (457, 1); (463, 1)] /\
  463 mod 4 = 3 /\
  sum_of_two_squares (34472881 * 463) = Raise TypeError.
Proof. repeat split; vm_compute; reflexivity. Qed.

(** ** The count on 34472881 *)

(** C2: for [n = 34472881 = 241 * 313 * 457] the closed form gives
    [r_2(n) = 32], and so does the formula [4 * prod(e_p + 1)] of
    [sum_of_two_squares] on the factorization, but the call raises
    [TypeError] and returns no count to compare. *)
Theorem count_missing_for_three_primes :
  r_2 34472881 = 32 /\
  count_formula (factorint 34472881) = 32 /\
  sum_of_two_squares 34472881 = Raise TypeError /\
  forall c l, sum_of_two_squares 34472881 <> Ok (c, l).
Proof.
  assert (E : sum_of_two_squares 34472881 = Raise TypeError)
    by (vm_compute; reflexivity).
  split; [|split; [|split]].
  - rewrite r_2_geom_prod by lia. vm_compute. reflexivity.
  - vm_compute. reflexivity.
  - exact E.
  - intros c l H. rewrite E in H. discriminate H.
Qed.

(** ** What holds of the function as it is *)

(** X1: whenever [sum_of_two_squares(n)] returns, with the shared generator
    or with a fresh one for every search, the count is [r_2(n)]. *)
Theorem returned_count_is_r_2 (shared : bool) (n c : Z) (l : list (Z * Z)) :
  sum_of_two_squares_with shared n = Ok (c, l) -> c = r_2 n.
Proof. apply sum_of_two_squares_count. Qed.

Lemma returned_count_is_r_2_witness :
  sum_of_two_squares_with true 50 = Ok (12, [(1, 7); (5, 5)]) /\ 12 = r_2 50.
Proof.
  split; [vm_compute; reflexivity|].
  apply (returned_count_is_r_2 true 50 12 [(1, 7); (5, 5)]).
  vm_compute. reflexivity.
Defined.

(** X2: whenever [sum_of_two_squares(n)] returns, the list holds exactly
    the pairs [(a, b)] with [0 <= a <= b] and [a^2 + b^2 = n], in strictly
    increasing lexicographic order (so without duplicates). *)
Theorem returned_list_complete (shared : bool) (n c : Z) (l : list (Z * Z)) :
  sum_of_two_squares_with shared n = Ok (c, l) ->
  (forall a b, In (a, b) l <-> 0 <= a <= b /\ a * a + b * b = n) /\
  StronglySorted pair_lt l.
Proof. apply sum_of_two_squares_list. Qed.

Lemma returned_list_complete_witness :
  sum_of_two_squares_with true 50 = Ok (12, [(1, 7); (5, 5)]) /\
  (forall a b, In (a, b) [(1, 7); (5, 5)]
               <-> 0 <= a <= b /\ a * a + b * b = 50) /\
  StronglySorted pair_lt [(1, 7); (5, 5)].
Proof.
  split; [vm_compute; reflexivity|].
  apply (returned_list_complete true 50 12 [(1, 7); (5, 5)]).
  vm_compute. reflexivity.
Defined.

(** X3: for [n >= 0] the only exception that [sum_of_two_squares(n)] can
    raise is the [TypeError] of the search that comes back empty-handed:
    the descent never divides by zero and the second loop finds every
    prime in [prime_reps]. *)
Theorem only_type_error_on_nonnegative (n : Z) :
  0 <= n ->
  (exists c l, sum_of_two_squares n = Ok (c, l)) \/
  sum_of_two_squares n = Raise TypeError.
Proof. apply sum_of_two_squares_outcome. Qed.

Lemma only_type_error_on_nonnegative_witness :
  0 <= 34472881 /\
  ((exists c l, sum_of_two_squares 34472881 = Ok (c, l)) \/
   sum_of_two_squares 34472881 = Raise TypeError).
Proof.
  split; [lia|]. apply (only_type_error_on_nonnegative 34472881). lia.
Defined.

(** X4: [sum_of_two_squares(n)] raises [ValueError] exactly when
    [n < 0]. *)
Theorem value_error_iff_negative (n : Z) :
  sum_of_two_squares n = Raise ValueError <-> n < 0.
Proof.
  split.
  - intros H. destruct (Z_lt_le_dec n 0) as [Hneg | Hnn]; [exact Hneg|].
    destruct (sum_of_two_squares_outcome n Hnn) as [(c & l & E) | E];
      rewrite E in H; discriminate H.
  - intros H. unfold sum_of_two_squares, sum_of_two_squares_with.
    destruct (Z.ltb_spec n 0); [reflexivity|lia].
Qed.

(** X5: with a fresh [primerange(5, sqrt(p) + 1)] for every search,
    [sum_of_two_squares(n)] returns a result for every [n >= 0]. *)
Theorem fresh_candidates_always_return (n : Z) :
  0 <= n -> exists c l, sum_of_two_squares_fresh n = Ok (c, l).
Proof. apply sum_of_two_squares_fresh_total. Qed.

Lemma fresh_candidates_always_return_witness :
  0 <= 34472881 /\ exists c l, sum_of_two_squares_fresh 34472881 = Ok (c, l).
Proof.
  split; [lia|]. apply (fresh_candidates_always_return 34472881). lia.
Defined.

(** X6: whenever [sum_of_two_squares(n)] returns with the shared generator,
    it returns what it returns with fresh generators. *)
Theorem shared_result_is_fresh_result (n : Z) (r : Z * list (Z * Z)) :
  sum_of_two_squares n = Ok r -> sum_of_two_squares_fresh n = Ok r.
Proof.
  intros H.
  assert (Hn : 0 <= n).
  { destruct (Z_lt_le_dec n 0) as [Hneg | Hnn]; [|exact Hnn].
    unfold sum_of_two_squares, sum_of_two_squares_with in H.
    destruct (Z.ltb_spec n 0); [discriminate H|lia]. }
  destruct (sum_of_two_squares_fresh_total n Hn) as (c & l & E).
  rewrite E. f_equal. symmetry.
  apply (sum_of_two_squares_determined true false n r (c, l) H E).
Qed.

Lemma shared_result_is_fresh_result_witness :
  sum_of_two_squares 50 = Ok (12, [(1, 7); (5, 5)]) /\
  sum_of_two_squares_fresh 50 = Ok (12, [(1, 7); (5, 5)]).
Proof.
  split; [vm_compute; reflexivity|].
  apply (shared_result_is_fresh_result 50). vm_compute. reflexivity.
Defined.

(** X7: whenever [sum_of_two_squares(n)] returns for [n >= 2]: if some
    prime [p = 3 mod 4] of the factorization has an odd exponent the
    result is [(0, [])], and otherwise the count is positive and the list
    is not empty. *)
Theorem returned_feasibility (shared : bool) (n c : Z) (l : list (Z * Z)) :
  2 <= n -> sum_of_two_squares_with shared n = Ok (c, l) ->
  (infeasible (factorint n) = true -> c = 0 /\ l = []) /\
  (infeasible (factorint n) = false -> 0 < c /\ l <> []).
Proof. apply sum_of_two_squares_feasibility. Qed.

Lemma returned_feasibility_witness :
  2 <= 50 /\
  sum_of_two_squares_with true 50 = Ok (12, [(1, 7); (5, 5)]) /\
  (infeasible (factorint 50) = true -> 12 = 0 /\ [(1, 7); (5, 5)] = []) /\
  (infeasible (factorint 50) = false -> 0 < 12 /\ [(1, 7); (5, 5)] <> []).
Proof.
  split; [lia|]. split; [vm_compute; reflexivity|].
  apply (returned_feasibility true 50 12 [(1, 7); (5, 5)]).
  - lia.
  - vm_compute. reflexivity.
Defined.

(** X8: when at most one prime of the factorization of [n >= 0] makes
    [find_quadratic_nonresidue] draw from the shared generator (a prime
    [p = 1 mod 8] with [p mod 3 != 2]), [sum_of_two_squares(n)]
    returns. *)
Theorem one_search_returns (n : Z) :
  0 <= n -> (searches (factorint n) <= 1)%nat ->
  exists c l, sum_of_two_squares n = Ok (c, l).
Proof. apply sum_of_two_squares_one_search. Qed.

Lemma one_search_returns_witness :
  0 <= 365 /\ (searches (factorint 365) <= 1)%nat /\
  exists c l, sum_of_two_squares 365 = Ok (c, l).
Proof.
  split; [lia|]. split; [vm_compute; lia|].
  apply (one_search_returns 365); [lia|vm_compute; lia].
Defined.

(** X9: for a prime [p = 1 mod 4] with [a^2 + b^2 = p], [0 < b < a], and
    [e >= 1], every pair of [rep_prime_power((a, b), e)] has norm [p^e],
    and every pair of integers of norm [p^e] is in the list up to signs
    and order. *)
Theorem rep_prime_power_complete (p a b e : Z) :
  Z.prime p -> p mod 4 = 1 -> a * a + b * b = p -> 0 < b < a -> 0 < e ->
  (forall r, In r (rep_prime_power (a, b) e) -> norm r = p ^ e) /\
  (forall v, norm v = p ^ e ->
     exists r, In r (rep_prime_power (a, b) e) /\ canon r = canon v).
Proof.
  intros Hp H4 Hs Hab He.
  apply (rep_prime_power_covers p e (a, b)).
  - apply covers_prime1; assumption.
  - intros M. apply (splits_prime1 M p a b); assumption.
  - exact He.
Qed.

Lemma rep_prime_power_complete_witness :
  (forall r, In r (rep_prime_power (2, 1) 2) -> norm r = 5 ^ 2) /\
  (forall v, norm v = 5 ^ 2 ->
     exists r, In r (rep_prime_power (2, 1) 2) /\ canon r = canon v).
Proof.
  apply (rep_prime_power_complete 5 2 1 2).
  - apply isprime_spec. vm_compute. reflexivity.
  - reflexivity.
  - reflexivity.
  - lia.
  - lia.
Defined.

(** ** [r_2] *)

(** X10: for [n >= 1], [r_2(n)] is 0 when some prime [p = 3 mod 4] of the
    factorization has an odd exponent, and otherwise it is the product
    [4 * prod(fac[p] + 1 if p % 4 == 1 else 1 for p in fac)] that
    [sum_of_two_squares] computes. *)
Theorem r_2_from_factorization (n : Z) :
  1 <= n ->
  r_2 n = if infeasible (factorint n) then 0 else count_formula (factorint n).
Proof. apply r_2_formula. Qed.

Lemma r_2_from_factorization_witness :
  1 <= 45 /\
  r_2 45 = if infeasible (factorint 45) then 0
           else count_formula (factorint 45).
Proof.
  split; [lia|]. apply (r_2_from_factorization 45). lia.
Defined.

(** X11: for every integer [n], also a negative one, [r_2(n)] is the
    number of pairs of integers [(x, y)] with [x^2 + y^2 = |n|]: the
    divisors of [n] are those of [|n|].  A negative [n] itself has no such
    pair. *)
Theorem r_2_counts_for_absolute_value (n : Z) :
  r_2 n = two_squares_count (Z.abs n) /\
  (n < 0 -> two_squares_count n = 0 /\ forall x y, x * x + y * y <> n).
Proof.
  split.
  - destruct (Z_lt_le_dec n 0) as [Hneg | Hnn].
    + destruct (r_2_of_negative n Hneg) as [E _].
      rewrite E. f_equal. lia.
    + rewrite Z.abs_eq by exact Hnn. apply r_2_two_squares_count. exact Hnn.
  - intros Hneg. destruct (r_2_of_negative n Hneg) as (_ & _ & Hno).
    split; [|exact Hno].
    unfold two_squares_count. rewrite (circle_points_empty n Hno). reflexivity.
Qed.

(** ** [rep_prod] and [rep_prime_power] *)

(** X12: [rep_prod] does not depend on the signs and on the order inside
    its two pairs, nor on the order of the two pairs: pairs with the same
    [sorted(|.|, |.|)] give the same set of results, and
    [rep_prod(a, b, c, d) == rep_prod(c, d, a, b)]. *)
Theorem rep_prod_up_to_signs_and_order (a b c d a' b' c' d' : Z) :
  canon (a, b) = canon (a', b') -> canon (c, d) = canon (c', d') ->
  (forall r, In r (rep_prod a b c d) <-> In r (rep_prod a' b' c' d')) /\
  rep_prod a b c d = rep_prod c d a b.
Proof.
  intros Hu Hv. split.
  - apply rep_prod_same_pairs; assumption.
  - apply rep_prod_comm.
Qed.

Lemma rep_prod_up_to_signs_and_order_witness :
  canon (2, 1) = canon (-1, 2) /\ canon (3, 4) = canon (4, -3) /\
  (forall r, In r (rep_prod 2 1 3 4) <-> In r (rep_prod (-1) 2 4 (-3))) /\
  rep_prod 2 1 3 4 = rep_prod 3 4 2 1.
Proof.
  split; [reflexivity|]. split; [reflexivity|].
  apply (rep_prod_up_to_signs_and_order 2 1 3 4 (-1) 2 4 (-3)); reflexivity.
Defined.

(** X13: for any pair [(a, b)] and any integer [n], [rep_prime_power((a,
    b), n)] is not empty and every pair [(x, y)] in it has
    [x^2 + y^2 = (a^2 + b^2)^max(n, 1)]; for [n >= 2] the pairs are
    ordered, [0 <= x <= y]; for [n <= 1] the list is [[(a, b)]] as it
    stands. *)
Theorem rep_prime_power_any_exponent (a b n : Z) :
  rep_prime_power (a, b) n <> [] /\
  (forall x y, In (x, y) (rep_prime_power (a, b) n) ->
     x * x + y * y = (a * a + b * b) ^ Z.max n 1 /\
     (2 <= n -> 0 <= x <= y)) /\
  (n <= 1 -> rep_prime_power (a, b) n = [(a, b)]).
Proof.
  split; [apply rep_prime_power_nonempty|]. split.
  - intros x y H. apply (rep_prime_power_sound a b n (x, y) H).
  - intros Hn. unfold rep_prime_power. cbv zeta.
    replace (Z.to_nat (n - 1)) with 0%nat by lia. reflexivity.
Qed.

(** ** [find_quadratic_nonresidue] on a shared generator *)



(** X15: on the generator as [sum_of_two_squares] creates it, before any
    search has drawn from it, [find_quadratic_nonresidue(p, candidates)]
    returns for every prime [p = 1 mod 4] of the factorization what
    [find_quadratic_nonresidue(p, None)] returns, the least quadratic
    non-residue of [p]. *)
Theorem first_search_finds_least (fac : list (Z * Z)) (p e : Z) :
  Z.prime p -> p mod 4 = 1 -> In (p, e) fac ->
  exists g,
    fst (find_quadratic_nonresidue p (Some (shared_candidates fac))) = Some g /\
    fst (find_quadratic_nonresidue p None) = Some g /\
    least_qnr p g.
Proof. apply first_search_is_fresh. Qed.

Lemma first_search_finds_least_witness :
  exists g,
    fst (find_quadratic_nonresidue 457
           (Some (shared_candidates [(241, 1); (313, 1); (457, 1)]))) = Some g /\
    fst (find_quadratic_nonresidue 457 None) = Some g /\
    least_qnr 457 g.
Proof.
  apply (first_search_finds_least [(241, 1); (313, 1); (457, 1)] 457 1).
  - apply isprime_spec. vm_compute. reflexivity.
  - reflexivity.
  - right. right. left. reflexivity.
Defined.

(** ** [sum_of_two_squares] *)

(** X16: on a prime [p = 1 mod 4], [sum_of_two_squares(p)] returns the
    count 8 and the one pair [(a, b)] with [0 < a < b] and
    [a^2 + b^2 = p]; on a prime [p = 3 mod 4] it returns [(0, [])]. *)
Theorem prime_inputs (p : Z) :
  Z.prime p ->
  (p mod 4 = 1 ->
     exists a b, sum_of_two_squares p = Ok (8, [(a, b)]) /\
                 0 < a < b /\ a * a + b * b = p) /\
  (p mod 4 = 3 -> sum_of_two_squares p = Ok (0, [])).
Proof.
  intros Hp. split.
  - apply sum_of_two_squares_prime1. exact Hp.
  - apply sum_of_two_squares_prime3. exact Hp.
Qed.

Lemma prime_inputs_witness :
  (73 mod 4 = 1 ->
     exists a b, sum_of_two_squares 73 = Ok (8, [(a, b)]) /\
                 0 < a < b /\ a * a + b * b = 73) /\
  (73 mod 4 = 3 -> sum_of_two_squares 73 = Ok (0, [])).
Proof.
  apply (prime_inputs 73). apply isprime_spec. vm_compute. reflexivity.
Defined.

(** X17: when the first loop of [sum_of_two_squares(n)] runs to its end,
    [prime_reps] holds for every prime [p] of the factorization what the
    second loop looks up: [(0, p^(e/2))] if [p = 3 mod 4], a pair
    [(a, b)] with [a^2 + b^2 = p] and [0 < b < a] if [p = 1 mod 4], and
    [(1, 1)] for 2; no entry is overwritten by a later prime. *)
Theorem prime_reps_table_complete (n : Z) (prime_reps : dict) :
  2 <= n -> prime_reps_of n = Some prime_reps ->
  forall p e, In (p, e) (factorint n) ->
  (p mod 4 = 3 -> dict_get prime_reps p = Some (0, p ^ (e / 2))) /\
  (p mod 4 = 1 ->
     exists a b, dict_get prime_reps p = Some (a, b) /\
                 a * a + b * b = p /\ 0 < b < a) /\
  (p = 2 -> dict_get prime_reps p = Some (1, 1)).
Proof. apply prime_reps_of_ok. Qed.

Lemma prime_reps_table_complete_witness :
  2 <= 90 /\
  prime_reps_of 90 = Some [(2, (1, 1)); (3, (0, 3)); (5, (2, 1))] /\
  forall p e, In (p, e) (factorint 90) ->
  (p mod 4 = 3 ->
     dict_get [(2, (1, 1)); (3, (0, 3)); (5, (2, 1))] p
     = Some (0, p ^ (e / 2))) /\
  (p mod 4 = 1 ->
     exists a b, dict_get [(2, (1, 1)); (3, (0, 3)); (5, (2, 1))] p
                 = Some (a, b) /\
                 a * a + b * b = p /\ 0 < b < a) /\
  (p = 2 -> dict_get [(2, (1, 1)); (3, (0, 3)); (5, (2, 1))] p = Some (1, 1)).
Proof.
  split; [lia|]. split; [vm_compute; reflexivity|].
  apply (prime_reps_table_complete 90); [lia|vm_compute; reflexivity].
Defined.

(** X18: for a prime [p = 1 mod 4] and any [x] with [0 < x < p] and
    [x^2 = -1 mod p], not only the seed of a non-residue, the loop
    [while a >= sqrt(p): a, b = b, a % b] from [(p, x)] ends with
    [(a, b)] such that [a^2 + b^2 = p] and [0 < b < a], and never divides
    by zero. *)
Theorem descent_from_any_root (p x : Z) :
  Z.prime p -> p mod 4 = 1 -> 0 < x < p -> (p | x * x + 1) ->
  exists a b,
    descent p p x = Ok (a, b) /\ a * a + b * b = p /\ 0 < b < a /\
    Forall (fun d => 0 < d) (descent_divisors (S (Z.abs_nat x)) p p x).
Proof. apply descent_from_root. Qed.

Lemma descent_from_any_root_witness :
  exists a b,
    descent 13 13 8 = Ok (a, b) /\ a * a + b * b = 13 /\ 0 < b < a /\
    Forall (fun d => 0 < d) (descent_divisors (S (Z.abs_nat 8)) 13 13 8).
Proof.
  apply (descent_from_any_root 13 8).
  - apply isprime_spec. vm_compute. reflexivity.
  - reflexivity.
  - lia.
  - exists 5. reflexivity.
Defined.

(** ** [print_representations] *)

(** X19: whenever [sum_of_two_squares(n)] returns [(count, list)], the
    column [Count] of the table that [print_representations] builds from
    the list, [8 / 2^k] with [k] the number of coincidences among
    [r[0] == r[1]], [r[0] == 0], [r[1] == 0], adds up to the count. *)
Theorem count_column_adds_up (shared : bool) (n c : Z) (l : list (Z * Z)) :
  sum_of_two_squares_with shared n = Ok (c, l) ->
  QArith_base.Qeq (count_total (rows (table_of l))) (QArith_base.inject_Z c).
Proof. apply count_column_total. Qed.

Lemma count_column_adds_up_witness :
  sum_of_two_squares_with true 50 = Ok (12, [(1, 7); (5, 5)]) /\
  QArith_base.Qeq (count_total (rows (table_of [(1, 7); (5, 5)])))
                  (QArith_base.inject_Z 12).
Proof.
  split; [vm_compute; reflexivity|].
  apply (count_column_adds_up true 50 12 [(1, 7); (5, 5)]).
  vm_compute. reflexivity.
Defined.

(** X20: whenever [sum_of_two_squares(n)] returns [(count, list)]: if no
    pair of integers has [x^2 + y^2 = n], the list is empty and
    [print_representations(n)] prints the two lines of the message
    "No representations exist"; if there is such a pair, the list is not
    empty and the call prints the input line, the count line and the
    table of [tabulate], or raises [NameError] where [tabulate] is not
    bound. *)
Theorem printed_text_by_representability
  (tabulate : option (table -> String.string)) (n c : Z) (l : list (Z * Z)) :
  sum_of_two_squares n = Ok (c, l) ->
  ((forall x y, x * x + y * y <> n) ->
   l = [] /\
   print_representations tabulate n
   = Printed (print_lines
                [input_line n;
                 "No representations exist, r_2(n) = 0."%string])) /\
  ((exists x y, x * x + y * y = n) ->
   l <> [] /\
   print_representations tabulate n
   = match tabulate with
     | None => RaisesNameError
     | Some tabulate =>
         Printed (print_lines
                    [input_line n;
                     String.append "r_2(n) = "
                       (String.append (fmt_comma c)
                                      ". The representations are:");
                     tabulate (table_of l)])
     end).
Proof. apply print_representations_cases. Qed.

Lemma printed_text_by_representability_witness :
  sum_of_two_squares 50 = Ok (12, [(1, 7); (5, 5)]) /\
  ((forall x y, x * x + y * y <> 50) ->
   [(1, 7); (5, 5)] = [] /\
   print_representations None 50
   = Printed (print_lines
                [input_line 50;
                 "No representations exist, r_2(n) = 0."%string])) /\
  ((exists x y, x * x + y * y = 50) ->
   [(1, 7); (5, 5)] <> [] /\
   print_representations None 50 = RaisesNameError).
Proof.
  split; [vm_compute; reflexivity|].
  apply (printed_text_by_representability None 50 12 [(1, 7); (5, 5)]).
  vm_compute. reflexivity.
Defined.

(** X21: where the name [tabulate] is not bound -- it is imported in the
    [__main__] block only -- [print_representations(n)] raises
    [NameError] exactly when [sum_of_two_squares(n)] returns and [n] is a
    sum of two squares. *)
Theorem name_error_without_tabulate (n : Z) :
  print_representations None n = RaisesNameError <->
  (exists c l, sum_of_two_squares n = Ok (c, l)) /\
  exists x y, x * x + y * y = n.
Proof. apply name_error_cases. Qed.

(** X22: the number that [{n:,}] prints reads back as [n] once the
    separators are removed, for every integer [n]. *)
Theorem formatted_number_reads_back (n : Z) :
  parse_comma (fmt_comma n) = Some n.
Proof. apply parse_fmt_comma. Qed.


